(** * hubspot-monday-sync: the reconciliation engine of [server.js]

    A shallow embedding of the two one-direction passes
    ([syncHubSpotToMonday], [syncMondayToHubSpot]), of the remote helpers they
    call, of [logSync] and of the entry points that trigger a pass, followed
    by the properties of the reconciliation design.

    JavaScript values are modelled by [JSVal]; the process-wide [config]
    object, the console and the pending timers form the [World] that every
    function threads; a [throw] is the [Throw] outcome of the monad [M].
    The two remote platforms are an arbitrary deterministic environment
    ([Env]): the reply to a request is a function of all the requests issued
    so far, the request itself included. The [World] records these requests
    in order ([calls]), so that what a pass asks of the remote side can be
    stated.

    An [async] function is run to its end before anything else runs: the
    [await]s of a pass are sequential, and the interleaving of two passes
    that overlap in time is not modelled (a handler that starts a pass
    without awaiting it is modelled as running it). A record of a reply has
    the shape the code reads; what a Monday reply holds under [data] may be
    missing, and reading it then throws a [TypeError]. *)

From stdpp Require Import base option list strings pretty countable gmap.

Open Scope string_scope.
Open Scope list_scope.

(** ** JavaScript values *)

(** The property values the two APIs return: a string, [null], or nothing. *)
Inductive JSVal :=
  | VUndef
  | VNull
  | VStr (s : string).

#[global] Instance JSVal_eq_dec : EqDecision JSVal.
Proof. solve_decision. Defined.

#[global] Instance JSVal_countable : Countable JSVal.
Proof.
  refine (inj_countable'
    (λ v, match v with
          | VUndef => inl false
          | VNull => inl true
          | VStr s => inr s
          end)
    (λ x, match x with
          | inl false => VUndef
          | inl true => VNull
          | inr s => VStr s
          end) _).
  by intros [].
Defined.

(** [Boolean(v)]: only a non-empty string is truthy. *)
Definition truthy (v : JSVal) : bool :=
  match v with
  | VStr s => negb (bool_decide (s = ""))
  | _ => false
  end.

(** [a || b] *)
Definition js_or (a b : JSVal) : JSVal := if truthy a then a else b.

(** [`${v}`] *)
Definition to_str (v : JSVal) : string :=
  match v with
  | VUndef => "undefined"
  | VNull => "null"
  | VStr s => s
  end.

(** A value that a reply may lack: [undefined], [null], or the value. *)
Inductive Maybe (A : Type) :=
  | Undefined
  | Null
  | Value (a : A).
Arguments Undefined {A}.
Arguments Null {A}.
Arguments Value {A} a.

(** The message of the [TypeError] that reading the property [p] of
    [undefined] or [null] throws (the text is V8's). *)
Definition cannot_read (what p : string) : string :=
  "Cannot read properties of " +:+ what +:+ " (reading '" +:+ p +:+ "')".

(** The message that reading [x.p] throws; [None] when [x] is there. *)
Definition unreadable {A} (x : Maybe A) (p : string) : option string :=
  match x with
  | Undefined => Some (cannot_read "undefined" p)
  | Null => Some (cannot_read "null" p)
  | Value _ => None
  end.

(** A plain object with literal keys, in insertion order. *)
Definition JSObj := list (string * JSVal).

(** [o.k]: [undefined] when the key is missing. *)
Fixpoint obj_get (o : JSObj) (k : string) : JSVal :=
  match o with
  | [] => VUndef
  | (k', v) :: o' => if String.eqb k' k then v else obj_get o' k
  end.

(** [Object.keys(o)] *)
Definition Object_keys (o : JSObj) : list string := o.*1.

(** [a.join(sep)] *)
Fixpoint join (sep : string) (a : list string) : string :=
  match a with
  | [] => ""
  | [x] => x
  | x :: a' => x +:+ sep +:+ join sep a'
  end.

(** ** Records of the two platforms *)

Record TicketProps := {
  subject : JSVal;
  content : JSVal;
  hs_pipeline_stage : JSVal;
  hs_ticket_priority : JSVal
}.

Record Ticket := {
  ticket_id : string;
  properties : TicketProps
}.

Record ColumnValue := {
  col_id : string;
  col_text : JSVal
}.

Record Item := {
  item_id : string;
  name : JSVal;
  column_values : list ColumnValue
}.

(** A board of the [boards] reply; [items_page] is [None] when
    [items_page] or its [items] is missing. *)
Record Board := {
  items_page : option (list Item)
}.

(** ** Configuration *)

Record FieldRules := {
  rule_title : string;
  rule_description : string;
  rule_status : string;
  rule_priority : string;
  rule_assignee : string
}.

Record FieldMapping := {
  map_description : string;
  map_status : string;
  map_priority : string;
  map_assignee : string
}.

Inductive Severity := info | success | error.

#[global] Instance Severity_eq_dec : EqDecision Severity.
Proof. solve_decision. Defined.

Record LogEntry := {
  timestamp : string;
  message : string;
  type : Severity
}.

Record Config := {
  hubspotToken : string;
  mondayToken : string;
  mondayBoardId : string;
  syncEnabled : bool;
  lastSync : option string;
  syncLog : list LogEntry;
  fieldRules : FieldRules;
  fieldMapping : FieldMapping
}.

Definition defaultRules : FieldRules :=
  {| rule_title := "hubspot"; rule_description := "hubspot";
     rule_status := "monday"; rule_priority := "monday";
     rule_assignee := "both" |}.

Definition defaultMapping : FieldMapping :=
  {| map_description := "text"; map_status := "status";
     map_priority := "priority"; map_assignee := "person" |}.

(** ** Requests to the remote platforms *)

(** [columnValues] has computed keys (the mapped column ids); it is sent as
    JSON, which has no key order, hence a finite map: the own properties of
    the object that [JSON.stringify] is given. *)
Inductive RemoteCall :=
  | HubSpotGetTickets (token : string)
  | HubSpotPostTicket (token : string) (props : JSObj)
  | HubSpotPatchTicket (token : string) (ticketId : string) (props : JSObj)
  | MondayItemsQuery (token boardId : string)
  | MondayCreateItem (token boardId : string) (itemName : JSVal)
      (columnValues : gmap string JSVal)
  | MondayChangeColumns (token boardId itemId : string)
      (columnValues : gmap string JSVal).

(** The remote side and the clock. Each reply is given the history of
    requests, oldest first, ending with the request being answered. [inl msg]
    is a call that fails inside the [try] of its helper: axios throws, the
    Monday reply carries [errors], or the reply has no body, with
    [error.message = msg]. Otherwise the reply is what the helper returns:
    [response.data.results] of HubSpot; [response.data.data] of Monday,
    which may be missing, and in it [boards], which may be missing too. Of
    the reply to a HubSpot write nothing is read. *)
Record Env := {
  tickets_reply : list RemoteCall → string + option (list Ticket);
  boards_reply : list RemoteCall → string + Maybe (Maybe (list Board));
  mutation_reply : list RemoteCall → string + Maybe unit;
  clock : nat → string
}.

Inductive Direction := HubSpotToMonday | MondayToHubSpot.

Record World := {
  config : Config;
  calls : list RemoteCall;
  console : list string;
  dates : nat;
  timers : list Direction
}.

Definition set_config (c : Config) (w : World) : World :=
  {| config := c; calls := calls w; console := console w;
     dates := dates w; timers := timers w |}.

Definition set_syncLog (l : list LogEntry) (c : Config) : Config :=
  {| hubspotToken := hubspotToken c; mondayToken := mondayToken c;
     mondayBoardId := mondayBoardId c; syncEnabled := syncEnabled c;
     lastSync := lastSync c; syncLog := l;
     fieldRules := fieldRules c; fieldMapping := fieldMapping c |}.

Definition set_lastSync (t : option string) (c : Config) : Config :=
  {| hubspotToken := hubspotToken c; mondayToken := mondayToken c;
     mondayBoardId := mondayBoardId c; syncEnabled := syncEnabled c;
     lastSync := t; syncLog := syncLog c;
     fieldRules := fieldRules c; fieldMapping := fieldMapping c |}.

Definition set_fieldRules (r : FieldRules) (c : Config) : Config :=
  {| hubspotToken := hubspotToken c; mondayToken := mondayToken c;
     mondayBoardId := mondayBoardId c; syncEnabled := syncEnabled c;
     lastSync := lastSync c; syncLog := syncLog c;
     fieldRules := r; fieldMapping := fieldMapping c |}.

Definition set_fieldMapping (m : FieldMapping) (c : Config) : Config :=
  {| hubspotToken := hubspotToken c; mondayToken := mondayToken c;
     mondayBoardId := mondayBoardId c; syncEnabled := syncEnabled c;
     lastSync := lastSync c; syncLog := syncLog c;
     fieldRules := fieldRules c; fieldMapping := m |}.

Definition set_assignee (a : string) (r : FieldRules) : FieldRules :=
  {| rule_title := rule_title r; rule_description := rule_description r;
     rule_status := rule_status r; rule_priority := rule_priority r;
     rule_assignee := a |}.

Definition set_map_assignee (a : string) (m : FieldMapping) : FieldMapping :=
  {| map_description := map_description m; map_status := map_status m;
     map_priority := map_priority m; map_assignee := a |}.

(** ** The monad of a running handler: world passing, with [throw] *)

Inductive Outcome (A : Type) :=
  | Ret (a : A)
  | Throw (msg : string).
Arguments Ret {A} a.
Arguments Throw {A} msg.

Definition M (A : Type) : Type := World → Outcome A * World.

Definition ret {A} (a : A) : M A := λ w, (Ret a, w).

Definition throw {A} (msg : string) : M A := λ w, (Throw msg, w).

Definition bind {A B} (m : M A) (k : A → M B) : M B := λ w,
  match m w with
  | (Ret a, w') => k a w'
  | (Throw msg, w') => (Throw msg, w')
  end.

(** [try { m } catch (error) { h(error.message) }] *)
Definition try_catch {A} (m : M A) (h : string → M A) : M A := λ w,
  match m w with
  | (Ret a, w') => (Ret a, w')
  | (Throw msg, w') => h msg w'
  end.

Declare Scope js_scope.
Delimit Scope js_scope with js.
Notation "x <~ m ;; k" := (bind m (λ x, k))
  (at level 100, m at next level, right associativity) : js_scope.
Notation "m ;;; k" := (bind m (λ _, k))
  (at level 100, right associativity) : js_scope.
Open Scope js_scope.

Definition get_config : M Config := λ w, (Ret (config w), w).

(** [x.p], for an [x] that may be missing. *)
Definition read {A} (x : Maybe A) (p : string) : M A :=
  match x with
  | Undefined => throw (cannot_read "undefined" p)
  | Null => throw (cannot_read "null" p)
  | Value a => ret a
  end.

(** [for (const x of xs) { s = body(x, s) }], [s] being the loop's locals. *)
Fixpoint for_of {A S} (xs : list A) (body : A → S → M S) (s : S) : M S :=
  match xs with
  | [] => ret s
  | x :: xs' => s' <~ body x s ;; for_of xs' body s'
  end.

Section Program.

Context (env : Env).

(** ** logSync *)

Definition upper (t : Severity) : string :=
  match t with
  | info => "INFO"
  | success => "SUCCESS"
  | error => "ERROR"
  end.

(** The line [console.log] prints for an entry. *)
Definition render (t : Severity) (msg : string) : string :=
  "[" +:+ upper t +:+ "] " +:+ msg.

(** [new Date().toISOString()]: the next reading of the clock. *)
Definition new_Date : M string := λ w,
  (Ret (clock env (dates w)),
   {| config := config w; calls := calls w; console := console w;
      dates := S (dates w); timers := timers w |}).

Definition logSync (msg : string) (t : Severity) : M unit :=
  ts <~ new_Date ;;
  λ w,
    let entry := {| timestamp := ts; message := msg; type := t |} in
    let log1 := entry :: syncLog (config w) in
    let log2 := if decide (50 < length log1) then removelast log1 else log1 in
    (Ret (),
     {| config := set_syncLog log2 (config w); calls := calls w;
        console := console w ++ [render t msg];
        dates := dates w; timers := timers w |}).

(** ** Remote requests *)

Definition issue (c : RemoteCall) (w : World) : World :=
  {| config := config w; calls := calls w ++ [c]; console := console w;
     dates := dates w; timers := timers w |}.

(** [axios.get('.../objects/tickets')], giving [response.data.results]. *)
Definition axios_get_tickets : M (option (list Ticket)) := λ w,
  let w' := issue (HubSpotGetTickets (hubspotToken (config w))) w in
  match tickets_reply env (calls w') with
  | inl msg => (Throw msg, w')
  | inr results => (Ret results, w')
  end.

(** A write: [axios.post] or [axios.patch] of HubSpot, or [axios.post] of
    Monday with a mutation, followed in [mondayQuery] by the test of
    [response.data.errors]; it gives [response.data.data]. *)
Definition mutate (c : RemoteCall) : M (Maybe unit) := λ w,
  let w' := issue c w in
  match mutation_reply env (calls w') with
  | inl msg => (Throw msg, w')
  | inr data => (Ret data, w')
  end.

(** ** HubSpot functions *)

Definition getHubSpotTickets : M (list Ticket) :=
  try_catch
    (results <~ axios_get_tickets ;; ret (default [] results))
    (λ msg, logSync ("Error fetching HubSpot tickets: " +:+ msg) error ;;;
            throw msg).

Definition createHubSpotTicket (data : JSObj) : M unit :=
  try_catch
    (cfg <~ get_config ;;
     mutate (HubSpotPostTicket (hubspotToken cfg)
       [("subject", obj_get data "subject");
        ("content", obj_get data "content");
        ("hs_pipeline_stage", js_or (obj_get data "status") (VStr "new"));
        ("hs_ticket_priority",
         js_or (obj_get data "priority") (VStr "MEDIUM"))]) ;;;
     ret ())
    (λ msg, logSync ("Error creating HubSpot ticket: " +:+ msg) error ;;;
            throw msg).

(** [if (data.k !== undefined) properties.p = data.k] *)
Definition add_if_defined (data : JSObj) (k p : string) (o : JSObj) : JSObj :=
  match obj_get data k with
  | VUndef => o
  | v => o ++ [(p, v)]
  end.

Definition updateHubSpotTicket (ticketId : string) (data : JSObj) : M unit :=
  try_catch
    (let properties :=
       add_if_defined data "priority" "hs_ticket_priority"
         (add_if_defined data "status" "hs_pipeline_stage"
            (add_if_defined data "content" "content"
               (add_if_defined data "subject" "subject" []))) in
     cfg <~ get_config ;;
     mutate (HubSpotPatchTicket (hubspotToken cfg) ticketId properties) ;;;
     ret ())
    (λ msg, logSync ("Error updating HubSpot ticket: " +:+ msg) error ;;;
            throw msg).

(** ** Monday.com functions *)

(** [axios.post('https://api.monday.com/v2')] with the items query,
    followed by the test of [response.data.errors]; it gives
    [response.data.data]. *)
Definition axios_post_items_query (boardId : string)
    : M (Maybe (Maybe (list Board))) := λ w,
  let w' := issue (MondayItemsQuery (mondayToken (config w)) boardId) w in
  match boards_reply env (calls w') with
  | inl msg => (Throw msg, w')
  | inr data => (Ret data, w')
  end.

(** [mondayQuery]: the request, with the [catch] that logs and rethrows. *)
Definition mondayQuery {A} (request : M A) : M A :=
  try_catch request
    (λ msg, logSync ("Monday.com API error: " +:+ msg) error ;;; throw msg).

(** [data.boards[0]?.items_page?.items || []], after [mondayQuery] has
    returned: the two reads are outside its [try]. *)
Definition getMondayItems : M (list Item) :=
  cfg <~ get_config ;;
  data <~ mondayQuery (axios_post_items_query (mondayBoardId cfg)) ;;
  boards <~ read data "boards" ;;
  boards <~ read boards "0" ;;
  ret (default [] (head boards ≫= items_page)).

(** Truthiness of a mapped column id. *)
Definition nonempty (s : string) : bool := negb (bool_decide (s = "")).

(** An object made by [{}] and filled by [o[k] = v] with computed keys: its
    own properties, and whether it still has [Object.prototype] as its
    prototype. *)
Record PlainObject := {
  own : gmap string JSVal;
  has_prototype : bool
}.

(** [{}] *)
Definition empty_object : PlainObject :=
  {| own := ∅; has_prototype := true |}.

(** [o[k] = v]. The key "__proto__" is the accessor that a plain object
    inherits: assigning to it sets no own property; it drops a string and,
    given [null], removes the prototype, after which the key is one like
    any other. *)
Definition assign (k : string) (v : JSVal) (o : PlainObject) : PlainObject :=
  if bool_decide (k = "__proto__") && has_prototype o then
    match v with
    | VNull => {| own := own o; has_prototype := false |}
    | _ => o
    end
  else {| own := <[k := v]> (own o); has_prototype := has_prototype o |}.

(** [if (c) columnValues[k] = v] *)
Definition set_if (c : bool) (k : string) (v : JSVal)
    (columnValues : PlainObject) : PlainObject :=
  if c then assign k v columnValues else columnValues.

(** What [JSON.stringify(columnValues)] holds in [createMondayItem]. *)
Definition create_columnValues (m : FieldMapping) (ticketData : JSObj)
    : gmap string JSVal :=
  let content := obj_get ticketData "content" in
  let status := obj_get ticketData "status" in
  let priority := obj_get ticketData "priority" in
  own
    (set_if (truthy priority && nonempty (map_priority m))
       (map_priority m) priority
       (set_if (truthy status && nonempty (map_status m)) (map_status m) status
          (set_if (truthy content && nonempty (map_description m))
             (map_description m) content empty_object))).

(** [return data.create_item] is outside the [try] of [mondayQuery]. *)
Definition createMondayItem (ticketData : JSObj) : M unit :=
  cfg <~ get_config ;;
  let columnValues := create_columnValues (fieldMapping cfg) ticketData in
  data <~ mondayQuery
            (mutate (MondayCreateItem (mondayToken cfg) (mondayBoardId cfg)
                       (obj_get ticketData "subject") columnValues)) ;;
  read data "create_item".

(** [v !== undefined] *)
Definition defined (v : JSVal) : bool :=
  match v with VUndef => false | _ => true end.

(** What [JSON.stringify(columnValues)] holds in [updateMondayItem]. *)
Definition update_columnValues (m : FieldMapping) (ticketData : JSObj)
    : gmap string JSVal :=
  let content := obj_get ticketData "content" in
  let status := obj_get ticketData "status" in
  let priority := obj_get ticketData "priority" in
  own
    (set_if (defined priority && nonempty (map_priority m))
       (map_priority m) priority
       (set_if (defined status && nonempty (map_status m)) (map_status m) status
          (set_if (defined content && nonempty (map_description m))
             (map_description m) content empty_object))).

(** [return data.change_multiple_column_values] is outside the [try] of
    [mondayQuery]. *)
Definition updateMondayItem (itemId : string) (ticketData : JSObj) : M unit :=
  cfg <~ get_config ;;
  let columnValues := update_columnValues (fieldMapping cfg) ticketData in
  data <~ mondayQuery
            (mutate (MondayChangeColumns (mondayToken cfg) (mondayBoardId cfg)
                       itemId columnValues)) ;;
  read data "change_multiple_column_values".

(** ** Sync functions *)

(** [rule === platform || rule === 'both'] *)
Definition pulls (rule platform : string) : bool :=
  bool_decide (rule = platform) || bool_decide (rule = "both").

(** [if (c) updateData.k = v] on an object that has no key [k] yet. *)
Definition put_if (c : bool) (k : string) (v : JSVal) (o : JSObj) : JSObj :=
  if c then o ++ [(k, v)] else o.

(** The [updateData] object of a matched record: the four [if]s on
    [config.fieldRules], [platform] being the literal they compare with. *)
Definition updateData (platform : string) (r : FieldRules) (data : JSObj)
    : JSObj :=
  put_if (pulls (rule_priority r) platform) "priority" (obj_get data "priority")
    (put_if (pulls (rule_status r) platform) "status" (obj_get data "status")
       (put_if (pulls (rule_description r) platform) "content"
          (obj_get data "content")
          (put_if (pulls (rule_title r) platform) "subject"
             (obj_get data "subject") []))).

(** [new Map()] filled by [forEach(x => map.set(key(x), x))]. *)
Definition build_map {A} (key : A → JSVal) (xs : list A) : gmap JSVal A :=
  foldl (λ m x, <[key x := x]> m) ∅ xs.

Definition ticketData (ticket : Ticket) : JSObj :=
  [("subject", subject (properties ticket));
   ("content", content (properties ticket));
   ("status", hs_pipeline_stage (properties ticket));
   ("priority", hs_ticket_priority (properties ticket))].

(** The body of the loop over the tickets; the pair is [(created, updated)]. *)
Definition hm_body (mondayMap : gmap JSVal Item) (ticket : Ticket)
    (s : nat * nat) : M (nat * nat) :=
  let ticketData := ticketData ticket in
  match mondayMap !! obj_get ticketData "subject" with
  | None =>
      createMondayItem ticketData ;;;
      logSync ("Created Monday item: "
               +:+ to_str (obj_get ticketData "subject")) success ;;;
      ret (S s.1, s.2)
  | Some existingItem =>
      cfg <~ get_config ;;
      let updateData := updateData "hubspot" (fieldRules cfg) ticketData in
      if bool_decide (0 < length (Object_keys updateData)) then
        updateMondayItem (item_id existingItem) updateData ;;;
        logSync ("Updated Monday item: "
                 +:+ to_str (obj_get ticketData "subject")
                 +:+ " (" +:+ join ", " (Object_keys updateData) +:+ ")")
          info ;;;
        ret (s.1, S s.2)
      else ret s
  end.

Definition set_config_lastSync (t : string) : M unit := λ w,
  (Ret (), set_config (set_lastSync (Some t) (config w)) w).

(** The [try] block of [syncHubSpotToMonday]: the two snapshots, then the
    loop and the summary. *)
Definition hm_snapshots : M (list Ticket * list Item) :=
  logSync "Starting HubSpot → Monday.com sync..." info ;;;
  tickets <~ getHubSpotTickets ;;
  mondayItems <~ getMondayItems ;;
  ret (tickets, mondayItems).

Definition hm_try : M unit :=
  snap <~ hm_snapshots ;;
  let tickets := snap.1 in
  let mondayItems := snap.2 in
  let mondayMap := build_map name mondayItems in
  s <~ for_of tickets (hm_body mondayMap) (0, 0) ;;
  logSync ("HubSpot → Monday sync complete: " +:+ pretty s.1 +:+ " created, "
           +:+ pretty s.2 +:+ " updated") success ;;;
  t <~ new_Date ;;
  set_config_lastSync t.

Definition syncHubSpotToMonday : M unit :=
  cfg <~ get_config ;;
  if negb (syncEnabled cfg) then ret ()
  else try_catch hm_try (λ msg, logSync ("Sync failed: " +:+ msg) error).

(** [item.column_values.find(col => col.id === id)?.text] *)
Definition column_text (item : Item) (id : string) : JSVal :=
  from_option col_text VUndef
    (find (λ col, bool_decide (col_id col = id)) (column_values item)).

Definition itemData (m : FieldMapping) (item : Item) : JSObj :=
  [("subject", name item);
   ("content", js_or (column_text item (map_description m)) (VStr ""));
   ("status", js_or (column_text item (map_status m)) (VStr "new"));
   ("priority", js_or (column_text item (map_priority m)) (VStr "MEDIUM"))].

(** The body of the loop over the Monday items. *)
Definition mh_body (hubspotMap : gmap JSVal Ticket) (item : Item)
    (s : nat * nat) : M (nat * nat) :=
  cfg <~ get_config ;;
  let itemData := itemData (fieldMapping cfg) item in
  match hubspotMap !! obj_get itemData "subject" with
  | None =>
      createHubSpotTicket itemData ;;;
      logSync ("Created HubSpot ticket: "
               +:+ to_str (obj_get itemData "subject")) success ;;;
      ret (S s.1, s.2)
  | Some existingTicket =>
      let updateData := updateData "monday" (fieldRules cfg) itemData in
      if bool_decide (0 < length (Object_keys updateData)) then
        updateHubSpotTicket (ticket_id existingTicket) updateData ;;;
        logSync ("Updated HubSpot ticket: "
                 +:+ to_str (obj_get itemData "subject")
                 +:+ " (" +:+ join ", " (Object_keys updateData) +:+ ")")
          info ;;;
        ret (s.1, S s.2)
      else ret s
  end.

(** The [try] block of [syncMondayToHubSpot]. *)
Definition mh_snapshots : M (list Item * list Ticket) :=
  logSync "Starting Monday.com → HubSpot sync..." info ;;;
  mondayItems <~ getMondayItems ;;
  hubspotTickets <~ getHubSpotTickets ;;
  ret (mondayItems, hubspotTickets).

Definition mh_try : M unit :=
  snap <~ mh_snapshots ;;
  let mondayItems := snap.1 in
  let hubspotTickets := snap.2 in
  let hubspotMap := build_map (λ ticket, subject (properties ticket))
                      hubspotTickets in
  s <~ for_of mondayItems (mh_body hubspotMap) (0, 0) ;;
  logSync ("Monday → HubSpot sync complete: " +:+ pretty s.1 +:+ " created, "
           +:+ pretty s.2 +:+ " updated") success ;;;
  t <~ new_Date ;;
  set_config_lastSync t.

Definition syncMondayToHubSpot : M unit :=
  cfg <~ get_config ;;
  if negb (syncEnabled cfg) then ret ()
  else try_catch mh_try (λ msg, logSync ("Sync failed: " +:+ msg) error).

Definition performFullSync : M unit :=
  syncHubSpotToMonday ;;; syncMondayToHubSpot.

(** ** Entry points *)

Definition set_syncEnabled (b : bool) : M unit := λ w,
  let c := config w in
  (Ret (),
   set_config
     {| hubspotToken := hubspotToken c; mondayToken := mondayToken c;
        mondayBoardId := mondayBoardId c; syncEnabled := b;
        lastSync := lastSync c; syncLog := syncLog c;
        fieldRules := fieldRules c; fieldMapping := fieldMapping c |} w).

(** [app.post('/enable')] and [app.post('/disable')] *)
Definition post_enable : M unit :=
  set_syncEnabled true ;;; logSync "Auto-sync enabled" success.

Definition post_disable : M unit :=
  set_syncEnabled false ;;; logSync "Auto-sync disabled" info.

(** [app.post('/sync')]: the manual trigger. The handler does not await
    the full sync it starts; here the sync is run to its end. *)
Definition post_sync : M unit :=
  logSync "Manual sync triggered" info ;;; performFullSync.

(** [setTimeout(() => sync(), 1000)]: the pass is queued, and runs when the
    timer fires. *)
Definition setTimeout (d : Direction) : M unit := λ w,
  (Ret (),
   {| config := config w; calls := calls w; console := console w;
      dates := dates w; timers := timers w ++ [d] |}).

(** [app.post('/webhook/hubspot')] and [app.post('/webhook/monday')] *)
Definition webhook_hubspot : M unit :=
  cfg <~ get_config ;;
  if negb (syncEnabled cfg) then ret ()
  else logSync "HubSpot webhook received" info ;;;
       setTimeout HubSpotToMonday.

Definition webhook_monday : M unit :=
  cfg <~ get_config ;;
  if negb (syncEnabled cfg) then ret ()
  else logSync "Monday.com webhook received" info ;;;
       setTimeout MondayToHubSpot.

(** The oldest pending timer fires. The callback does not await the pass
    it starts; here the pass is run to its end before anything else. *)
Definition timer_fires : M unit := λ w,
  match timers w with
  | [] => (Ret (), w)
  | d :: ds =>
      let w' := {| config := config w; calls := calls w; console := console w;
                   dates := dates w; timers := ds |} in
      match d with
      | HubSpotToMonday => syncHubSpotToMonday w'
      | MondayToHubSpot => syncMondayToHubSpot w'
      end
  end.

(** [cron.schedule('*/5 * * * *', ...)]: one tick; the full sync it starts
    is run to its end. *)
Definition cron_tick : M unit :=
  cfg <~ get_config ;;
  if syncEnabled cfg then
    logSync "Scheduled sync starting..." info ;;; performFullSync
  else ret ().

End Program.

(** The [config] object at start-up, with no environment variable set. *)
Definition initial_config : Config :=
  {| hubspotToken := ""; mondayToken := ""; mondayBoardId := "";
     syncEnabled := false; lastSync := None; syncLog := [];
     fieldRules := defaultRules; fieldMapping := defaultMapping |}.

Definition initial_world : World :=
  {| config := initial_config; calls := []; console := []; dates := 0;
     timers := [] |}.

(** ** Start-up and the settings handlers *)

(** The fields of [req.body] that [POST /config] reads; the form of the
    dashboard sends the three of them. *)
Record ConfigBody := {
  body_hubspotToken : string;
  body_mondayToken : string;
  body_mondayBoardId : string
}.

Definition set_credentials (body : ConfigBody) (c : Config) : Config :=
  {| hubspotToken := body_hubspotToken body;
     mondayToken := body_mondayToken body;
     mondayBoardId := body_mondayBoardId body;
     syncEnabled := syncEnabled c; lastSync := lastSync c;
     syncLog := syncLog c; fieldRules := fieldRules c;
     fieldMapping := fieldMapping c |}.

(** The fields of [req.body] that [POST /rules] reads. *)
Record RulesBody := {
  body_title : JSVal;
  body_description : JSVal;
  body_status : JSVal;
  body_priority : JSVal;
  body_assignee : JSVal
}.

(** The fields of [req.body] that [POST /field-mapping] reads. *)
Record MappingBody := {
  description_monday : JSVal;
  status_monday : JSVal;
  priority_monday : JSVal;
  assignee_monday : JSVal
}.

(** [v || d], for a string literal [d] that is not empty. *)
Definition or_default (v : JSVal) (d : string) : string :=
  to_str (js_or v (VStr d)).

(** The rules [POST /rules] stores. *)
Definition rules_of_body (body : RulesBody) : FieldRules :=
  {| rule_title := or_default (body_title body) "hubspot";
     rule_description := or_default (body_description body) "hubspot";
     rule_status := or_default (body_status body) "monday";
     rule_priority := or_default (body_priority body) "monday";
     rule_assignee := or_default (body_assignee body) "both" |}.

(** The mapping [POST /field-mapping] stores. *)
Definition mapping_of_body (body : MappingBody) : FieldMapping :=
  {| map_description := or_default (description_monday body) "text";
     map_status := or_default (status_monday body) "status";
     map_priority := or_default (priority_monday body) "priority";
     map_assignee := or_default (assignee_monday body) "person" |}.

(** What the server reacts to: a request to one of its routes that change
    the state (the field discovery apart), a tick of the cron schedule, or
    the firing of a pending timer. *)
Inductive Event :=
  | PostConfig (body : ConfigBody)
  | PostRules (body : RulesBody)
  | PostFieldMapping (body : MappingBody)
  | PostEnable
  | PostDisable
  | PostSync
  | WebhookHubSpot
  | WebhookMonday
  | CronTick
  | TimerFires.

Section Server.

Context (env : Env).

(** [JSON.stringify(config.fieldMapping)]: only the line that
    [POST /field-mapping] logs depends on it. *)
Context (JSON_stringify : FieldMapping → string).

(** [console.log(line)] *)
Definition console_log (line : string) : M unit := λ w,
  (Ret (),
   {| config := config w; calls := calls w; console := console w ++ [line];
      dates := dates w; timers := timers w |}).

(** The callback of [app.listen(PORT, ...)]. *)
Definition server_started (PORT : string) : M unit :=
  console_log ("🚀 Server running on port " +:+ PORT) ;;;
  console_log ("📊 Dashboard: http://localhost:" +:+ PORT) ;;;
  logSync env "Server started successfully" success.

(** [app.post('/config')] *)
Definition post_config (body : ConfigBody) : M unit :=
  (λ w, (Ret (), set_config (set_credentials body (config w)) w)) ;;;
  logSync env "Configuration updated" info.

Definition set_rules (r : FieldRules) : M unit := λ w,
  (Ret (), set_config (set_fieldRules r (config w)) w).

(** [app.post('/rules')] *)
Definition post_rules (body : RulesBody) : M unit :=
  set_rules (rules_of_body body) ;;;
  cfg <~ get_config ;;
  let r := fieldRules cfg in
  logSync env
    ("Field rules updated: Title=" +:+ rule_title r
     +:+ ", Description=" +:+ rule_description r
     +:+ ", Status=" +:+ rule_status r
     +:+ ", Priority=" +:+ rule_priority r
     +:+ ", Assignee=" +:+ rule_assignee r) success.

Definition set_mapping (m : FieldMapping) : M unit := λ w,
  (Ret (), set_config (set_fieldMapping m (config w)) w).

(** [app.post('/field-mapping')] *)
Definition post_field_mapping (body : MappingBody) : M unit :=
  try_catch
    (set_mapping (mapping_of_body body) ;;;
     cfg <~ get_config ;;
     logSync env
       ("Field mapping updated: " +:+ JSON_stringify (fieldMapping cfg))
       success)
    (λ msg, logSync env ("Error updating field mapping: " +:+ msg) error).

(** What the server runs for an event. *)
Definition handle (e : Event) : M unit :=
  match e with
  | PostConfig body => post_config body
  | PostRules body => post_rules body
  | PostFieldMapping body => post_field_mapping body
  | PostEnable => post_enable env
  | PostDisable => post_disable env
  | PostSync => post_sync env
  | WebhookHubSpot => webhook_hubspot env
  | WebhookMonday => webhook_monday env
  | CronTick => cron_tick env
  | TimerFires => timer_fires env
  end.

(** The world after the events [es], handled one after the other. *)
Definition run (es : list Event) (w : World) : World :=
  foldl (λ w e, (handle e w).2) w es.

(** The world once the server listens. *)
Definition started (PORT : string) : World :=
  (server_started PORT initial_world).2.

End Server.

(** ** Field discovery

    [fetchHubSpotProperties] and [fetchMondayColumns] each send one read
    request, outside the passes; [calls] does not record it, and its reply
    is a parameter. [inl msg] is a call that fails, with
    [error.message = msg]: for HubSpot anything thrown inside the [try] of
    the function, for Monday anything thrown inside the [try] of
    [mondayQuery]. [columns] is an array. The two caches,
    [config.hubspotProperties] and [config.mondayColumns], are passed in and
    handed back beside the value the function returns. *)

(** An element of [response.data.results], and what is kept of it. *)
Record RawProperty := {
  raw_name : JSVal;
  raw_label : JSVal;
  raw_type : JSVal;
  raw_description : JSVal
}.

Record HubSpotProperty := {
  prop_name : JSVal;
  prop_label : JSVal;
  prop_type : JSVal;
  prop_description : JSVal
}.

(** An element of [data.boards[0].columns], and what is kept of it. *)
Record RawColumn := {
  raw_id : JSVal;
  raw_title : JSVal;
  raw_col_type : JSVal;
  settings_str : JSVal
}.

Record MondayColumn := {
  column_id : JSVal;
  column_title : JSVal;
  column_type : JSVal;
  column_settings : JSVal
}.

Record ColumnsBoard := { columns : list RawColumn }.

Section Discovery.

Context (env : Env).

(** The reply to [GET /crm/v3/properties/tickets]: the message of the
    error, or [response.data.results]. *)
Context (properties_reply : string + list RawProperty).

(** The reply to the columns query: the message of the error, or
    [response.data.data], which may be missing, and in it [boards], which
    may be missing too. *)
Context (columns_reply : string + Maybe (Maybe (list ColumnsBoard))).

Definition axios_get_properties : M (list RawProperty) := λ w,
  match properties_reply with
  | inl msg => (Throw msg, w)
  | inr results => (Ret results, w)
  end.

Definition axios_post_columns_query
    : M (Maybe (Maybe (list ColumnsBoard))) := λ w,
  match columns_reply with
  | inl msg => (Throw msg, w)
  | inr data => (Ret data, w)
  end.

Definition kept_property (prop : RawProperty) : HubSpotProperty :=
  {| prop_name := raw_name prop; prop_label := raw_label prop;
     prop_type := raw_type prop;
     prop_description := js_or (raw_description prop) (VStr "") |}.

Definition kept_column (col : RawColumn) : MondayColumn :=
  {| column_id := raw_id col; column_title := raw_title col;
     column_type := raw_col_type col; column_settings := settings_str col |}.

(** The pair is the value returned and [config.hubspotProperties] after
    the call. *)
Definition fetchHubSpotProperties (hubspotProperties : list HubSpotProperty)
    : M (list HubSpotProperty * list HubSpotProperty) :=
  try_catch
    (results <~ axios_get_properties ;;
     let hubspotProperties := kept_property <$> results in
     ret (hubspotProperties, hubspotProperties))
    (λ msg, logSync env ("Error fetching HubSpot properties: " +:+ msg) error ;;;
            ret ([], hubspotProperties)).

(** The pair is the value returned and [config.mondayColumns] after the
    call. *)
Definition fetchMondayColumns (mondayColumns : list MondayColumn)
    : M (list MondayColumn * list MondayColumn) :=
  try_catch
    (data <~ mondayQuery env axios_post_columns_query ;;
     boards <~ read data "boards" ;;
     let mondayColumns :=
       match boards with
       | Value (board :: _) => kept_column <$> columns board
       | _ => mondayColumns
       end in
     ret (mondayColumns, mondayColumns))
    (λ msg, logSync env ("Error fetching Monday columns: " +:+ msg) error ;;;
            ret ([], mondayColumns)).

End Discovery.

(** ** An in-memory remote, to run the passes on concrete inputs

    The tickets and items it serves are the initial ones followed by one
    record per successful create request of the history; a request fails
    when [fails] gives it a message. Every reply that does not fail has its
    data. *)
Module Sim.

Definition failed (fails : RemoteCall → option string) (h : list RemoteCall)
    : option string :=
  last h ≫= fails.

Definition succeeded (fails : RemoteCall → option string)
    (h : list RemoteCall) : list RemoteCall :=
  filter (λ c, fails c = None) h.

Definition created_items (h : list RemoteCall) : list Item :=
  omap (λ c, match c with
             | MondayCreateItem _ _ itemName columnValues =>
                 Some {| item_id := "new"; name := itemName;
                         column_values :=
                           (λ kv, {| col_id := kv.1; col_text := kv.2 |})
                             <$> map_to_list columnValues |}
             | _ => None
             end) h.

Definition created_tickets (h : list RemoteCall) : list Ticket :=
  omap (λ c, match c with
             | HubSpotPostTicket _ props =>
                 Some {| ticket_id := "new";
                         properties :=
                           {| subject := obj_get props "subject";
                              content := obj_get props "content";
                              hs_pipeline_stage :=
                                obj_get props "hs_pipeline_stage";
                              hs_ticket_priority :=
                                obj_get props "hs_ticket_priority" |} |}
             | _ => None
             end) h.

Definition remote (tickets : list Ticket) (items : list Item)
    (fails : RemoteCall → option string) : Env :=
  {| tickets_reply h :=
       match failed fails h with
       | Some msg => inl msg
       | None => inr (Some (tickets ++ created_tickets (succeeded fails h)))
       end;
     boards_reply h :=
       match failed fails h with
       | Some msg => inl msg
       | None =>
           inr (Value (Value
             [ {| items_page :=
                    Some (items ++ created_items (succeeded fails h)) |} ]))
       end;
     mutation_reply h :=
       match failed fails h with
       | Some msg => inl msg
       | None => inr (Value ())
       end;
     clock n := "T" +:+ pretty n |}.

(** [env], but the Monday replies to the requests that [bare] selects have
    neither [errors] nor [data]. *)
Definition without_data (bare : RemoteCall → bool) (env : Env) : Env :=
  {| tickets_reply := tickets_reply env;
     boards_reply h :=
       if from_option bare false (last h) then inr Undefined
       else boards_reply env h;
     mutation_reply h :=
       if from_option bare false (last h) then inr Undefined
       else mutation_reply env h;
     clock := clock env |}.


Definition never : RemoteCall → option string := λ _, None.

Definition ticket (id subj : string) (c st pr : JSVal) : Ticket :=
  {| ticket_id := id;
     properties := {| subject := VStr subj; content := c;
                      hs_pipeline_stage := st; hs_ticket_priority := pr |} |}.

Definition item (id nm : string) (cols : list (string * string)) : Item :=
  {| item_id := id; name := VStr nm;
     column_values :=
       (λ kv, {| col_id := kv.1; col_text := VStr kv.2 |}) <$> cols |}.

(** The start-up world after [POST /enable]. *)
Definition enabled_world : World :=
  {| config :=
       {| hubspotToken := ""; mondayToken := ""; mondayBoardId := "";
          syncEnabled := true; lastSync := None; syncLog := [];
          fieldRules := defaultRules; fieldMapping := defaultMapping |};
     calls := []; console := []; dates := 0; timers := [] |}.

End Sim.


(** Concrete snapshots and remotes. *)
Module Scenario.

Definition bug1 : Ticket :=
  Sim.ticket "101" "Bug 1" (VStr "crash") VUndef VNull.

Definition bug2 : Ticket :=
  Sim.ticket "102" "Bug 2" (VStr "slow") (VStr "open") (VStr "HIGH").

Definition item_bug2 : Item := Sim.item "8" "Bug 2" [("text", "old")].

Definition task : Item := Sim.item "9" "Task" [("status", "Done")].

Definition chore : Item := Sim.item "10" "Chore" [].

(** HubSpot is unreachable. *)
Definition hubspot_down (c : RemoteCall) : option string :=
  match c with
  | HubSpotGetTickets _ => Some "ECONNREFUSED"
  | _ => None
  end.

(** Monday rejects the creation of the item "Bug 1", and nothing else. *)
Definition bug1_rejected (c : RemoteCall) : option string :=
  match c with
  | MondayCreateItem _ _ itemName _ =>
      if decide (itemName = VStr "Bug 1") then Some "rejected" else None
  | _ => None
  end.

(** Monday rejects the creation of an item, HubSpot that of a ticket. *)
Definition create_rejected (c : RemoteCall) : option string :=
  match c with
  | MondayCreateItem _ _ _ _ => Some "rejected"
  | HubSpotPostTicket _ _ => Some "rejected"
  | _ => None
  end.

(** Every rule names Monday: nothing is pulled from HubSpot. *)
Definition monday_owns_all : World :=
  {| config :=
       {| hubspotToken := "pat"; mondayToken := "tok"; mondayBoardId := "42";
          syncEnabled := true; lastSync := None; syncLog := [];
          fieldRules :=
            {| rule_title := "monday"; rule_description := "monday";
               rule_status := "monday"; rule_priority := "monday";
               rule_assignee := "both" |};
          fieldMapping := defaultMapping |};
     calls := []; console := []; dates := 0; timers := [] |}.

(** Every rule names HubSpot: nothing is pulled from Monday. *)
Definition hubspot_owns_all : World :=
  {| config :=
       {| hubspotToken := "pat"; mondayToken := "tok"; mondayBoardId := "42";
          syncEnabled := true; lastSync := None; syncLog := [];
          fieldRules :=
            {| rule_title := "hubspot"; rule_description := "hubspot";
               rule_status := "hubspot"; rule_priority := "hubspot";
               rule_assignee := "both" |};
          fieldMapping := defaultMapping |};
     calls := []; console := []; dates := 0; timers := [] |}.

End Scenario.


(** [w] with another assignee rule. *)
Definition with_assignee (a : string) (w : World) : World :=
  set_config
    (set_fieldRules (set_assignee a (fieldRules (config w))) (config w)) w.

(** [w] with another column id mapped for the assignee. *)
Definition with_assignee_column (a : string) (w : World) : World :=
  set_config
    (set_fieldMapping (set_map_assignee a (fieldMapping (config w)))
       (config w)) w.

(** The property names of a HubSpot payload. *)
Definition hubspot_properties : list string :=
  ["subject"; "content"; "hs_pipeline_stage"; "hs_ticket_priority"].

(** The column ids under which a Monday payload may hold a value. *)
Definition synced_columns (m : FieldMapping) : list string :=
  [map_description m; map_status m; map_priority m].

(** A request that carries no assignee: a HubSpot payload has only the four
    property names, a Monday payload no value under the column id mapped
    for the assignee. *)
Definition leaves_assignee (m : FieldMapping) (c : RemoteCall) : Prop :=
  match c with
  | HubSpotPostTicket _ props | HubSpotPatchTicket _ _ props =>
      ∀ k, k ∈ Object_keys props → k ∈ hubspot_properties
  | MondayCreateItem _ _ _ columnValues
  | MondayChangeColumns _ _ _ columnValues =>
      columnValues !! map_assignee m = None
  | _ => True
  end.

(** A Monday payload holds values under synced column ids only. *)
Definition within_synced_columns (m : FieldMapping) (c : RemoteCall) : Prop :=
  match c with
  | MondayCreateItem _ _ _ columnValues
  | MondayChangeColumns _ _ _ columnValues =>
      ∀ k, is_Some (columnValues !! k) → k ∈ synced_columns m
  | _ => True
  end.


(** The names of the items that the requests [cs] create. *)
Definition created_names (cs : list RemoteCall) : list JSVal :=
  omap (λ c, match c with
             | MondayCreateItem _ _ itemName _ => Some itemName
             | _ => None
             end) cs.

(** The subjects of the tickets that the requests [cs] create. *)
Definition created_subjects (cs : list RemoteCall) : list JSVal :=
  omap (λ c, match c with
             | HubSpotPostTicket _ props => Some (obj_get props "subject")
             | _ => None
             end) cs.

(** The subject a ticket is matched by. *)
Definition ticket_subject (ticket : Ticket) : JSVal :=
  subject (properties ticket).

(** The request that ends the history [h] fails inside its helper, with
    message [msg]. *)
Definition rejected (env : Env) (h : list RemoteCall) (msg : string)
    : Prop :=
  match last h with
  | Some (HubSpotGetTickets _) => tickets_reply env h = inl msg
  | Some (MondayItemsQuery _ _) => boards_reply env h = inl msg
  | Some _ => mutation_reply env h = inl msg
  | None => False
  end.

(** What reading the boards of the reply to the items query throws, if
    anything: [data.boards], then [boards[0]]. *)
Definition boards_error (data : Maybe (Maybe (list Board))) : option string :=
  match data with
  | Value boards => unreadable boards "0"
  | _ => unreadable data "boards"
  end.

(** The property of [data] that the caller of [mondayQuery] reads, for a
    Monday write. *)
Definition property_read (c : RemoteCall) : option string :=
  match c with
  | MondayCreateItem _ _ _ _ => Some "create_item"
  | MondayChangeColumns _ _ _ _ => Some "change_multiple_column_values"
  | _ => None
  end.

(** The request that ends the history [h] is a Monday request, and what
    its reply holds under [data] cannot be read: the caller of
    [mondayQuery] throws a [TypeError] with message [msg]. *)
Definition unreadable_reply (env : Env) (h : list RemoteCall) (msg : string)
    : Prop :=
  match last h with
  | Some (MondayItemsQuery _ _) =>
      ∃ data, boards_reply env h = inr data ∧ boards_error data = Some msg
  | Some c =>
      ∃ data p, mutation_reply env h = inr data ∧
                property_read c = Some p ∧ unreadable data p = Some msg
  | None => False
  end.

(** The request that ends the history [h] makes its caller throw, with
    message [msg]. *)
Definition fails_with (env : Env) (h : list RemoteCall) (msg : string)
    : Prop :=
  rejected env h msg ∨ unreadable_reply env h msg.

(** Every request of [cs], issued in order after the history [h], is
    answered without failure. *)
Fixpoint all_succeed (env : Env) (h cs : list RemoteCall) : Prop :=
  match cs with
  | [] => True
  | c :: cs' =>
      (∀ msg, ¬ fails_with env (h ++ [c]) msg) ∧
      all_succeed env (h ++ [c]) cs'
  end.

(** The last request of [cs] fails with [msg], those before it succeed. *)
Definition ends_in_failure (env : Env) (h cs : list RemoteCall)
    (msg : string) : Prop :=
  ∃ cs0 c,
    cs = cs0 ++ [c] ∧ all_succeed env h cs0 ∧ fails_with env (h ++ cs) msg.

(** ** The logical fields of the field policy *)

Inductive LogicalField := Title | Description | Status | Priority.

(** The rule that guards a field in the four [if]s of a matched record. *)
Definition rule_of (f : LogicalField) (r : FieldRules) : string :=
  match f with
  | Title => rule_title r
  | Description => rule_description r
  | Status => rule_status r
  | Priority => rule_priority r
  end.

(** The key of [updateData] the guarded assignment sets. *)
Definition key_of (f : LogicalField) : string :=
  match f with
  | Title => "subject"
  | Description => "content"
  | Status => "status"
  | Priority => "priority"
  end.

(** ** What the log shows *)

(** The console line of an entry of [syncLog]. *)
Definition entry_line (e : LogEntry) : string := render (type e) (message e).

(** What the dashboard and the terminal show of the log, and the settings
    that only the settings handlers write. *)
Definition view (w : World) :=
  (syncLog (config w), console w, fieldRules (config w),
   fieldMapping (config w)).

(** [syncLog] holds the 50 newest lines that [logSync] has printed, newest
    first; the first two lines of the console are those of the start-up
    callback, printed by [console.log] itself. *)
Definition log_mirrors_console (w : World) : Prop :=
  (2 ≤ length (console w))%nat ∧
  entry_line <$> syncLog (config w) = take 50 (reverse (drop 2 (console w))).

(** * Properties *)

(** Membership in a list that is written out. *)
Ltac in_list :=
  repeat match goal with
         | H : _ ∈ _ :: _ |- _ =>
             let E := fresh in
             apply elem_of_cons in H as [E|H];
             [try discriminate E; try rewrite E|]
         | H : _ ∈ [] |- _ => by apply elem_of_nil in H
         end;
  repeat first [apply list_elem_of_here | apply list_elem_of_further].

(** ** What a computation adds to the world *)

(** The part of the configuration a pass reads and never writes. *)
Definition settings (c : Config) :=
  (hubspotToken c, mondayToken c, mondayBoardId c, syncEnabled c,
   fieldRules c, fieldMapping c).

(** [w'] is [w] after the requests [cs] and the console lines [ls], with the
    settings, [lastSync] and the pending timers as they were. *)
Record extends (w w' : World) (cs : list RemoteCall) (ls : list string)
    : Prop := {
  ext_calls : calls w' = calls w ++ cs;
  ext_console : console w' = console w ++ ls;
  ext_settings : settings (config w') = settings (config w);
  ext_lastSync : lastSync (config w') = lastSync (config w);
  ext_timers : timers w' = timers w
}.

Lemma extends_refl w : extends w w [] [].
Proof. by split; rewrite ?app_nil_r. Qed.

Lemma extends_trans w w1 w2 cs cs' ls ls' :
  extends w w1 cs ls → extends w1 w2 cs' ls' →
  extends w w2 (cs ++ cs') (ls ++ ls').
Proof.
  intros [] []. split; rewrite ?app_assoc; congruence.
Qed.

Lemma extends_issue c w : extends w (issue c w) [c] [].
Proof. by split; cbn; rewrite ?app_nil_r. Qed.

(** [s.startsWith(p)] *)
Fixpoint starts_with (p s : string) : bool :=
  match p, s with
  | EmptyString, _ => true
  | String a p', String b s' => bool_decide (a = b) && starts_with p' s'
  | String _ _, EmptyString => false
  end.

(** A console line of severity [error]. *)
Definition is_error_line (l : string) : bool := starts_with "[ERROR] " l.

(** No line of [ls] is an error. *)
Definition quiet (ls : list string) : Prop :=
  Forall (λ l, is_error_line l = false) ls.

Lemma is_error_line_render t msg :
  is_error_line (render t msg) = bool_decide (t = error).
Proof. by destruct t. Qed.

Lemma quiet_app ls ls' : quiet ls → quiet ls' → quiet (ls ++ ls').
Proof. apply Forall_app_2. Qed.

Lemma quiet_render t msg : t ≠ error → quiet [render t msg].
Proof.
  intros Ht. constructor; [|constructor].
  rewrite is_error_line_render. by apply bool_decide_eq_false.
Qed.

(** The number of lines of severity [error]. *)
Definition errors (ls : list string) : nat :=
  length (filter (λ l, is_error_line l = true) ls).

Lemma errors_app ls ls' : errors (ls ++ ls') = errors ls + errors ls'.
Proof. unfold errors. by rewrite filter_app, length_app. Qed.

Lemma errors_quiet ls : quiet ls → errors ls = 0.
Proof.
  unfold errors. induction 1 as [|l ls Hl _ IH]; [done|].
  rewrite filter_cons, decide_False; [done|]. by rewrite Hl.
Qed.

Section Effects.

Context (env : Env).

(** The world after [logSync(msg, t)]. *)
Definition logged (msg : string) (t : Severity) (w : World) : World :=
  (logSync env msg t w).2.

Lemma logSync_eq msg t w : logSync env msg t w = (Ret (), logged msg t w).
Proof. done. Qed.

Lemma logged_extends msg t w : extends w (logged msg t w) [] [render t msg].
Proof. by split; cbn; rewrite ?app_nil_r. Qed.

(** The two newest entries of [syncLog] after two calls of [logSync]. *)
Lemma logged_twice msg1 t1 msg2 t2 w :
  take 2 (syncLog (config (logged msg2 t2 (logged msg1 t1 w)))) =
    [ {| timestamp := clock env (S (dates w)); message := msg2; type := t2 |};
      {| timestamp := clock env (dates w); message := msg1; type := t1 |} ].
Proof.
  cbn. destruct (syncLog (config w)) as [|e1 [|e2 l]];
    repeat (case_decide; cbn in * ); try done; lia.
Qed.

(** The lines the helper of a request logs when the request ends in a
    throw: one when the request fails inside the helper ([Some prefix]),
    none when the throw comes from reading the reply, outside it. *)
Definition helper_lines (pfx : option string) (msg : string) : list string :=
  match pfx with
  | Some pfx => [render error (pfx +:+ msg)]
  | None => []
  end.

Definition helper_logged (pfx : option string) (msg : string) (w : World)
    : World :=
  match pfx with
  | Some pfx => logged (pfx +:+ msg) error w
  | None => w
  end.

Lemma helper_logged_extends pfx msg w :
  extends w (helper_logged pfx msg w) [] (helper_lines pfx msg).
Proof. destruct pfx; [apply logged_extends|apply extends_refl]. Qed.

Lemma errors_helper_lines pfx msg :
  errors (helper_lines pfx msg) = match pfx with Some _ => 1 | None => 0 end.
Proof. by destruct pfx. Qed.

(** A write inside the [try] that logs and rethrows. *)
Definition guarded (pfx : string) (c : RemoteCall) : M (Maybe unit) :=
  try_catch (mutate env c)
    (λ msg, logSync env (pfx +:+ msg) error ;;; throw msg).

Lemma guarded_eq pfx c w :
  guarded pfx c w =
    match mutation_reply env (calls w ++ [c]) with
    | inr data => (Ret data, issue c w)
    | inl msg => (Throw msg, logged (pfx +:+ msg) error (issue c w))
    end.
Proof.
  unfold guarded, try_catch, mutate. cbn.
  by destruct (mutation_reply env (calls w ++ [c])).
Qed.

(** ** The request a record gives rise to *)

(** What the loop does for one record: the request, the prefix of the error
    logged when it fails, the property of the reply that is read when it
    returns (by the Monday helpers), the line logged when all went well, and
    the counter that is incremented. *)
Record Action := {
  act_call : RemoteCall;
  act_prefix : string;
  act_read : option string;
  act_message : string;
  act_type : Severity;
  act_created : bool
}.

Definition bump (a : Action) (s : nat * nat) : nat * nat :=
  if act_created a then (S s.1, s.2) else (s.1, S s.2).

Definition read_reply (p : option string) (data : Maybe unit) : M unit :=
  match p with
  | Some p => read data p
  | None => ret ()
  end.

(** The message of the [TypeError] that reading the reply throws. *)
Definition reply_error (p : option string) (data : Maybe unit)
    : option string :=
  p ≫= unreadable data.

Definition run_action (a : option Action) (s : nat * nat) : M (nat * nat) :=
  match a with
  | None => ret s
  | Some a =>
      data <~ guarded (act_prefix a) (act_call a) ;;
      read_reply (act_read a) data ;;;
      logSync env (act_message a) (act_type a) ;;;
      ret (bump a s)
  end.

Lemma run_action_eq a s w :
  run_action (Some a) s w =
    match mutation_reply env (calls w ++ [act_call a]) with
    | inl msg =>
        (Throw msg, logged (act_prefix a +:+ msg) error (issue (act_call a) w))
    | inr data =>
        match reply_error (act_read a) data with
        | Some msg => (Throw msg, issue (act_call a) w)
        | None =>
            (Ret (bump a s),
             logged (act_message a) (act_type a) (issue (act_call a) w))
        end
    end.
Proof.
  unfold run_action, bind. rewrite guarded_eq.
  destruct (mutation_reply env _) as [msg|data]; [done|].
  by destruct (act_read a), data.
Qed.

Definition hm_action (mondayMap : gmap JSVal Item) (cfg : Config)
    (ticket : Ticket) : option Action :=
  let data := ticketData ticket in
  match mondayMap !! subject (properties ticket) with
  | None =>
      Some {| act_call :=
                MondayCreateItem (mondayToken cfg) (mondayBoardId cfg)
                  (subject (properties ticket))
                  (create_columnValues (fieldMapping cfg) data);
              act_prefix := "Monday.com API error: ";
              act_read := Some "create_item";
              act_message :=
                "Created Monday item: " +:+ to_str (subject (properties ticket));
              act_type := success;
              act_created := true |}
  | Some existingItem =>
      let upd := updateData "hubspot" (fieldRules cfg) data in
      if bool_decide (0 < length (Object_keys upd)) then
        Some {| act_call :=
                  MondayChangeColumns (mondayToken cfg) (mondayBoardId cfg)
                    (item_id existingItem)
                    (update_columnValues (fieldMapping cfg) upd);
                act_prefix := "Monday.com API error: ";
                act_read := Some "change_multiple_column_values";
                act_message :=
                  "Updated Monday item: "
                  +:+ to_str (subject (properties ticket))
                  +:+ " (" +:+ join ", " (Object_keys upd) +:+ ")";
                act_type := info;
                act_created := false |}
      else None
  end.

Lemma hm_body_action mondayMap ticket s w :
  hm_body env mondayMap ticket s w =
    run_action (hm_action mondayMap (config w) ticket) s w.
Proof.
  unfold hm_body, hm_action. cbn.
  destruct (mondayMap !! subject (properties ticket)) as [existingItem|].
  - unfold bind at 1, get_config at 1.
    case_bool_decide; [|done]. rewrite run_action_eq.
    unfold updateMondayItem, mondayQuery, bind, get_config, try_catch, mutate.
    cbn. by destruct (mutation_reply env _) as [msg|[| |[]]].
  - rewrite run_action_eq.
    unfold createMondayItem, mondayQuery, bind, get_config, try_catch, mutate.
    cbn. by destruct (mutation_reply env _) as [msg|[| |[]]].
Qed.

(** The properties [PATCH] sends for an [updateData] object. *)
Definition patch_properties (data : JSObj) : JSObj :=
  add_if_defined data "priority" "hs_ticket_priority"
    (add_if_defined data "status" "hs_pipeline_stage"
       (add_if_defined data "content" "content"
          (add_if_defined data "subject" "subject" []))).

(** The properties [POST] sends for an [itemData] object. *)
Definition post_properties (data : JSObj) : JSObj :=
  [("subject", obj_get data "subject");
   ("content", obj_get data "content");
   ("hs_pipeline_stage", js_or (obj_get data "status") (VStr "new"));
   ("hs_ticket_priority", js_or (obj_get data "priority") (VStr "MEDIUM"))].

Definition mh_action (hubspotMap : gmap JSVal Ticket) (cfg : Config)
    (item : Item) : option Action :=
  let data := itemData (fieldMapping cfg) item in
  match hubspotMap !! name item with
  | None =>
      Some {| act_call := HubSpotPostTicket (hubspotToken cfg)
                            (post_properties data);
              act_prefix := "Error creating HubSpot ticket: ";
              act_read := None;
              act_message := "Created HubSpot ticket: " +:+ to_str (name item);
              act_type := success;
              act_created := true |}
  | Some existingTicket =>
      let upd := updateData "monday" (fieldRules cfg) data in
      if bool_decide (0 < length (Object_keys upd)) then
        Some {| act_call :=
                  HubSpotPatchTicket (hubspotToken cfg)
                    (ticket_id existingTicket) (patch_properties upd);
                act_prefix := "Error updating HubSpot ticket: ";
                act_read := None;
                act_message :=
                  "Updated HubSpot ticket: " +:+ to_str (name item)
                  +:+ " (" +:+ join ", " (Object_keys upd) +:+ ")";
                act_type := info;
                act_created := false |}
      else None
  end.

Lemma mh_body_action hubspotMap item s w :
  mh_body env hubspotMap item s w =
    run_action (mh_action hubspotMap (config w) item) s w.
Proof.
  unfold mh_body, mh_action. unfold bind at 1, get_config at 1. cbn.
  destruct (hubspotMap !! name item) as [existingTicket|].
  - case_bool_decide; [|done]. rewrite run_action_eq.
    unfold updateHubSpotTicket, bind, get_config, try_catch, mutate.
    cbn. by destruct (mutation_reply env _) as [msg|data].
  - rewrite run_action_eq.
    unfold createHubSpotTicket, bind, get_config, try_catch, mutate.
    cbn. by destruct (mutation_reply env _) as [msg|data].
Qed.

(** How the request of the action [a], the last of the history [h], ends
    in a throw with message [msg]: it fails inside the helper, which logs
    under its prefix, or its reply cannot be read, which no helper logs. *)
Definition thrown_by (a : Action) (h : list RemoteCall)
    (pfx : option string) (msg : string) : Prop :=
  match pfx with
  | Some p => p = act_prefix a ∧ mutation_reply env h = inl msg
  | None =>
      ∃ data, mutation_reply env h = inr data ∧
              reply_error (act_read a) data = Some msg
  end.

End Effects.

Arguments logged : simpl never.
Arguments issue : simpl never.
Arguments helper_logged : simpl never.


(** ** The loop over the source records *)

Lemma for_of_app {A S} (body : A → S → M S) xs ys s w :
  for_of (xs ++ ys) body s w =
    (s' <~ for_of xs body s ;; for_of ys body s') w.
Proof.
  revert s w. induction xs as [|x xs IH]; intros s w; cbn; [done|].
  unfold bind in *. destruct (body x s w) as [[s1|msg] w1]; [|done].
  apply IH.
Qed.

(** A [throw] in the body for the record after [pre] ends the loop there,
    whatever follows. *)
Lemma for_of_abort {A S} (body : A → S → M S) pre x post s w s1 w1 msg w2 :
  for_of pre body s w = (Ret s1, w1) →
  body x s1 w1 = (Throw msg, w2) →
  for_of (pre ++ x :: post) body s w = (Throw msg, w2).
Proof.
  intros Hpre Hx. rewrite for_of_app. unfold bind at 1. rewrite Hpre. cbn.
  unfold bind. by rewrite Hx.
Qed.

Section Loop.

Context (env : Env) {A : Type}.
Context (body : A → nat * nat → M (nat * nat)).
Context (act : Config → A → option Action).

Hypothesis body_act :
  ∀ x s w, body x s w = run_action env (act (config w) x) s w.
Hypothesis act_settings :
  ∀ c c' x, settings c = settings c' → act c x = act c' x.
Hypothesis act_quiet : ∀ c x a, act c x = Some a → act_type a ≠ error.

(** The requests of a run of the loop in which no request fails. *)
Definition plan (c : Config) (xs : list A) : list RemoteCall :=
  omap (λ x, act_call <$> act c x) xs.

Lemma plan_settings c c' xs : settings c = settings c' → plan c xs = plan c' xs.
Proof.
  intros Hc. unfold plan. induction xs as [|x xs IH]; [done|].
  cbn. by rewrite IH, (act_settings c c').
Qed.

(** The loop, run from [w]: it issues the requests of the plan in order and
    logs no error until a request ends in a throw; the loop then throws
    without any further request, after the line of the helper if the
    request failed inside it. *)
Lemma loop_spec xs s w :
  ∃ cs ls,
    extends w (for_of xs body s w).2 cs ls ∧
    match (for_of xs body s w).1 with
    | Ret _ => cs = plan (config w) xs ∧ quiet ls
    | Throw msg =>
        ∃ pre x post a ls0 pfx w0,
          xs = pre ++ x :: post ∧
          act (config w) x = Some a ∧
          cs = plan (config w) pre ++ [act_call a] ∧
          ls = ls0 ++ helper_lines pfx msg ∧
          quiet ls0 ∧
          thrown_by env a (calls w ++ cs) pfx msg ∧
          (for_of xs body s w).2 = helper_logged env pfx msg w0
    end.
Proof.
  revert s w. induction xs as [|x xs IH]; intros s w.
  { exists [], []. split; [apply extends_refl|]. by split; [|constructor]. }
  cbn. unfold bind. rewrite body_act.
  destruct (act (config w) x) as [a|] eqn:Ha.
  - rewrite run_action_eq.
    destruct (mutation_reply env (calls w ++ [act_call a])) as [msg|data]
      eqn:Hreply; [|destruct (reply_error (act_read a) data) as [msg|] eqn:Herr].
    + exists [act_call a], [render error (act_prefix a +:+ msg)]. cbn. split.
      * eapply (extends_trans _ _ _ [_] [] [] [_]);
          [apply extends_issue|apply logged_extends].
      * exists [], x, xs, a, [], (Some (act_prefix a)), (issue (act_call a) w).
        split_and!; try done. constructor.
    + exists [act_call a], []. cbn. split; [apply extends_issue|].
      exists [], x, xs, a, [], None, (issue (act_call a) w).
      split_and!; try done; [constructor|]. by exists data.
    + set (w1 := logged env (act_message a) (act_type a) (issue (act_call a) w)).
      assert (extends w w1 [act_call a] [render (act_type a) (act_message a)])
        as Hw1.
      { eapply (extends_trans _ _ _ [_] [] [] [_]);
          [apply extends_issue|apply logged_extends]. }
      destruct (IH (bump a s) w1) as (cs & ls & Hext & Hout).
      exists (act_call a :: cs), (render (act_type a) (act_message a) :: ls).
      split; [apply (extends_trans _ _ _ [_] _ [_] _ Hw1 Hext)|].
      pose proof (ext_settings _ _ _ _ Hw1) as Hset.
      pose proof (ext_calls _ _ _ _ Hw1) as Hcalls.
      destruct (for_of xs body (bump a s) w1).1 as [s'|msg].
      * destruct Hout as [-> Hq]. split.
        -- by rewrite (plan_settings _ _ _ Hset).
        -- apply (quiet_app [_]); [|done]. apply quiet_render. eauto.
      * destruct Hout
          as (pre & x' & post & a' & ls0 & pfx & w0 & -> & Ha' & -> & -> & Hq
              & Hthrown & Hw0).
        exists (x :: pre), x', post, a',
          (render (act_type a) (act_message a) :: ls0), pfx, w0.
        split_and!;
          [done|by rewrite <- (act_settings _ _ _ Hset)| |done| | |done].
        -- rewrite (plan_settings _ _ _ Hset). unfold plan. cbn.
           by rewrite Ha.
        -- apply (quiet_app [_]); [|done]. apply quiet_render. eauto.
        -- rewrite Hcalls, <- app_assoc in Hthrown. exact Hthrown.
  - cbn. destruct (IH s w) as (cs & ls & Hext & Hout).
    exists cs, ls. split; [done|].
    destruct (for_of xs body s w).1 as [s'|msg].
    + by destruct Hout as [-> Hq].
    + destruct Hout
        as (pre & x' & post & a' & ls0 & pfx & w0 & -> & Ha' & -> & -> & Hq
            & Hthrown & Hw0).
      exists (x :: pre), x', post, a', ls0, pfx, w0. split_and!; try done.
      unfold plan. cbn. by rewrite Ha.
Qed.

End Loop.

(** ** The two snapshot fetches *)

Section Snapshots.

Context (env : Env).

(** [data.boards[0]?.items_page?.items || []] *)
Definition items_of (data : Maybe (Maybe (list Board))) : list Item :=
  match data with
  | Value (Value boards) => default [] (head boards ≫= items_page)
  | _ => []
  end.

Definition get_tickets (w : World) : RemoteCall :=
  HubSpotGetTickets (hubspotToken (config w)).

Definition items_query (w : World) : RemoteCall :=
  MondayItemsQuery (mondayToken (config w)) (mondayBoardId (config w)).

Lemma getHubSpotTickets_eq w :
  getHubSpotTickets env w =
    match tickets_reply env (calls w ++ [get_tickets w]) with
    | inl msg =>
        (Throw msg,
         logged env ("Error fetching HubSpot tickets: " +:+ msg) error
           (issue (get_tickets w) w))
    | inr results => (Ret (default [] results), issue (get_tickets w) w)
    end.
Proof.
  unfold getHubSpotTickets, try_catch, bind, axios_get_tickets. cbn.
  change (calls (issue _ w)) with (calls w ++ [get_tickets w]).
  by destruct (tickets_reply env (calls w ++ [get_tickets w])).
Qed.

(** The items query: a request that fails is logged by [mondayQuery]; a
    reply that cannot be read throws after it, and nothing is logged. *)
Lemma getMondayItems_eq w :
  getMondayItems env w =
    match boards_reply env (calls w ++ [items_query w]) with
    | inl msg =>
        (Throw msg,
         logged env ("Monday.com API error: " +:+ msg) error
           (issue (items_query w) w))
    | inr data =>
        match boards_error data with
        | Some msg => (Throw msg, issue (items_query w) w)
        | None => (Ret (items_of data), issue (items_query w) w)
        end
    end.
Proof.
  unfold getMondayItems, mondayQuery, try_catch, bind, get_config,
    axios_post_items_query. cbn.
  change (calls (issue _ w)) with (calls w ++ [items_query w]).
  by destruct (boards_reply env (calls w ++ [items_query w]))
    as [msg|[| |[| |boards]]].
Qed.

Definition hm_start : string := "Starting HubSpot → Monday.com sync...".
Definition mh_start : string := "Starting Monday.com → HubSpot sync...".

(** The snapshots of the HubSpot → Monday pass: the tickets, then the
    items; the first fetch that does not give its records throws. *)
Lemma hm_snapshots_eq w :
  let w0 := logged env hm_start info w in
  let wG := issue (get_tickets w) w0 in
  let wQ := issue (items_query w) wG in
  hm_snapshots env w =
    match tickets_reply env (calls w ++ [get_tickets w]) with
    | inl msg =>
        (Throw msg,
         logged env ("Error fetching HubSpot tickets: " +:+ msg) error wG)
    | inr results =>
        match boards_reply env (calls w ++ [get_tickets w; items_query w]) with
        | inl msg =>
            (Throw msg, logged env ("Monday.com API error: " +:+ msg) error wQ)
        | inr data =>
            match boards_error data with
            | Some msg => (Throw msg, wQ)
            | None => (Ret (default [] results, items_of data), wQ)
            end
        end
    end.
Proof.
  intros w0 wG wQ. unfold hm_snapshots, bind.
  rewrite logSync_eq, getHubSpotTickets_eq.
  change (calls (logged env _ info w) ++ _) with (calls w ++ [get_tickets w]).
  destruct (tickets_reply env (calls w ++ [get_tickets w])) as [msg|results];
    [done|].
  rewrite getMondayItems_eq.
  change (calls (issue _ (logged env _ info w)) ++ _)
    with ((calls w ++ [get_tickets w]) ++ [items_query w]).
  rewrite <- app_assoc. cbn.
  destruct (boards_reply env (calls w ++ [get_tickets w; items_query w]))
    as [msg|data]; [done|].
  by destruct (boards_error data).
Qed.

(** The snapshots of the Monday → HubSpot pass: the items, then the
    tickets. *)
Lemma mh_snapshots_eq w :
  let w0 := logged env mh_start info w in
  let wQ := issue (items_query w) w0 in
  let wG := issue (get_tickets w) wQ in
  mh_snapshots env w =
    match boards_reply env (calls w ++ [items_query w]) with
    | inl msg =>
        (Throw msg, logged env ("Monday.com API error: " +:+ msg) error wQ)
    | inr data =>
        match boards_error data with
        | Some msg => (Throw msg, wQ)
        | None =>
            match tickets_reply env
                    (calls w ++ [items_query w; get_tickets w]) with
            | inl msg =>
                (Throw msg,
                 logged env ("Error fetching HubSpot tickets: " +:+ msg) error
                   wG)
            | inr results => (Ret (items_of data, default [] results), wG)
            end
        end
    end.
Proof.
  intros w0 wQ wG. unfold mh_snapshots, bind.
  rewrite logSync_eq, getMondayItems_eq.
  change (calls (logged env _ info w) ++ _) with (calls w ++ [items_query w]).
  destruct (boards_reply env (calls w ++ [items_query w])) as [msg|data];
    [done|].
  destruct (boards_error data); [done|].
  rewrite getHubSpotTickets_eq.
  change (calls (issue _ (logged env _ info w)) ++ _)
    with ((calls w ++ [items_query w]) ++ [get_tickets w]).
  rewrite <- app_assoc. cbn.
  by destruct (tickets_reply env (calls w ++ [items_query w; get_tickets w])).
Qed.

(** A request that reads and changes nothing on the remote side. *)
Definition is_fetch (c : RemoteCall) : Prop :=
  match c with
  | HubSpotGetTickets _ | MondayItemsQuery _ _ => True
  | _ => False
  end.

(** How the fetch that ends the history [h] ends in a throw: it fails inside
    its helper, which logs under its prefix, or it is the items query and
    its reply cannot be read, which no helper logs. *)
Definition fetch_thrown (h : list RemoteCall) (pfx : option string)
    (msg : string) : Prop :=
  match pfx with
  | Some p =>
      p ∈ ["Error fetching HubSpot tickets: "; "Monday.com API error: "] ∧
      rejected env h msg
  | None => unreadable_reply env h msg
  end.

(** What the snapshot phase of either pass adds to the world: it logs
    [start], issues [first] and then only fetches; a fetch that throws is
    the last, and is logged by its helper if it failed in it. *)
Definition snapshots_spec {A} (m : M A) (start : string)
    (first : World → RemoteCall) (w : World) : Prop :=
  ∃ cs ls,
    extends w (m w).2 (first w :: cs) (render info start :: ls) ∧
    Forall is_fetch (first w :: cs) ∧
    match (m w).1 with
    | Ret _ => ls = []
    | Throw msg =>
        ∃ pfx w0,
          ls = helper_lines pfx msg ∧
          fetch_thrown (calls w ++ first w :: cs) pfx msg ∧
          (m w).2 = helper_logged env pfx msg w0
    end.

Lemma extends_fetch_log w c msg t :
  extends w (issue c (logged env msg t w)) [c] [render t msg].
Proof.
  eapply (extends_trans _ _ _ [] [_] [_] []);
    [apply logged_extends|apply extends_issue].
Qed.

Lemma last_two {A} (h : list A) c d : last (h ++ [c; d]) = Some d.
Proof.
  change (h ++ [c; d]) with (h ++ [c] ++ [d]). by rewrite app_assoc, last_snoc.
Qed.

Lemma rejected_tickets h w msg :
  last h = Some (get_tickets w) →
  tickets_reply env h = inl msg → rejected env h msg.
Proof. intros Hl H. unfold rejected. by rewrite Hl. Qed.

Lemma rejected_boards h w msg :
  last h = Some (items_query w) →
  boards_reply env h = inl msg → rejected env h msg.
Proof. intros Hl H. unfold rejected. by rewrite Hl. Qed.

Lemma unreadable_boards h w data msg :
  last h = Some (items_query w) →
  boards_reply env h = inr data →
  boards_error data = Some msg →
  unreadable_reply env h msg.
Proof. intros Hl H Hd. unfold unreadable_reply. rewrite Hl. cbn. eauto. Qed.

Lemma hm_snapshots_spec w :
  snapshots_spec (hm_snapshots env) hm_start get_tickets w.
Proof.
  unfold snapshots_spec. rewrite hm_snapshots_eq.
  pose proof (extends_fetch_log w (get_tickets w) hm_start info) as H0.
  destruct (tickets_reply env _) as [msg|results] eqn:Ht.
  - eexists [], [_]. cbn. split_and!.
    + eapply (extends_trans _ _ _ [_] [] [_] [_]); [exact H0|].
      apply logged_extends.
    + by repeat constructor.
    + eexists (Some "Error fetching HubSpot tickets: "), _.
      split_and!; [done| |done].
      split; [in_list|]. by apply (rejected_tickets _ w); [apply last_snoc|].
  - pose proof (extends_trans _ _ _ [_] [_] [_] [] H0
                  (extends_issue (items_query w) _)) as H1.
    destruct (boards_reply env _) as [msg|data] eqn:Hb;
      [|destruct (boards_error data) as [msg|] eqn:Hd].
    + eexists [_], [_]. cbn. split_and!.
      * eapply (extends_trans _ _ _ [_; _] [] [_] [_]); [exact H1|].
        apply logged_extends.
      * by repeat constructor.
      * eexists (Some "Monday.com API error: "), _.
        split_and!; [done| |done].
        split; [in_list|].
        by apply (rejected_boards _ w); [apply last_two|].
    + eexists [_], []. cbn. split_and!; [exact H1|by repeat constructor|].
      eexists None, _. split_and!; [done| |done].
      by apply (unreadable_boards _ w data); [apply last_two|..].
    + eexists [_], []. cbn. split_and!; [exact H1|by repeat constructor|done].
Qed.

Lemma mh_snapshots_spec w :
  snapshots_spec (mh_snapshots env) mh_start items_query w.
Proof.
  unfold snapshots_spec. rewrite mh_snapshots_eq.
  pose proof (extends_fetch_log w (items_query w) mh_start info) as H0.
  destruct (boards_reply env _) as [msg|data] eqn:Hb;
    [|destruct (boards_error data) as [msg|] eqn:Hd].
  - eexists [], [_]. cbn. split_and!.
    + eapply (extends_trans _ _ _ [_] [] [_] [_]); [exact H0|].
      apply logged_extends.
    + by repeat constructor.
    + eexists (Some "Monday.com API error: "), _.
      split_and!; [done| |done].
      split; [in_list|]. by apply (rejected_boards _ w); [apply last_snoc|].
  - eexists [], []. cbn. split_and!; [exact H0|by repeat constructor|].
    eexists None, _. split_and!; [done| |done].
    by apply (unreadable_boards _ w data); [apply last_snoc|..].
  - pose proof (extends_trans _ _ _ [_] [_] [_] [] H0
                  (extends_issue (get_tickets w) _)) as H1.
    destruct (tickets_reply env _) as [msg|results] eqn:Ht.
    + eexists [_], [_]. cbn. split_and!.
      * eapply (extends_trans _ _ _ [_; _] [] [_] [_]); [exact H1|].
        apply logged_extends.
      * by repeat constructor.
      * eexists (Some "Error fetching HubSpot tickets: "), _.
        split_and!; [done| |done].
        split; [in_list|].
        by apply (rejected_tickets _ w); [apply last_two|].
    + eexists [_], []. cbn. split_and!; [exact H1|by repeat constructor|done].
Qed.

End Snapshots.

Arguments helper_logged : simpl never.

(** ** A one-direction pass *)

(** [w'] is [w] after the requests [cs] and the console lines [ls]; the
    settings and the timers are as they were. *)
Record frame (w w' : World) (cs : list RemoteCall) (ls : list string)
    : Prop := {
  frame_calls : calls w' = calls w ++ cs;
  frame_console : console w' = console w ++ ls;
  frame_settings : settings (config w') = settings (config w);
  frame_timers : timers w' = timers w
}.

Lemma extends_frame w w' cs ls : extends w w' cs ls → frame w w' cs ls.
Proof. by intros []. Qed.

Section Pass.

Context (env : Env) {S A : Type}.
Context (snapshots : M S) (start : string) (first : World → RemoteCall).
Context (xs : S → list A) (body : S → A → nat * nat → M (nat * nat)).
Context (act : S → Config → A → option Action).
Context (summary : nat * nat → string).

Hypothesis snapshots_ok : ∀ w, snapshots_spec env snapshots start first w.
Hypothesis body_act :
  ∀ snap x s w, body snap x s w = run_action env (act snap (config w) x) s w.
Hypothesis act_settings :
  ∀ snap c c' x, settings c = settings c' → act snap c x = act snap c' x.
Hypothesis act_quiet :
  ∀ snap c x a, act snap c x = Some a → act_type a ≠ error.

(** The shape both passes have. *)
Definition pass_try : M unit :=
  snap <~ snapshots ;;
  s <~ for_of (xs snap) (body snap) (0, 0) ;;
  logSync env (summary s) success ;;;
  t <~ new_Date env ;;
  set_config_lastSync t.

Definition pass : M unit :=
  cfg <~ get_config ;;
  if negb (syncEnabled cfg) then ret ()
  else try_catch pass_try (λ msg, logSync env ("Sync failed: " +:+ msg) error).

(** The three ways a pass ends, with the requests [cs] it has issued and the
    lines [ls] it has logged. *)
Inductive pass_outcome (w w' : World) (cs : list RemoteCall)
    (ls : list string) : Prop :=
  | fetch_failed msg w0 pfx v :
      snapshots w = (Throw msg, w0) →
      (pass_try w).1 = Throw msg →
      w' = logged env ("Sync failed: " +:+ msg) error
             (helper_logged env pfx msg v) →
      Forall is_fetch cs →
      ls = render info start
           :: helper_lines pfx msg ++ [render error ("Sync failed: " +:+ msg)] →
      fetch_thrown env (calls w ++ cs) pfx msg →
      lastSync (config w') = lastSync (config w) →
      pass_outcome w w' cs ls
  | apply_failed snap w0 cs0 msg pre x post a ls0 pfx v :
      snapshots w = (Ret snap, w0) →
      (pass_try w).1 = Throw msg →
      w' = logged env ("Sync failed: " +:+ msg) error
             (helper_logged env pfx msg v) →
      Forall is_fetch cs0 →
      xs snap = pre ++ x :: post →
      act snap (config w) x = Some a →
      cs = cs0 ++ plan (act snap) (config w) pre ++ [act_call a] →
      ls = ls0 ++ helper_lines pfx msg
           ++ [render error ("Sync failed: " +:+ msg)] →
      quiet ls0 →
      thrown_by env a (calls w ++ cs) pfx msg →
      lastSync (config w') = lastSync (config w) →
      pass_outcome w w' cs ls
  | completed snap w0 cs0 :
      snapshots w = (Ret snap, w0) →
      (pass_try w).1 = Ret () →
      Forall is_fetch cs0 →
      cs = cs0 ++ plan (act snap) (config w) (xs snap) →
      quiet ls →
      pass_outcome w w' cs ls.

(** The world after the two statements that end a completed pass. *)
Definition stamped (w : World) : World :=
  ((t <~ new_Date env ;; set_config_lastSync t) w).2.

Lemma stamped_eq w :
  (t <~ new_Date env ;; set_config_lastSync t) w = (Ret (), stamped w).
Proof. done. Qed.

Lemma stamped_frame w : frame w (stamped w) [] [].
Proof. by split; cbn; rewrite ?app_nil_r. Qed.

Arguments stamped : simpl never.

Lemma frame_trans w w1 w2 cs cs' ls ls' :
  frame w w1 cs ls → frame w1 w2 cs' ls' →
  frame w w2 (cs ++ cs') (ls ++ ls').
Proof. intros [] []. split; rewrite ?app_assoc; congruence. Qed.

Lemma pass_disabled w : syncEnabled (config w) = false → pass w = (Ret (), w).
Proof. intros Hoff. unfold pass, bind, get_config. by rewrite Hoff. Qed.

Lemma pass_enabled w :
  syncEnabled (config w) = true →
  pass w =
    match pass_try w with
    | (Ret a, w') => (Ret a, w')
    | (Throw msg, w') => (Ret (), logged env ("Sync failed: " +:+ msg) error w')
    end.
Proof. intros Hon. unfold pass, bind, get_config. by rewrite Hon. Qed.

Lemma extends_logged w w' cs ls msg t :
  extends w w' cs ls → extends w (logged env msg t w') cs (ls ++ [render t msg]).
Proof.
  intros H. rewrite <- (app_nil_r cs).
  apply (extends_trans _ w'); [done|apply logged_extends].
Qed.

Lemma frame_stamped w w' cs ls : frame w w' cs ls → frame w (stamped w') cs ls.
Proof.
  intros H. rewrite <- (app_nil_r cs), <- (app_nil_r ls).
  apply (frame_trans _ w'); [done|apply stamped_frame].
Qed.

Lemma pass_spec w :
  syncEnabled (config w) = true →
  ∃ cs ls,
    pass w = (Ret (), (pass w).2) ∧
    frame w (pass w).2 (first w :: cs) (render info start :: ls) ∧
    pass_outcome w (pass w).2 (first w :: cs) (render info start :: ls).
Proof.
  intros Hon. rewrite (pass_enabled w Hon).
  destruct (snapshots_ok w) as (cs0 & ls0 & Hext & Hfetch & Hout).
  destruct (pass_try w) as [o w'] eqn:Htry.
  pose proof Htry as Htry'.
  unfold pass_try in Htry. unfold bind at 1 in Htry.
  destruct (snapshots w) as [[snap|msg] w0] eqn:Hs; cbn in Hext, Hout.
  - subst ls0.
    destruct (loop_spec env (body snap) (act snap) (body_act snap)
                (act_settings snap) (act_quiet snap) (xs snap) (0, 0) w0)
      as (cs1 & ls1 & Hext1 & Hout1).
    pose proof (ext_settings _ _ _ _ Hext) as Hset.
    rewrite (plan_settings _ (act_settings snap) _ _ _ Hset) in Hout1.
    pose proof (extends_trans _ _ _ _ _ _ _ Hext Hext1) as Hext2.
    unfold bind at 1 in Htry.
    destruct (for_of (xs snap) (body snap) (0, 0) w0) as [[s|msg] w1] eqn:Hloop;
      cbn in Hext1, Hext2, Hout1.
    + destruct Hout1 as [-> Hq1].
      unfold bind at 1 in Htry. rewrite logSync_eq in Htry.
      cbv beta iota in Htry. rewrite stamped_eq in Htry.
      injection Htry as <- <-. cbn.
      exists (cs0 ++ plan (act snap) (config w) (xs snap)),
             (ls1 ++ [render success (summary s)]).
      split_and!; [done| |].
      * apply frame_stamped, extends_frame.
        apply (extends_logged _ _ _ _ (summary s) success Hext2).
      * apply (completed _ _ _ _ snap w0 (first w :: cs0)); try done;
          try (by rewrite Htry').
        apply (quiet_app [_]); [by apply quiet_render|].
        apply quiet_app; [done|by apply quiet_render].
    + destruct Hout1
        as (pre & x & post & a & ls2 & pfx & v & Hxs & Ha & -> & -> & Hq2
            & Hthrown & Hv).
      cbn in Hv. subst w1. injection Htry as <- <-. cbn.
      rewrite (act_settings snap _ _ x Hset) in Ha.
      rewrite (plan_settings _ (act_settings snap) _ _ pre Hset) in Hext2.
      rewrite (plan_settings _ (act_settings snap) _ _ pre Hset) in Hthrown.
      rewrite (ext_calls _ _ _ _ Hext), <- app_assoc in Hthrown.
      exists (cs0 ++ plan (act snap) (config w) pre ++ [act_call a]),
             (ls2 ++ helper_lines pfx msg
              ++ [render error ("Sync failed: " +:+ msg)]).
      pose proof (extends_logged _ _ _ _ ("Sync failed: " +:+ msg) error Hext2)
        as Hfin.
      cbn in Hfin. rewrite <- !app_assoc in Hfin. cbn in Hfin.
      split_and!; [done|by apply extends_frame|].
      apply (apply_failed _ _ _ _ snap w0 (first w :: cs0) msg pre x post a
               (render info start :: ls2) pfx v); try done;
        try (by rewrite Htry').
      * apply (quiet_app [_]); [by apply quiet_render|done].
      * apply (ext_lastSync _ _ _ _ Hfin).
  - destruct Hout as (pfx & v & -> & Hthrown & Hv). cbn in Hv. subst w0.
    injection Htry as <- <-. cbn.
    exists cs0, (helper_lines pfx msg
                 ++ [render error ("Sync failed: " +:+ msg)]).
    pose proof (extends_logged _ _ _ _ ("Sync failed: " +:+ msg) error Hext)
      as Hfin.
    cbn in Hfin.
    split_and!; [done|by apply extends_frame|].
    eapply (fetch_failed _ _ _ _ msg _ pfx v); try done;
      try (by rewrite Htry').
    apply (ext_lastSync _ _ _ _ Hfin).
Qed.

(** The error lines of a pass: none when the [try] block returns; when it
    throws, the line of the remote helper, if the request failed inside it,
    and the line of the pass, which are also the newest entries of
    [syncLog]. *)
Lemma outcome_errors w w' cs ls :
  pass_outcome w w' cs ls →
  match (pass_try w).1 with
  | Ret _ => quiet ls
  | Throw msg =>
      ∃ ls0 pfx v,
        ls = ls0 ++ helper_lines pfx msg
             ++ [render error ("Sync failed: " +:+ msg)] ∧
        quiet ls0 ∧
        (fetch_thrown env (calls w ++ cs) pfx msg ∨
         ∃ snap x a, act snap (config w) x = Some a ∧
                     thrown_by env a (calls w ++ cs) pfx msg) ∧
        w' = logged env ("Sync failed: " +:+ msg) error
               (helper_logged env pfx msg v)
  end.
Proof.
  intros [msg w0 pfx v Hs -> -> Hfetch -> Hthrown _
         |snap w0 cs0 msg pre x post a ls0 pfx v Hs -> -> Hfetch Hxs Ha -> ->
            Hq Hthrown _
         |snap w0 cs0 Hs -> Hfetch -> Hq]; [| |done].
  - exists [render info start], pfx, v. split_and!; try done; [|by left].
    by apply quiet_render.
  - exists ls0, pfx, v. split_and!; try done. right. eauto.
Qed.

Lemma plan_Forall (P : RemoteCall → Prop) snap c (l : list A) :
  (∀ x a, x ∈ l → act snap c x = Some a → P (act_call a)) →
  Forall P (plan (act snap) c l).
Proof.
  unfold plan. induction l as [|x l IH]; intros HP; cbn; [done|].
  assert (Forall P (omap (λ x, act_call <$> act snap c x) l)) as Hl.
  { apply IH. intros y a Hy. apply HP. by right. }
  destruct (act snap c x) as [a|] eqn:Ha; cbn; [|done].
  constructor; [|done]. apply (HP x a); [by left|done].
Qed.


(** A property of every fetch and of the request of every record of the
    source snapshot holds of every request of a pass. *)
Lemma pass_calls (P : RemoteCall → Prop) w :
  (∀ c, is_fetch c → P c) →
  (∀ snap w0 x a,
     snapshots w = (Ret snap, w0) → x ∈ xs snap →
     act snap (config w) x = Some a → P (act_call a)) →
  ∃ cs,
    calls (pass w).2 = calls w ++ cs ∧ Forall P cs ∧
    settings (config (pass w).2) = settings (config w).
Proof.
  intros Hfetch Hact. destruct (syncEnabled (config w)) eqn:Hon.
  - destruct (pass_spec w Hon) as (cs & ls & _ & Hfr & Hout).
    exists (first w :: cs).
    split_and!; [apply Hfr| |apply Hfr].
    destruct Hout as [msg w0 pfx v _ _ _ Hf _ _ _
                     |snap w0 cs0 msg pre x post a ls0 pfx v Hs _ _ Hf Hxs Ha
                        -> _ _ _ _
                     |snap w0 cs0 Hs _ Hf -> _].
    + eapply Forall_impl; [exact Hf|done].
    + rewrite !Forall_app. split_and!.
      * eapply Forall_impl; [exact Hf|done].
      * apply plan_Forall. intros y b Hy. apply (Hact snap w0); [done|].
        rewrite Hxs. apply elem_of_app. by left.
      * constructor; [|done]. apply (Hact snap w0 x); [done| |done].
        rewrite Hxs. apply elem_of_app. right. by left.
    + rewrite Forall_app. split.
      * eapply Forall_impl; [exact Hf|done].
      * apply plan_Forall. intros y b Hy. by apply (Hact snap w0).
  - rewrite (pass_disabled w Hon). exists []. by rewrite app_nil_r.
Qed.


(** A snapshot fetch that throws: the pass logs the failure and returns. *)
Lemma pass_fetch_failed w msg w0 :
  syncEnabled (config w) = true →
  snapshots w = (Throw msg, w0) →
  pass w = (Ret (), logged env ("Sync failed: " +:+ msg) error w0) ∧
  ∃ cs pfx,
    extends w (logged env ("Sync failed: " +:+ msg) error w0) (first w :: cs)
      (render info start
       :: helper_lines pfx msg ++ [render error ("Sync failed: " +:+ msg)]) ∧
    Forall is_fetch (first w :: cs).
Proof.
  intros Hon Hs. rewrite (pass_enabled w Hon). unfold pass_try, bind.
  rewrite Hs. split; [done|].
  destruct (snapshots_ok w) as (cs & ls & Hext & Hfetch & Hout).
  rewrite Hs in Hext, Hout. cbn in Hext, Hout.
  destruct Hout as (pfx & _ & -> & _ & _). exists cs, pfx. split; [|done].
  apply (extends_logged _ _ _ _ ("Sync failed: " +:+ msg) error Hext).
Qed.

(** A request for the record after [pre] that ends in a throw: the loop is
    left, the pass logs the failure and returns; [post] plays no part. *)
Lemma pass_apply_failed w snap w0 pre x post s1 w1 msg w2 :
  syncEnabled (config w) = true →
  snapshots w = (Ret snap, w0) →
  xs snap = pre ++ x :: post →
  for_of pre (body snap) (0, 0) w0 = (Ret s1, w1) →
  body snap x s1 w1 = (Throw msg, w2) →
  pass w = (Ret (), logged env ("Sync failed: " +:+ msg) error w2) ∧
  ∃ a pfx,
    act snap (config w1) x = Some a ∧
    thrown_by env a (calls w1 ++ [act_call a]) pfx msg ∧
    w2 = helper_logged env pfx msg (issue (act_call a) w1).
Proof.
  intros Hon Hs Hxs Hpre Hx. split.
  - rewrite (pass_enabled w Hon). unfold pass_try, bind at 1. rewrite Hs.
    unfold bind at 1. by rewrite Hxs, (for_of_abort _ _ _ _ _ _ _ _ _ _ Hpre Hx).
  - rewrite body_act in Hx.
    destruct (act snap (config w1) x) as [a|]; [|done].
    exists a. rewrite run_action_eq in Hx.
    destruct (mutation_reply env (calls w1 ++ [act_call a])) as [msg'|data]
      eqn:Hreply; [|destruct (reply_error (act_read a) data) as [msg'|] eqn:He];
      [| |done]; injection Hx as -> <-.
    + by exists (Some (act_prefix a)).
    + exists None. split_and!; [done| |done]. by exists data.
Qed.

End Pass.

(** ** The two passes as instances *)

Section Directions.

Context (env : Env).

Definition hm_summary (s : nat * nat) : string :=
  "HubSpot → Monday sync complete: " +:+ pretty s.1 +:+ " created, "
  +:+ pretty s.2 +:+ " updated".

Definition mh_summary (s : nat * nat) : string :=
  "Monday → HubSpot sync complete: " +:+ pretty s.1 +:+ " created, "
  +:+ pretty s.2 +:+ " updated".

Definition hm_act (snap : list Ticket * list Item)
    : Config → Ticket → option Action :=
  hm_action (build_map name snap.2).

Definition mh_act (snap : list Item * list Ticket)
    : Config → Item → option Action :=
  mh_action (build_map (λ ticket, subject (properties ticket)) snap.2).

Lemma syncHubSpotToMonday_pass :
  syncHubSpotToMonday env =
    pass env (hm_snapshots env) fst
      (λ snap, hm_body env (build_map name snap.2)) hm_summary.
Proof. done. Qed.

Lemma syncMondayToHubSpot_pass :
  syncMondayToHubSpot env =
    pass env (mh_snapshots env) fst
      (λ snap, mh_body env
                 (build_map (λ ticket, subject (properties ticket)) snap.2))
      mh_summary.
Proof. done. Qed.

Lemma hm_try_pass :
  hm_try env =
    pass_try env (hm_snapshots env) fst
      (λ snap, hm_body env (build_map name snap.2)) hm_summary.
Proof. done. Qed.

Lemma mh_try_pass :
  mh_try env =
    pass_try env (mh_snapshots env) fst
      (λ snap, mh_body env
                 (build_map (λ ticket, subject (properties ticket)) snap.2))
      mh_summary.
Proof. done. Qed.

Lemma hm_action_settings mondayMap c c' ticket :
  settings c = settings c' →
  hm_action mondayMap c ticket = hm_action mondayMap c' ticket.
Proof.
  unfold settings. intros [= H1 H2 H3 H4 H5 H6]. unfold hm_action.
  by rewrite H2, H3, H5, H6.
Qed.

Lemma mh_action_settings hubspotMap c c' item :
  settings c = settings c' →
  mh_action hubspotMap c item = mh_action hubspotMap c' item.
Proof.
  unfold settings. intros [= H1 H2 H3 H4 H5 H6]. unfold mh_action.
  by rewrite H1, H5, H6.
Qed.

Lemma hm_action_quiet mondayMap c ticket a :
  hm_action mondayMap c ticket = Some a → act_type a ≠ error.
Proof.
  unfold hm_action. destruct (mondayMap !! _); [case_bool_decide|];
    by intros [= <-].
Qed.

Lemma mh_action_quiet hubspotMap c item a :
  mh_action hubspotMap c item = Some a → act_type a ≠ error.
Proof.
  unfold mh_action. destruct (hubspotMap !! _); [case_bool_decide|];
    by intros [= <-].
Qed.

Lemma hm_action_prefix mondayMap c ticket a :
  hm_action mondayMap c ticket = Some a →
  act_prefix a = "Monday.com API error: ".
Proof.
  unfold hm_action. destruct (mondayMap !! _); [case_bool_decide|];
    by intros [= <-].
Qed.

Lemma mh_action_prefix hubspotMap c item a :
  mh_action hubspotMap c item = Some a →
  act_prefix a ∈
    ["Error creating HubSpot ticket: "; "Error updating HubSpot ticket: "].
Proof.
  unfold mh_action. destruct (hubspotMap !! _); [case_bool_decide|];
    intros [= <-]; cbn; in_list.
Qed.

Lemma hm_action_read mondayMap c ticket a :
  hm_action mondayMap c ticket = Some a →
  act_read a = property_read (act_call a).
Proof.
  unfold hm_action. destruct (mondayMap !! _); [case_bool_decide|];
    by intros [= <-].
Qed.

Lemma mh_action_read hubspotMap c item a :
  mh_action hubspotMap c item = Some a → act_read a = None.
Proof.
  unfold mh_action. destruct (hubspotMap !! _); [case_bool_decide|];
    by intros [= <-].
Qed.

(** How a HubSpot → Monday pass ends. *)
Lemma hm_pass_spec w :
  syncEnabled (config w) = true →
  ∃ cs ls,
    syncHubSpotToMonday env w = (Ret (), (syncHubSpotToMonday env w).2) ∧
    frame w (syncHubSpotToMonday env w).2
      (get_tickets w :: cs) (render info hm_start :: ls) ∧
    pass_outcome env (hm_snapshots env) hm_start fst
      (λ snap, hm_body env (build_map name snap.2)) hm_act hm_summary
      w (syncHubSpotToMonday env w).2
      (get_tickets w :: cs) (render info hm_start :: ls).
Proof.
  rewrite syncHubSpotToMonday_pass. apply pass_spec.
  - apply hm_snapshots_spec.
  - intros. apply hm_body_action.
  - intros. by apply hm_action_settings.
  - intros ????. apply hm_action_quiet.
Qed.

(** How a Monday → HubSpot pass ends. *)
Lemma mh_pass_spec w :
  syncEnabled (config w) = true →
  ∃ cs ls,
    syncMondayToHubSpot env w = (Ret (), (syncMondayToHubSpot env w).2) ∧
    frame w (syncMondayToHubSpot env w).2
      (items_query w :: cs) (render info mh_start :: ls) ∧
    pass_outcome env (mh_snapshots env) mh_start fst
      (λ snap, mh_body env
                 (build_map (λ ticket, subject (properties ticket)) snap.2))
      mh_act mh_summary
      w (syncMondayToHubSpot env w).2
      (items_query w :: cs) (render info mh_start :: ls).
Proof.
  rewrite syncMondayToHubSpot_pass. apply pass_spec.
  - apply mh_snapshots_spec.
  - intros. apply mh_body_action.
  - intros. by apply mh_action_settings.
  - intros ????. apply mh_action_quiet.
Qed.

(** A property of every fetch and of the request of every ticket of the
    source snapshot holds of every request of a HubSpot → Monday pass. *)
Lemma hm_pass_calls (P : RemoteCall → Prop) w :
  (∀ c, is_fetch c → P c) →
  (∀ tickets items w0 ticket a,
     hm_snapshots env w = (Ret (tickets, items), w0) → ticket ∈ tickets →
     hm_action (build_map name items) (config w) ticket = Some a →
     P (act_call a)) →
  ∃ cs,
    calls (syncHubSpotToMonday env w).2 = calls w ++ cs ∧ Forall P cs ∧
    settings (config (syncHubSpotToMonday env w).2) = settings (config w).
Proof.
  intros Hfetch Hact. rewrite syncHubSpotToMonday_pass.
  apply (pass_calls env (hm_snapshots env) hm_start get_tickets fst
           (λ snap, hm_body env (build_map name snap.2)) hm_act hm_summary
           (hm_snapshots_spec env) (λ snap, hm_body_action env _)
           (λ snap, hm_action_settings _) (λ snap, hm_action_quiet _) P w);
    [done|].
  intros [tickets items] w0 ticket a Hs Hin Ha. by eapply Hact.
Qed.

(** The same for a Monday → HubSpot pass. *)
Lemma mh_pass_calls (P : RemoteCall → Prop) w :
  (∀ c, is_fetch c → P c) →
  (∀ items tickets w0 item a,
     mh_snapshots env w = (Ret (items, tickets), w0) → item ∈ items →
     mh_action (build_map (λ ticket, subject (properties ticket)) tickets)
       (config w) item = Some a →
     P (act_call a)) →
  ∃ cs,
    calls (syncMondayToHubSpot env w).2 = calls w ++ cs ∧ Forall P cs ∧
    settings (config (syncMondayToHubSpot env w).2) = settings (config w).
Proof.
  intros Hfetch Hact. rewrite syncMondayToHubSpot_pass.
  apply (pass_calls env (mh_snapshots env) mh_start items_query fst
           (λ snap, mh_body env
              (build_map (λ ticket, subject (properties ticket)) snap.2))
           mh_act mh_summary
           (mh_snapshots_spec env) (λ snap, mh_body_action env _)
           (λ snap, mh_action_settings _) (λ snap, mh_action_quiet _) P w);
    [done|].
  intros [items tickets] w0 item a Hs Hin Ha. by eapply Hact.
Qed.

(** Neither pass throws. *)
Lemma sync_returns w :
  (syncHubSpotToMonday env w).1 = Ret () ∧
  (syncMondayToHubSpot env w).1 = Ret ().
Proof.
  destruct (syncEnabled (config w)) eqn:Hon.
  - destruct (hm_pass_spec w Hon) as (? & ? & -> & _).
    by destruct (mh_pass_spec w Hon) as (? & ? & -> & _).
  - rewrite syncHubSpotToMonday_pass, syncMondayToHubSpot_pass.
    by rewrite !pass_disabled.
Qed.

(** A property of every fetch and of the request of every action, under
    the settings of [w], holds of every request of a full sync. *)
Lemma performFullSync_calls (P : RemoteCall → Prop) w :
  (∀ c, is_fetch c → P c) →
  (∀ mondayMap cfg ticket a,
     settings cfg = settings (config w) →
     hm_action mondayMap cfg ticket = Some a → P (act_call a)) →
  (∀ hubspotMap cfg item a,
     settings cfg = settings (config w) →
     mh_action hubspotMap cfg item = Some a → P (act_call a)) →
  ∃ cs,
    calls (performFullSync env w).2 = calls w ++ cs ∧ Forall P cs ∧
    settings (config (performFullSync env w).2) = settings (config w).
Proof.
  intros Hfetch Hhm Hmh. unfold performFullSync, bind.
  pose proof (proj1 (sync_returns w)) as Hret.
  destruct (hm_pass_calls P w Hfetch) as (cs & Hcs & HP & Hset).
  { intros tickets items w0 ticket a _ _. by apply Hhm. }
  destruct (syncHubSpotToMonday env w) as [o w1]. cbn in Hret, Hcs, Hset.
  subst o.
  destruct (mh_pass_calls P w1 Hfetch) as (cs' & Hcs' & HP' & Hset').
  { intros items tickets w0 item a _ _. by apply Hmh. }
  exists (cs ++ cs'). rewrite Hcs', Hcs, app_assoc, Forall_app.
  split_and!; [done..|]. by rewrite Hset'.
Qed.

End Directions.

(** ** A pass whose [try] block returns *)

(** The number of records of [l] for which the loop creates a record, and
    the number for which it updates one. *)
Definition tally {A} (act : Config → A → option Action) (c : Config)
    (l : list A) : nat * nat :=
  (length (filter (λ x, act_created <$> act c x = Some true) l),
   length (filter (λ x, act_created <$> act c x = Some false) l)).

Section Completed.

Context (env : Env) {S A : Type}.
Context (snapshots : M S) (start : string) (first : World → RemoteCall).
Context (xs : S → list A) (body : S → A → nat * nat → M (nat * nat)).
Context (act : S → Config → A → option Action).
Context (summary : nat * nat → string).

Hypothesis snapshots_ok : ∀ w, snapshots_spec env snapshots start first w.
Hypothesis body_act :
  ∀ snap x s w, body snap x s w = run_action env (act snap (config w) x) s w.
Hypothesis act_settings :
  ∀ snap c c' x, settings c = settings c' → act snap c x = act snap c' x.
Hypothesis act_quiet :
  ∀ snap c x a, act snap c x = Some a → act_type a ≠ error.

Lemma tally_settings snap c c' l :
  settings c = settings c' → tally (act snap) c l = tally (act snap) c' l.
Proof.
  intros Hc. unfold tally.
  by rewrite (list_filter_iff _ (λ x, act_created <$> act snap c' x = Some true)),
    (list_filter_iff (λ x, act_created <$> act snap c x = Some false)
       (λ x, act_created <$> act snap c' x = Some false))
    by (intros x; by rewrite (act_settings snap c c' x Hc)).
Qed.

(** The counters after a loop that returns. *)
Lemma loop_tally snap l s w s' w' :
  for_of l (body snap) s w = (Ret s', w') →
  s' = (s.1 + (tally (act snap) (config w) l).1,
        s.2 + (tally (act snap) (config w) l).2).
Proof.
  revert s w. induction l as [|x l IH]; intros s w H.
  - cbn in H. injection H as <- _. destruct s. cbn. f_equal; lia.
  - cbn in H. unfold bind in H. rewrite body_act in H.
    unfold tally. rewrite !filter_cons.
    destruct (act snap (config w) x) as [a|] eqn:Ha.
    + rewrite run_action_eq in H.
      destruct (mutation_reply env _) as [msg|data]; [done|].
      destruct (reply_error (act_read a) data); [done|].
      apply IH in H. rewrite H.
      rewrite (tally_settings snap _ (config w)).
      2:{ apply (ext_settings _ _ [act_call a]
                   [render (act_type a) (act_message a)]).
          eapply (extends_trans _ _ _ [_] [] [] [_]);
            [apply extends_issue|apply logged_extends]. }
      unfold tally, bump. cbn. destruct (act_created a); cbn.
      * rewrite decide_True, decide_False by done. cbn. f_equal; lia.
      * rewrite decide_False, decide_True by done. cbn. f_equal; lia.
    + cbn in H. apply IH in H. rewrite H. unfold tally. cbn.
      by rewrite !decide_False by done.
Qed.

(** A [try] block that returns: the requests after the snapshots are those
    of the plan, the last line logged is the summary with the counts of the
    plan, and [lastSync] is the reading of the clock that follows. *)
Lemma pass_try_returns w snap w0 w1 :
  snapshots w = (Ret snap, w0) →
  pass_try env snapshots xs body summary w = (Ret (), w1) →
  calls w1 = calls w0 ++ plan (act snap) (config w) (xs snap) ∧
  last (console w1) =
    Some (render success
            (summary (tally (act snap) (config w) (xs snap)))) ∧
  (∃ n, dates w1 = Datatypes.S n ∧ lastSync (config w1) = Some (clock env n)).
Proof.
  intros Hs Htry. unfold pass_try, bind at 1 in Htry. rewrite Hs in Htry.
  destruct (snapshots_ok w) as (cs0 & ls0 & Hext & _ & _).
  rewrite Hs in Hext. cbn in Hext.
  pose proof (ext_settings _ _ _ _ Hext) as Hset.
  destruct (loop_spec env (body snap) (act snap) (body_act snap)
              (act_settings snap) (act_quiet snap) (xs snap) (0, 0) w0)
    as (cs1 & ls1 & Hext1 & Hout1).
  unfold bind at 1 in Htry.
  destruct (for_of (xs snap) (body snap) (0, 0) w0) as [[s|msg] wl] eqn:Hloop;
    [|done].
  cbn in Hext1, Hout1. destruct Hout1 as [-> _].
  apply loop_tally in Hloop.
  rewrite (tally_settings snap _ _ _ Hset) in Hloop.
  rewrite (plan_settings _ (act_settings snap) _ _ _ Hset) in Hext1.
  unfold bind at 1 in Htry. rewrite logSync_eq in Htry.
  cbv beta iota in Htry. injection Htry as <-. split_and!.
  - cbn. apply Hext1.
  - cbn. by rewrite last_snoc, Hloop.
  - by eexists.
Qed.

(** [lastSync] after a pass: the reading of the clock that follows the
    summary when the [try] block returns, what it was when it throws. *)
Lemma pass_lastSync w :
  syncEnabled (config w) = true →
  let w' := (pass env snapshots xs body summary w).2 in
  match (pass_try env snapshots xs body summary w).1 with
  | Ret _ =>
      ∃ n, dates w' = Datatypes.S n ∧ lastSync (config w') = Some (clock env n)
  | Throw _ => lastSync (config w') = lastSync (config w)
  end.
Proof.
  intros Hon w'.
  destruct (pass_spec env snapshots start first xs body act summary
              snapshots_ok body_act act_settings act_quiet w Hon)
    as (cs & ls & _ & _ & Hout).
  fold w' in Hout.
  destruct (pass_try env snapshots xs body summary w) as [[[]|msg] w1] eqn:Htry;
    cbn.
  - assert (w' = w1) as ->.
    { subst w'. by rewrite (pass_enabled _ _ _ _ _ w Hon), Htry. }
    destruct (snapshots w) as [[snap|msg] w0] eqn:Hs.
    + by destruct (pass_try_returns w snap w0 w1 Hs Htry) as (_ & _ & H).
    + unfold pass_try, bind at 1 in Htry. by rewrite Hs in Htry.
  - destruct Hout as [???? _ _ _ _ _ _ HL
                     |??????????? _ _ _ _ _ _ _ _ _ _ HL
                     |??? _ Hret _ _ _]; [done..|].
    by rewrite Htry in Hret.
Qed.

End Completed.

Section Both.

Context (env : Env).

Lemma hm_try_returns w tickets items w0 w1 :
  hm_snapshots env w = (Ret (tickets, items), w0) →
  hm_try env w = (Ret (), w1) →
  calls w1 =
    calls w0 ++ plan (hm_action (build_map name items)) (config w) tickets ∧
  last (console w1) =
    Some (render success
            (hm_summary
               (tally (hm_action (build_map name items)) (config w) tickets))) ∧
  (∃ n, dates w1 = S n ∧ lastSync (config w1) = Some (clock env n)).
Proof.
  intros Hs Htry. rewrite hm_try_pass in Htry.
  apply (pass_try_returns env (hm_snapshots env) hm_start get_tickets fst _
           hm_act hm_summary (hm_snapshots_spec env)
           (λ snap, hm_body_action env _) (λ snap, hm_action_settings _)
           (λ snap, hm_action_quiet _) w (tickets, items) w0 w1 Hs Htry).
Qed.

Lemma mh_try_returns w items tickets w0 w1 :
  mh_snapshots env w = (Ret (items, tickets), w0) →
  mh_try env w = (Ret (), w1) →
  calls w1 =
    calls w0
    ++ plan (mh_action (build_map (λ ticket, subject (properties ticket))
                          tickets)) (config w) items ∧
  last (console w1) =
    Some (render success
            (mh_summary
               (tally (mh_action
                         (build_map (λ ticket, subject (properties ticket))
                            tickets)) (config w) items))) ∧
  (∃ n, dates w1 = S n ∧ lastSync (config w1) = Some (clock env n)).
Proof.
  intros Hs Htry. rewrite mh_try_pass in Htry.
  apply (pass_try_returns env (mh_snapshots env) mh_start items_query fst _
           mh_act mh_summary (mh_snapshots_spec env)
           (λ snap, mh_body_action env _) (λ snap, mh_action_settings _)
           (λ snap, mh_action_quiet _) w (items, tickets) w0 w1 Hs Htry).
Qed.

Lemma hm_snapshots_calls w snap w0 :
  hm_snapshots env w = (Ret snap, w0) →
  calls w0 = calls w ++ [get_tickets w; items_query w].
Proof.
  rewrite hm_snapshots_eq. cbv zeta.
  destruct (tickets_reply env _); [done|].
  destruct (boards_reply env _) as [msg|data]; [done|].
  destruct (boards_error data); [done|].
  intros [= _ <-]. unfold issue, logged. cbn. by rewrite <- app_assoc.
Qed.

Lemma mh_snapshots_calls w snap w0 :
  mh_snapshots env w = (Ret snap, w0) →
  calls w0 = calls w ++ [items_query w; get_tickets w].
Proof.
  rewrite mh_snapshots_eq. cbv zeta.
  destruct (boards_reply env _) as [msg|data]; [done|].
  destruct (boards_error data); [done|].
  destruct (tickets_reply env _); [done|].
  intros [= _ <-]. unfold issue, logged. cbn. by rewrite <- app_assoc.
Qed.

Lemma sync_enabled_returns w w1 :
  syncEnabled (config w) = true →
  (hm_try env w = (Ret (), w1) → syncHubSpotToMonday env w = (Ret (), w1)) ∧
  (mh_try env w = (Ret (), w1) → syncMondayToHubSpot env w = (Ret (), w1)).
Proof.
  intros Hon. unfold syncHubSpotToMonday, syncMondayToHubSpot, bind, get_config,
    try_catch. rewrite Hon. cbn. by split; intros ->.
Qed.

End Both.

(** ** The update field set *)

Lemma Object_keys_put_if c k v o :
  Object_keys (put_if c k v o) = Object_keys o ++ (if c then [k] else []).
Proof.
  unfold put_if, Object_keys. destruct c; [|by rewrite app_nil_r].
  by rewrite fmap_app.
Qed.

Lemma Object_keys_updateData platform r data :
  Object_keys (updateData platform r data) =
    (if pulls (rule_title r) platform then ["subject"] else []) ++
    (if pulls (rule_description r) platform then ["content"] else []) ++
    (if pulls (rule_status r) platform then ["status"] else []) ++
    (if pulls (rule_priority r) platform then ["priority"] else []).
Proof.
  unfold updateData. rewrite !Object_keys_put_if. cbn.
  by rewrite <- !app_assoc.
Qed.

Lemma pulls_spec rule platform :
  pulls rule platform = true ↔ rule = platform ∨ rule = "both".
Proof.
  unfold pulls. rewrite orb_true_iff, !bool_decide_eq_true. done.
Qed.

Lemma key_in_updateData platform r data f :
  key_of f ∈ Object_keys (updateData platform r data) ↔
  pulls (rule_of f r) platform = true.
Proof.
  rewrite Object_keys_updateData.
  destruct f; cbn;
    destruct (pulls (rule_title r) platform),
             (pulls (rule_description r) platform),
             (pulls (rule_status r) platform),
             (pulls (rule_priority r) platform); cbn;
    rewrite <- (bool_decide_eq_true (_ ∈ _)); by vm_compute.
Qed.

(** The logical fields that the rules give to the source [platform] of a
    direction: those whose rule names it, or is "both". *)
Definition field_set (platform : string) (r : FieldRules)
    : list LogicalField :=
  filter (λ f, rule_of f r = platform ∨ rule_of f r = "both")
    [Title; Description; Status; Priority].

(** The object that has, of [data], the keys of the fields [fields]. *)
Definition pick (fields : list LogicalField) (data : JSObj) : JSObj :=
  (λ f, (key_of f, obj_get data (key_of f))) <$> fields.

Lemma pulls_decide rule platform :
  pulls rule platform = bool_decide (rule = platform ∨ rule = "both").
Proof.
  unfold pulls.
  destruct (decide (rule = platform)) as [H1|H1],
    (decide (rule = "both")) as [H2|H2];
    rewrite ?(bool_decide_eq_true_2 _ H1), ?(bool_decide_eq_false_2 _ H1),
      ?(bool_decide_eq_true_2 _ H2), ?(bool_decide_eq_false_2 _ H2); cbn;
    symmetry;
    first [apply bool_decide_eq_true_2; tauto
          |apply bool_decide_eq_false_2; tauto].
Qed.

(** [updateData] is the source record cut down to the field set. *)
Lemma updateData_pick platform r data :
  updateData platform r data = pick (field_set platform r) data.
Proof.
  unfold updateData, field_set, pick, put_if.
  rewrite !filter_cons, filter_nil, !pulls_decide. cbn [rule_of].
  destruct (decide (rule_title r = platform ∨ rule_title r = "both")) as [H1|H1],
    (decide (rule_description r = platform ∨ rule_description r = "both"))
      as [H2|H2],
    (decide (rule_status r = platform ∨ rule_status r = "both")) as [H3|H3],
    (decide (rule_priority r = platform ∨ rule_priority r = "both")) as [H4|H4];
    rewrite ?(bool_decide_eq_true_2 _ H1), ?(bool_decide_eq_false_2 _ H1),
      ?(bool_decide_eq_true_2 _ H2), ?(bool_decide_eq_false_2 _ H2),
      ?(bool_decide_eq_true_2 _ H3), ?(bool_decide_eq_false_2 _ H3),
      ?(bool_decide_eq_true_2 _ H4), ?(bool_decide_eq_false_2 _ H4);
    reflexivity.
Qed.

Lemma Object_keys_pick fields data :
  Object_keys (pick fields data) = key_of <$> fields.
Proof. unfold Object_keys, pick. by rewrite <- list_fmap_compose. Qed.

(** C1: the update of a matched record is built from the field set of the
    direction, and from nothing else. The field set of a direction holds a
    logical field exactly when its rule names the source platform of the
    direction or is "both". For a matched ticket, the body of the
    HubSpot → Monday loop compares the rules with "hubspot": with an empty
    field set it does nothing, otherwise it hands [updateMondayItem] the
    ticket cut down to the field set, and logs the keys of the field set;
    the body of the Monday → HubSpot loop does the same with "monday" and
    [updateHubSpotTicket]. With the status rule naming the target platform,
    status is not in the field set of that direction. *)
Theorem C1_update_field_set (env : Env) :
  (∀ platform r f,
     f ∈ field_set platform r ↔
     rule_of f r = platform ∨ rule_of f r = "both") ∧
  (∀ mondayMap ticket existingItem s w,
     mondayMap !! subject (properties ticket) = Some existingItem →
     let fields := field_set "hubspot" (fieldRules (config w)) in
     hm_body env mondayMap ticket s w =
       match fields with
       | [] => (Ret s, w)
       | _ =>
           (updateMondayItem env (item_id existingItem)
              (pick fields (ticketData ticket)) ;;;
            logSync env
              ("Updated Monday item: " +:+ to_str (subject (properties ticket))
               +:+ " (" +:+ join ", " (key_of <$> fields) +:+ ")") info ;;;
            ret (s.1, S s.2)) w
       end) ∧
  (∀ hubspotMap item existingTicket s w,
     hubspotMap !! name item = Some existingTicket →
     let fields := field_set "monday" (fieldRules (config w)) in
     mh_body env hubspotMap item s w =
       match fields with
       | [] => (Ret s, w)
       | _ =>
           (updateHubSpotTicket env (ticket_id existingTicket)
              (pick fields (itemData (fieldMapping (config w)) item)) ;;;
            logSync env
              ("Updated HubSpot ticket: " +:+ to_str (name item)
               +:+ " (" +:+ join ", " (key_of <$> fields) +:+ ")") info ;;;
            ret (s.1, S s.2)) w
       end) ∧
  (∀ r, rule_status r = "monday" → Status ∉ field_set "hubspot" r) ∧
  (∀ r, rule_status r = "hubspot" → Status ∉ field_set "monday" r).
Proof.
  assert (∀ platform r f,
            f ∈ field_set platform r ↔
            rule_of f r = platform ∨ rule_of f r = "both") as Hset.
  { intros platform r f. unfold field_set. rewrite list_elem_of_filter.
    split; [tauto|]. intros H. split; [done|]. destruct f; in_list. }
  split_and!; [done| | |..].
  - intros mondayMap ticket existingItem s w Hm. cbv zeta.
    remember (field_set "hubspot" (fieldRules (config w))) as fields eqn:Hf.
    unfold hm_body. cbn. rewrite Hm. unfold bind at 1, get_config at 1.
    rewrite updateData_pick, Object_keys_pick, <- Hf.
    destruct fields; [done|]. by rewrite bool_decide_eq_true_2 by (cbn; lia).
  - intros hubspotMap item existingTicket s w Hm. cbv zeta.
    remember (field_set "monday" (fieldRules (config w))) as fields eqn:Hf.
    unfold mh_body. unfold bind at 1, get_config at 1. cbn. rewrite Hm.
    rewrite updateData_pick, Object_keys_pick, <- Hf.
    destruct fields; [done|]. by rewrite bool_decide_eq_true_2 by (cbn; lia).
  - intros r Hr. rewrite Hset. cbn. rewrite Hr. by intros [|].
  - intros r Hr. rewrite Hset. cbn. rewrite Hr. by intros [|].
Qed.

Lemma C1_witness :
  let env := Sim.remote [Scenario.bug2] [Scenario.item_bug2] Sim.never in
  hm_body env (build_map name [Scenario.item_bug2]) Scenario.bug2 (0, 0)
    Sim.enabled_world =
  (updateMondayItem env "8"
     [("subject", VStr "Bug 2"); ("content", VStr "slow")] ;;;
   logSync env "Updated Monday item: Bug 2 (subject, content)" info ;;;
   ret (0, 1)) Sim.enabled_world.
Proof.
  intros env.
  apply (proj1 (proj2 (C1_update_field_set env))
           (build_map name [Scenario.item_bug2]) Scenario.bug2
           Scenario.item_bug2 (0, 0) Sim.enabled_world).
  reflexivity.
Defined.

(** ** The matcher index *)

Lemma build_map_snoc {A} (key : A → JSVal) xs x :
  build_map key (xs ++ [x]) = <[key x := x]> (build_map key xs).
Proof. unfold build_map. by rewrite foldl_app. Qed.

Lemma build_map_lookup {A} (key : A → JSVal) (xs : list A) (k : JSVal) :
  build_map key xs !! k = last (filter (λ x, key x = k) xs).
Proof.
  induction xs as [|x xs IH] using rev_ind; [done|].
  rewrite build_map_snoc, filter_app, lookup_insert, filter_cons, filter_nil.
  repeat case_decide; try congruence.
  - by rewrite last_snoc.
  - by rewrite app_nil_r.
Qed.

Lemma build_map_Some_elem {A} (key : A → JSVal) (xs : list A) k x :
  build_map key xs !! k = Some x → x ∈ xs ∧ key x = k.
Proof.
  rewrite build_map_lookup. intros Hx. apply last_Some in Hx as [l Hl].
  assert (x ∈ filter (λ x, key x = k) xs) as Hin.
  { rewrite Hl. apply elem_of_app. right. by left. }
  by apply list_elem_of_filter in Hin as [? ?].
Qed.

Lemma build_map_is_Some {A} (key : A → JSVal) (xs : list A) k x :
  x ∈ xs → key x = k → is_Some (build_map key xs !! k).
Proof.
  intros Hx Hk. rewrite build_map_lookup. apply last_is_Some.
  intros Hnil.
  assert (x ∈ filter (λ x, key x = k) xs) as Hin
    by by apply list_elem_of_filter.
  rewrite Hnil in Hin. by apply elem_of_nil in Hin.
Qed.

(** The index that holds, for the key [k], the last record of [xs] with that
    key, and nothing else. *)
Definition later_only {A} (key : A → JSVal) (xs : list A) (k : JSVal)
    : gmap JSVal A :=
  from_option (λ x, {[k := x]}) ∅ (last (filter (λ x, key x = k) xs)).

Lemma later_only_lookup {A} (key : A → JSVal) (xs : list A) (k : JSVal) :
  later_only key xs k !! k = build_map key xs !! k.
Proof.
  rewrite build_map_lookup. unfold later_only.
  destruct (last (filter (λ x, key x = k) xs)) as [x|]; cbn.
  - by rewrite lookup_singleton_eq.
  - apply lookup_empty.
Qed.

Lemma hm_body_later_only env items ticket s w :
  hm_body env (build_map name items) ticket s w =
  hm_body env (later_only name items (subject (properties ticket))) ticket
    s w.
Proof.
  unfold hm_body. cbn [ticketData obj_get]. cbn.
  by rewrite later_only_lookup.
Qed.

Lemma mh_body_later_only env tickets item s w :
  mh_body env (build_map (λ ticket, subject (properties ticket)) tickets)
    item s w =
  mh_body env
    (later_only (λ ticket, subject (properties ticket)) tickets (name item))
    item s w.
Proof.
  unfold mh_body, bind, get_config. cbn.
  by rewrite later_only_lookup.
Qed.

Lemma for_of_ext {A S} (xs : list A) (body body' : A → S → M S) s w :
  (∀ x s w, body x s w = body' x s w) →
  for_of xs body s w = for_of xs body' s w.
Proof.
  intros Hb. revert s w. induction xs as [|x xs IH]; intros s w; [done|].
  cbn. unfold bind. rewrite Hb. destruct (body' x s w) as [[s'|msg] w']; [|done].
  apply IH.
Qed.

Lemma pass_ext env {S A} (snapshots : M S) (xs : S → list A)
    (body body' : S → A → nat * nat → M (nat * nat)) summary w :
  (∀ snap x s w, body snap x s w = body' snap x s w) →
  pass env snapshots xs body summary w = pass env snapshots xs body' summary w.
Proof.
  intros Hb. unfold pass, pass_try, try_catch, bind, get_config.
  destruct (negb (syncEnabled (config w))); [done|].
  destruct (snapshots w) as [[snap|msg] w0]; [|done].
  by rewrite (for_of_ext _ (body snap) (body' snap)).
Qed.

(** What the index of the snapshots lets a HubSpot → Monday pass request:
    an update goes to the last item of the target snapshot that is named as
    a ticket of the source snapshot is, a create is for a ticket whose
    subject no item of the target snapshot has. *)
Definition hm_matches_last (tickets : list Ticket) (items : list Item)
    (c : RemoteCall) : Prop :=
  match c with
  | MondayCreateItem _ _ itemName _ =>
      ∃ ticket,
        ticket ∈ tickets ∧ itemName = subject (properties ticket) ∧
        filter (λ item, name item = itemName) items = []
  | MondayChangeColumns _ _ itemId _ =>
      ∃ ticket item,
        ticket ∈ tickets ∧
        last (filter (λ item, name item = subject (properties ticket)) items)
          = Some item ∧
        item_id item = itemId
  | _ => True
  end.

(** The same for a Monday → HubSpot pass. *)
Definition mh_matches_last (items : list Item) (tickets : list Ticket)
    (c : RemoteCall) : Prop :=
  match c with
  | HubSpotPostTicket _ props =>
      ∃ item,
        item ∈ items ∧ obj_get props "subject" = name item ∧
        filter (λ ticket, subject (properties ticket) = name item) tickets
          = []
  | HubSpotPatchTicket _ ticketId _ =>
      ∃ item ticket,
        item ∈ items ∧
        last (filter (λ ticket, subject (properties ticket) = name item)
                tickets) = Some ticket ∧
        ticket_id ticket = ticketId
  | _ => True
  end.

Lemma last_None_nil {A} (l : list A) : last l = None → l = [].
Proof.
  destruct l as [|x l] using rev_ind; [done|]. by rewrite last_snoc.
Qed.

(** C4: the index built from the ordered target snapshot maps an identity
    key to the last record of the snapshot that has exactly that key (for
    both passes), so with two records of equal key the lookup gives the later
    one, whatever stands between and before them; keys are compared by
    equality of the values, nothing normalised. Every lookup of a pass is a
    lookup in that index: each pass is the pass whose loop body is given,
    for its record, the index that holds the last target record of that key
    and nothing else; and whether the pass completes or not, each update it
    requests goes to the last target record of the snapshot with the key of
    a source record, each create is for a source record whose key no target
    record has. *)
Theorem C4_index_last_write_wins (env : Env) :
  (∀ (mondayItems : list Item) (k : JSVal),
     build_map name mondayItems !! k =
       last (filter (λ item, name item = k) mondayItems)) ∧
  (∀ (hubspotTickets : list Ticket) (k : JSVal),
     build_map (λ ticket, subject (properties ticket)) hubspotTickets !! k =
       last (filter (λ ticket, subject (properties ticket) = k)
               hubspotTickets)) ∧
  (∀ (l1 l2 l3 : list Item) (a b : Item),
     name a = name b →
     Forall (λ item, name item ≠ name b) l3 →
     build_map name (l1 ++ a :: l2 ++ b :: l3) !! name a = Some b) ∧
  (∀ w,
     syncHubSpotToMonday env w =
       pass env (hm_snapshots env) fst
         (λ snap ticket,
            hm_body env
              (later_only name snap.2 (subject (properties ticket))) ticket)
         hm_summary w) ∧
  (∀ w,
     syncMondayToHubSpot env w =
       pass env (mh_snapshots env) fst
         (λ snap item,
            mh_body env
              (later_only (λ ticket, subject (properties ticket)) snap.2
                 (name item)) item)
         mh_summary w) ∧
  (∀ w w0 tickets items,
     hm_snapshots env w = (Ret (tickets, items), w0) →
     ∃ cs,
       calls (syncHubSpotToMonday env w).2 = calls w ++ cs ∧
       Forall (hm_matches_last tickets items) cs) ∧
  (∀ w w0 items tickets,
     mh_snapshots env w = (Ret (items, tickets), w0) →
     ∃ cs,
       calls (syncMondayToHubSpot env w).2 = calls w ++ cs ∧
       Forall (mh_matches_last items tickets) cs).
Proof.
  split_and!.
  - intros. apply build_map_lookup.
  - intros. apply build_map_lookup.
  - intros l1 l2 l3 a b Hab Hl3. rewrite build_map_lookup, Hab.
    rewrite filter_app, filter_cons, filter_app, (filter_cons _ b).
    rewrite decide_True by done.
    assert (filter (λ item, name item = name b) l3 = []) as ->.
    { induction Hl3 as [|x l Hx _ IH]; [done|].
      by rewrite filter_cons, decide_False. }
    destruct (decide (name b = name b)); [|done].
    by rewrite app_comm_cons, app_assoc, last_snoc.
  - intros w. rewrite syncHubSpotToMonday_pass. apply pass_ext.
    intros snap ticket s v. apply hm_body_later_only.
  - intros w. rewrite syncMondayToHubSpot_pass. apply pass_ext.
    intros snap item s v. apply mh_body_later_only.
  - intros w w0 tickets items Hs.
    destruct (hm_pass_calls env (hm_matches_last tickets items) w)
      as (cs & Hcs & HP & _); [by intros []| |by exists cs].
    intros tickets' items' v ticket a Hs' Hin Ha. rewrite Hs in Hs'.
    injection Hs' as <- <- <-. unfold hm_action in Ha.
    rewrite build_map_lookup in Ha.
    destruct (last (filter (λ item, name item = subject (properties ticket))
                      items)) as [item|] eqn:Hm.
    + case_bool_decide; [|done]. injection Ha as <-. cbn.
      by exists ticket, item.
    + injection Ha as <-. cbn. exists ticket.
      split_and!; [done..|]. by apply last_None_nil.
  - intros w w0 items tickets Hs.
    destruct (mh_pass_calls env (mh_matches_last items tickets) w)
      as (cs & Hcs & HP & _); [by intros []| |by exists cs].
    intros items' tickets' v item a Hs' Hin Ha. rewrite Hs in Hs'.
    injection Hs' as <- <- <-. unfold mh_action in Ha.
    rewrite build_map_lookup in Ha.
    destruct (last (filter (λ ticket, subject (properties ticket) = name item)
                      tickets)) as [ticket|] eqn:Hm.
    + case_bool_decide; [|done]. injection Ha as <-. cbn.
      by exists item, ticket.
    + injection Ha as <-. cbn. exists item.
      split_and!; [done..|]. by apply last_None_nil.
Qed.

Lemma C4_witness :
  let items :=
    [Sim.item "7" "Bug 2" []; Scenario.task; Sim.item "8" "Bug 2" []] in
  let env := Sim.remote [Scenario.bug2] items Sim.never in
  build_map name (Sim.item "7" "Bug 2" [] :: Scenario.task
                  :: Sim.item "8" "Bug 2" [] :: [Scenario.chore])
    !! VStr "Bug 2" = Some (Sim.item "8" "Bug 2" []) ∧
  ∃ cs,
    calls (syncHubSpotToMonday env Sim.enabled_world).2 =
      calls Sim.enabled_world ++ cs ∧
    Forall (hm_matches_last [Scenario.bug2] items) cs.
Proof.
  intros items env. split.
  - apply (proj1 (proj2 (proj2 (C4_index_last_write_wins env))) []
             [Scenario.task] [Scenario.chore]
             (Sim.item "7" "Bug 2" []) (Sim.item "8" "Bug 2" [])).
    + reflexivity.
    + by repeat constructor.
  - apply (proj1 (proj2 (proj2 (proj2 (proj2 (proj2
             (C4_index_last_write_wins env))))))
             Sim.enabled_world (hm_snapshots env Sim.enabled_world).2
             [Scenario.bug2] items).
    by vm_compute.
Defined.

(** ** A failed snapshot fetch *)

(** C5: when a snapshot fetch of the HubSpot → Monday pass throws, that pass
    ends there and returns normally: the failure is logged as an error, only
    fetches were requested, [lastSync] is not updated and the settings are
    untouched; the full sync goes on with the Monday → HubSpot pass, run from
    that world with sync still enabled, which logs its start and issues its
    own first fetch, and the full sync returns without throwing. A failed
    snapshot fetch of the Monday → HubSpot pass ends that pass the same
    way. *)
Theorem C5_fetch_failure_aborts_one_pass (env : Env) (w w0 : World)
    (msg : string) :
  syncEnabled (config w) = true →
  hm_snapshots env w = (Throw msg, w0) →
  let w' := logged env ("Sync failed: " +:+ msg) error w0 in
  syncHubSpotToMonday env w = (Ret (), w') ∧
  (∃ cs, calls w' = calls w ++ cs ∧ Forall is_fetch cs) ∧
  last (console w') = Some (render error ("Sync failed: " +:+ msg)) ∧
  lastSync (config w') = lastSync (config w) ∧
  settings (config w') = settings (config w) ∧
  timers w' = timers w ∧
  performFullSync env w = syncMondayToHubSpot env w' ∧
  (∃ cs ls,
     calls (performFullSync env w).2 = calls w' ++ items_query w' :: cs ∧
     console (performFullSync env w).2 =
       console w' ++ render info mh_start :: ls) ∧
  (performFullSync env w).1 = Ret () ∧
  (∀ v v0 msg',
     syncEnabled (config v) = true →
     mh_snapshots env v = (Throw msg', v0) →
     syncMondayToHubSpot env v =
       (Ret (), logged env ("Sync failed: " +:+ msg') error v0) ∧
     ∃ cs, calls (logged env ("Sync failed: " +:+ msg') error v0)
             = calls v ++ cs ∧ Forall is_fetch cs).
Proof.
  intros Hon Hs w'.
  destruct (pass_fetch_failed env (hm_snapshots env) hm_start get_tickets fst
              (λ snap, hm_body env (build_map name snap.2)) hm_summary
              (hm_snapshots_spec env) w msg w0 Hon Hs)
    as (Hpass & cs & pfx & Hext & Hfetch).
  fold w' in Hpass, Hext. rewrite <- syncHubSpotToMonday_pass in Hpass.
  assert (performFullSync env w = syncMondayToHubSpot env w') as Hfull.
  { unfold performFullSync, bind. by rewrite Hpass. }
  assert (syncEnabled (config w') = true) as Hon'.
  { pose proof (ext_settings _ _ _ _ Hext) as Hset. unfold settings in Hset.
    injection Hset as _ _ _ Hen _ _. exact (eq_trans Hen Hon). }
  split_and!; try done.
  - eauto using ext_calls.
  - rewrite (ext_console _ _ _ _ Hext), app_comm_cons, !app_assoc.
    apply last_snoc.
  - apply (ext_lastSync _ _ _ _ Hext).
  - apply (ext_settings _ _ _ _ Hext).
  - apply (ext_timers _ _ _ _ Hext).
  - rewrite Hfull. destruct (mh_pass_spec env w' Hon') as (cs' & ls' & _ & Hfr & _).
    exists cs', ls'. split; [apply (frame_calls _ _ _ _ Hfr)|].
    apply (frame_console _ _ _ _ Hfr).
  - rewrite Hfull. apply sync_returns.
  - intros v v0 msg' Hv Hs'.
    destruct (pass_fetch_failed env (mh_snapshots env) mh_start items_query fst
                (λ snap, mh_body env
                   (build_map (λ ticket, subject (properties ticket)) snap.2))
                mh_summary (mh_snapshots_spec env) v msg' v0 Hv Hs')
      as (Hpass' & cs' & pfx' & Hext' & Hfetch').
    split; [done|]. eauto using ext_calls.
Qed.

Lemma C5_witness :
  let env := Sim.remote [Scenario.bug1] [] Scenario.hubspot_down in
  performFullSync env Sim.enabled_world =
    syncMondayToHubSpot env
      (logged env "Sync failed: ECONNREFUSED" error
         (hm_snapshots env Sim.enabled_world).2).
Proof.
  intros env.
  pose proof (C5_fetch_failure_aborts_one_pass env Sim.enabled_world
                (hm_snapshots env Sim.enabled_world).2 "ECONNREFUSED") as H.
  destruct H as (_ & _ & _ & _ & _ & _ & H & _); [reflexivity..|exact H].
Defined.

(** ** A failed request inside the loop *)

Lemma hm_action_fails env mondayMap c ticket a h msg :
  hm_action mondayMap c ticket = Some a →
  fails_with env (h ++ [act_call a]) msg ↔
  mutation_reply env (h ++ [act_call a]) = inl msg ∨
  ∃ data, mutation_reply env (h ++ [act_call a]) = inr data ∧
          reply_error (act_read a) data = Some msg.
Proof.
  unfold hm_action, fails_with, rejected, unreadable_reply.
  rewrite last_snoc.
  destruct (mondayMap !! _); [case_bool_decide|]; intros [= <-]; cbn;
    (split;
     [intros [?|(data & p & ? & [= <-] & ?)]; [by left|right; by exists data]
     |intros [?|(data & ? & ?)]; [by left|right; by eexists data, _]]).
Qed.

(** C2 (as the code has it): a request for a record makes the loop body
    throw exactly when the platform rejects it or, for a Monday write, when
    the reply has no data to read the result from. When it does, with the
    records before it applied, the loop is left and the pass logs
    "Sync failed" and returns: the trace of requests ends with the failed
    request, so no later record is attempted and nothing already applied is
    undone; the outcome is the same whatever records follow, no summary is
    logged and [lastSync] keeps its value. The remote helper logs its own
    error line before "Sync failed" when the request was rejected, and
    nothing when the reply could not be read. This holds for both passes; a
    HubSpot write throws only when rejected. *)
Theorem C2_failed_request_ends_pass (env : Env) :
  (∀ mondayMap ticket s w msg,
     (hm_body env mondayMap ticket s w).1 = Throw msg ↔
     ∃ a, hm_action mondayMap (config w) ticket = Some a ∧
          fails_with env (calls w ++ [act_call a]) msg) ∧
  (∀ hubspotMap item s w msg,
     (mh_body env hubspotMap item s w).1 = Throw msg ↔
     ∃ a, mh_action hubspotMap (config w) item = Some a ∧
          mutation_reply env (calls w ++ [act_call a]) = inl msg) ∧
  (∀ w w0 w1 w2 pre ticket post mondayItems s1 msg,
     syncEnabled (config w) = true →
     hm_snapshots env w = (Ret (pre ++ ticket :: post, mondayItems), w0) →
     for_of pre (hm_body env (build_map name mondayItems)) (0, 0) w0
       = (Ret s1, w1) →
     hm_body env (build_map name mondayItems) ticket s1 w1 = (Throw msg, w2) →
     let w' := logged env ("Sync failed: " +:+ msg) error w2 in
     syncHubSpotToMonday env w = (Ret (), w') ∧
     (∃ c, calls w' = calls w1 ++ [c] ∧
           ((mutation_reply env (calls w1 ++ [c]) = inl msg ∧
             console w' = console w1 ++
               [render error ("Monday.com API error: " +:+ msg);
                render error ("Sync failed: " +:+ msg)]) ∨
            (∃ data p,
               mutation_reply env (calls w1 ++ [c]) = inr data ∧
               property_read c = Some p ∧ unreadable data p = Some msg ∧
               console w' = console w1 ++
                 [render error ("Sync failed: " +:+ msg)]))) ∧
     lastSync (config w') = lastSync (config w1)) ∧
  (∀ w w0 w1 w2 pre item post hubspotTickets s1 msg,
     syncEnabled (config w) = true →
     mh_snapshots env w = (Ret (pre ++ item :: post, hubspotTickets), w0) →
     for_of pre
       (mh_body env
          (build_map (λ ticket, subject (properties ticket)) hubspotTickets))
       (0, 0) w0 = (Ret s1, w1) →
     mh_body env
       (build_map (λ ticket, subject (properties ticket)) hubspotTickets)
       item s1 w1 = (Throw msg, w2) →
     let w' := logged env ("Sync failed: " +:+ msg) error w2 in
     syncMondayToHubSpot env w = (Ret (), w') ∧
     (∃ c, calls w' = calls w1 ++ [c] ∧
           mutation_reply env (calls w1 ++ [c]) = inl msg) ∧
     (∃ pfx,
        pfx ∈ ["Error creating HubSpot ticket: ";
               "Error updating HubSpot ticket: "] ∧
        console w' = console w1 ++
          [render error (pfx +:+ msg);
           render error ("Sync failed: " +:+ msg)]) ∧
     lastSync (config w') = lastSync (config w1)).
Proof.
  split_and!.
  - intros mondayMap ticket s w msg. rewrite hm_body_action.
    destruct (hm_action mondayMap (config w) ticket) as [a|] eqn:Ha.
    + rewrite run_action_eq. split.
      * intros Hthrow. exists a. split; [done|].
        apply (hm_action_fails _ _ _ _ _ _ _ Ha).
        destruct (mutation_reply env (calls w ++ [act_call a]))
          as [msg'|data] eqn:Hreply.
        -- left. cbn in Hthrow. congruence.
        -- right. exists data. split; [done|].
           destruct (reply_error (act_read a) data); cbn in Hthrow; congruence.
      * intros (a' & [= <-] & Hf).
        apply (hm_action_fails _ _ _ _ _ _ _ Ha) in Hf
          as [->|(data & -> & ->)]; done.
    + cbn. split; [done|]. by intros (a & ? & _).
  - intros hubspotMap item s w msg. rewrite mh_body_action.
    destruct (mh_action hubspotMap (config w) item) as [a|] eqn:Ha.
    + rewrite run_action_eq, (mh_action_read _ _ _ _ Ha). split.
      * intros Hthrow. exists a. split; [done|].
        destruct (mutation_reply env (calls w ++ [act_call a]));
          cbn in Hthrow; congruence.
      * intros (a' & [= <-] & ->). done.
    + cbn. split; [done|]. by intros (a & ? & _).
  - intros w w0 w1 w2 pre ticket post mondayItems s1 msg Hon Hs Hpre Hx w'.
    destruct (pass_apply_failed env (hm_snapshots env) fst
                (λ snap, hm_body env (build_map name snap.2)) hm_act hm_summary
                (λ snap, hm_body_action env _) w _ w0 pre ticket post s1 w1
                msg w2 Hon Hs eq_refl Hpre Hx)
      as (Hpass & a & pfx & Ha & Hfail & ->).
    subst w'. split_and!; [done| |by destruct pfx].
    exists (act_call a). split; [by destruct pfx|].
    destruct pfx as [p|].
    + destruct Hfail as [-> Hreply]. left. split; [done|].
      rewrite (hm_action_prefix _ _ _ _ Ha).
      unfold logged, helper_logged, logged, issue. cbn.
      by rewrite <- app_assoc.
    + destruct Hfail as (data & Hreply & Herr). right.
      rewrite (hm_action_read _ _ _ _ Ha) in Herr. unfold reply_error in Herr.
      destruct (property_read (act_call a)) as [p|]; [|done].
      by exists data, p.
  - intros w w0 w1 w2 pre item post hubspotTickets s1 msg Hon Hs Hpre Hx w'.
    destruct (pass_apply_failed env (mh_snapshots env) fst
                (λ snap, mh_body env
                   (build_map (λ ticket, subject (properties ticket)) snap.2))
                mh_act mh_summary
                (λ snap, mh_body_action env _) w _ w0 pre item post s1 w1
                msg w2 Hon Hs eq_refl Hpre Hx)
      as (Hpass & a & pfx & Ha & Hfail & ->).
    subst w'. destruct pfx as [p|].
    + destruct Hfail as [-> Hreply].
      split_and!; [done|by exists (act_call a)| |done].
      exists (act_prefix a). split; [apply (mh_action_prefix _ _ _ _ Ha)|].
      unfold logged, helper_logged, logged, issue. cbn.
      by rewrite <- app_assoc.
    + destruct Hfail as (data & _ & Herr).
      by rewrite (mh_action_read _ _ _ _ Ha) in Herr.
Qed.

Lemma C2_witness :
  let hm := Sim.remote [Scenario.bug1; Scenario.bug2] []
              Scenario.create_rejected in
  let mh := Sim.remote [] [Scenario.task; Scenario.chore]
              Scenario.create_rejected in
  syncHubSpotToMonday hm Sim.enabled_world =
    (Ret (),
     logged hm "Sync failed: rejected" error
       (hm_body hm ∅ Scenario.bug1 (0, 0)
          (hm_snapshots hm Sim.enabled_world).2).2) ∧
  syncMondayToHubSpot mh Sim.enabled_world =
    (Ret (),
     logged mh "Sync failed: rejected" error
       (mh_body mh ∅ Scenario.task (0, 0)
          (mh_snapshots mh Sim.enabled_world).2).2).
Proof.
  intros hm mh. split.
  - pose proof (proj1 (proj2 (proj2 (C2_failed_request_ends_pass hm)))
                  Sim.enabled_world
                  (hm_snapshots hm Sim.enabled_world).2
                  (hm_snapshots hm Sim.enabled_world).2
                  (hm_body hm ∅ Scenario.bug1 (0, 0)
                     (hm_snapshots hm Sim.enabled_world).2).2
                  [] Scenario.bug1 [Scenario.bug2] [] (0, 0) "rejected") as H.
    destruct H as [H _]; [by vm_compute..|exact H].
  - pose proof (proj2 (proj2 (proj2 (C2_failed_request_ends_pass mh)))
                  Sim.enabled_world
                  (mh_snapshots mh Sim.enabled_world).2
                  (mh_snapshots mh Sim.enabled_world).2
                  (mh_body mh ∅ Scenario.task (0, 0)
                     (mh_snapshots mh Sim.enabled_world).2).2
                  [] Scenario.task [Scenario.chore] [] (0, 0) "rejected") as H.
    destruct H as [H _]; [by vm_compute..|exact H].
Defined.

(** C2, as stated, fails: Monday rejects the creation of "Bug 1", the first
    of two tickets; the pass stops there, and no request is ever made for
    "Bug 2", which Monday would have accepted. *)
Lemma C2_counterexample :
  let env := Sim.remote [Scenario.bug1; Scenario.bug2] []
               Scenario.bug1_rejected in
  let w' := (syncHubSpotToMonday env Sim.enabled_world).2 in
  calls w' =
    [HubSpotGetTickets ""; MondayItemsQuery "" "";
     MondayCreateItem "" "" (VStr "Bug 1") {[ "text" := VStr "crash" ]}] ∧
  console w' =
    ["[INFO] Starting HubSpot → Monday.com sync...";
     "[ERROR] Monday.com API error: rejected";
     "[ERROR] Sync failed: rejected"] ∧
  ¬ (∃ token boardId columnValues,
       MondayCreateItem token boardId (VStr "Bug 2") columnValues ∈ calls w').
Proof.
  intros env w'.
  assert (calls w' =
    [HubSpotGetTickets ""; MondayItemsQuery "" "";
     MondayCreateItem "" "" (VStr "Bug 1") {[ "text" := VStr "crash" ]}])
    as Hcalls by by vm_compute.
  split_and!; [done|by vm_compute|].
  intros (token & boardId & columnValues & Hin). rewrite Hcalls in Hin.
  repeat (apply elem_of_cons in Hin as [[=]|Hin]).
  by apply elem_of_nil in Hin.
Qed.

(** A reply to the creation of "Bug 1" that has no data: the pass stops
    there as well, and only "Sync failed" is logged, with the message of
    the [TypeError]. *)
Example reply_without_data_ends_pass :
  let env :=
    Sim.without_data
      (λ c, match c with MondayCreateItem _ _ _ _ => true | _ => false end)
      (Sim.remote [Scenario.bug1; Scenario.bug2] [] Sim.never) in
  let w' := (syncHubSpotToMonday env Sim.enabled_world).2 in
  calls w' =
    [HubSpotGetTickets ""; MondayItemsQuery "" "";
     MondayCreateItem "" "" (VStr "Bug 1") {[ "text" := VStr "crash" ]}] ∧
  console w' =
    ["[INFO] Starting HubSpot → Monday.com sync...";
     "[ERROR] Sync failed: Cannot read properties of undefined (reading 'create_item')"].
Proof. by vm_compute. Qed.

(** ** Matched records with nothing to push *)

(** C9: for a matched record whose [updateData] has no key, the loop body
    does nothing at all: it returns the counters as they were and the world
    unchanged (no request, no log line, no throw), in both passes; hence a
    body that issues a request for a matched record has a non-empty
    [updateData]. *)
Theorem C9_empty_field_set_skips (env : Env) :
  (∀ mondayMap ticket existingItem s w,
     mondayMap !! subject (properties ticket) = Some existingItem →
     Object_keys (updateData "hubspot" (fieldRules (config w))
                    (ticketData ticket)) = [] →
     hm_body env mondayMap ticket s w = (Ret s, w)) ∧
  (∀ hubspotMap item existingTicket s w,
     hubspotMap !! name item = Some existingTicket →
     Object_keys (updateData "monday" (fieldRules (config w))
                    (itemData (fieldMapping (config w)) item)) = [] →
     mh_body env hubspotMap item s w = (Ret s, w)) ∧
  (∀ mondayMap ticket existingItem s w,
     mondayMap !! subject (properties ticket) = Some existingItem →
     calls (hm_body env mondayMap ticket s w).2 ≠ calls w →
     Object_keys (updateData "hubspot" (fieldRules (config w))
                    (ticketData ticket)) ≠ []) ∧
  (∀ hubspotMap item existingTicket s w,
     hubspotMap !! name item = Some existingTicket →
     calls (mh_body env hubspotMap item s w).2 ≠ calls w →
     Object_keys (updateData "monday" (fieldRules (config w))
                    (itemData (fieldMapping (config w)) item)) ≠ []).
Proof.
  assert (∀ mondayMap ticket existingItem s w,
     mondayMap !! subject (properties ticket) = Some existingItem →
     Object_keys (updateData "hubspot" (fieldRules (config w))
                    (ticketData ticket)) = [] →
     hm_body env mondayMap ticket s w = (Ret s, w)) as Hhm.
  { intros mondayMap ticket existingItem s w Hmatch Hkeys.
    rewrite hm_body_action. unfold hm_action. by rewrite Hmatch, Hkeys. }
  assert (∀ hubspotMap item existingTicket s w,
     hubspotMap !! name item = Some existingTicket →
     Object_keys (updateData "monday" (fieldRules (config w))
                    (itemData (fieldMapping (config w)) item)) = [] →
     mh_body env hubspotMap item s w = (Ret s, w)) as Hmh.
  { intros hubspotMap item existingTicket s w Hmatch Hkeys.
    rewrite mh_body_action. unfold mh_action. by rewrite Hmatch, Hkeys. }
  split_and!; [done|done|..].
  - intros mondayMap ticket existingItem s w Hmatch Hcalls Hkeys.
    by rewrite (Hhm _ _ _ s w Hmatch Hkeys) in Hcalls.
  - intros hubspotMap item existingTicket s w Hmatch Hcalls Hkeys.
    by rewrite (Hmh _ _ _ s w Hmatch Hkeys) in Hcalls.
Qed.

Lemma C9_witness :
  let env := Sim.remote [Scenario.bug2] [Scenario.item_bug2] Sim.never in
  hm_body env (build_map name [Scenario.item_bug2]) Scenario.bug2 (0, 0)
    Scenario.monday_owns_all = (Ret (0, 0), Scenario.monday_owns_all) ∧
  mh_body env (build_map (λ ticket, subject (properties ticket))
                 [Scenario.bug2]) Scenario.item_bug2 (0, 0)
    Scenario.hubspot_owns_all = (Ret (0, 0), Scenario.hubspot_owns_all).
Proof.
  intros env. split.
  - apply (proj1 (C9_empty_field_set_skips env) _ Scenario.bug2
             Scenario.item_bug2); reflexivity.
  - apply (proj1 (proj2 (C9_empty_field_set_skips env)) _ Scenario.item_bug2
             Scenario.bug2); reflexivity.
Defined.

(** The field set is that of [updateData], not of the request: when the
    title is the only field pulled from HubSpot, [updateData] has the key
    subject, and the update is sent with no column value at all, since
    [updateMondayItem] does not send the name. *)
Lemma title_only_update_sends_no_column (m : FieldMapping) (data : JSObj) :
  let r := {| rule_title := "hubspot"; rule_description := "monday";
              rule_status := "monday"; rule_priority := "monday";
              rule_assignee := "both" |} in
  Object_keys (updateData "hubspot" r data) = ["subject"] ∧
  update_columnValues m (updateData "hubspot" r data) = ∅.
Proof. done. Qed.

(** ** The guard of the entry points *)

(** C8 (as the code has it): the only guard is [syncEnabled]. With sync
    disabled no entry point issues any request: the cron tick and the two
    webhooks leave the world as it is (no timer is set), the manual trigger
    only logs, and a timer that fires runs a pass that returns at once.
    With sync enabled the manual trigger and the cron tick start the pass,
    whose first request carries the stored HubSpot token, whatever the
    credentials are. *)
Theorem C8_only_guard_is_syncEnabled (env : Env) (w : World) :
  (syncEnabled (config w) = false →
     cron_tick env w = (Ret (), w) ∧
     webhook_hubspot env w = (Ret (), w) ∧
     webhook_monday env w = (Ret (), w) ∧
     post_sync env w = (Ret (), logged env "Manual sync triggered" info w) ∧
     calls (post_sync env w).2 = calls w ∧
     calls (timer_fires env w).2 = calls w) ∧
  (syncEnabled (config w) = true →
     (∃ cs, calls (post_sync env w).2 =
              calls w ++ HubSpotGetTickets (hubspotToken (config w)) :: cs) ∧
     (∃ cs, calls (cron_tick env w).2 =
              calls w ++ HubSpotGetTickets (hubspotToken (config w)) :: cs)).
Proof.
  split.
  - intros Hoff.
    assert (∀ v, syncEnabled (config v) = false →
                 syncHubSpotToMonday env v = (Ret (), v) ∧
                 syncMondayToHubSpot env v = (Ret (), v)) as Hsync.
    { intros v Hv.
      rewrite syncHubSpotToMonday_pass, syncMondayToHubSpot_pass.
      by rewrite !pass_disabled. }
    assert (post_sync env w = (Ret (), logged env "Manual sync triggered" info w))
      as Hpost.
    { unfold post_sync, performFullSync, bind. rewrite logSync_eq.
      destruct (Hsync (logged env "Manual sync triggered" info w) Hoff)
        as [-> ->]. done. }
    split_and!; try done.
    + unfold cron_tick, bind, get_config. by rewrite Hoff.
    + unfold webhook_hubspot, bind, get_config. by rewrite Hoff.
    + unfold webhook_monday, bind, get_config. by rewrite Hoff.
    + by rewrite Hpost.
    + unfold timer_fires. destruct (timers w) as [|d ds]; [done|].
      destruct (Hsync {| config := config w; calls := calls w;
                         console := console w; dates := dates w;
                         timers := ds |} Hoff) as [Hhm Hmh].
      destruct d; [by rewrite Hhm|by rewrite Hmh].
  - intros Hon.
    assert (∀ msg, ∃ cs,
              calls (performFullSync env (logged env msg info w)).2 =
                calls w ++ HubSpotGetTickets (hubspotToken (config w)) :: cs)
      as Hfull.
    { intros msg. set (v := logged env msg info w).
      assert (syncEnabled (config v) = true) as Hv by done.
      destruct (hm_pass_spec env v Hv) as (cs & ls & Heq & Hfr & _).
      unfold performFullSync, bind. rewrite Heq.
      set (v' := (syncHubSpotToMonday env v).2) in *.
      assert (syncEnabled (config v') = true) as Hv'.
      { pose proof (frame_settings _ _ _ _ Hfr) as Hset. unfold settings in Hset.
        injection Hset as _ _ _ Hen _ _. by rewrite Hen. }
      destruct (mh_pass_spec env v' Hv') as (cs' & ls' & _ & Hfr' & _).
      exists (cs ++ items_query v' :: cs').
      rewrite (frame_calls _ _ _ _ Hfr'), (frame_calls _ _ _ _ Hfr).
      by rewrite <- app_assoc. }
    split.
    + unfold post_sync, bind. rewrite logSync_eq. apply Hfull.
    + unfold cron_tick, bind, get_config. rewrite Hon, logSync_eq. apply Hfull.
Qed.

Lemma C8_witness :
  let env := Sim.remote [Scenario.bug1] [] Sim.never in
  calls (post_sync env initial_world).2 = [] ∧
  ∃ cs, calls (post_sync env Sim.enabled_world).2 = HubSpotGetTickets "" :: cs.
Proof.
  intros env. split.
  - apply (proj1 (C8_only_guard_is_syncEnabled env initial_world) eq_refl).
  - apply (proj2 (C8_only_guard_is_syncEnabled env Sim.enabled_world) eq_refl).
Defined.

(** C8, as stated, fails: the server starts with no credential at all, sync
    is enabled and the manual trigger is used; both snapshots are fetched
    with the empty tokens and the empty board id, and an item is created on
    the board. *)
Lemma C8_counterexample :
  let env := Sim.remote [Scenario.bug1] [] Sim.never in
  let w := (post_enable env initial_world).2 in
  let w' := (post_sync env w).2 in
  hubspotToken (config w) = "" ∧ mondayToken (config w) = "" ∧
  mondayBoardId (config w) = "" ∧
  take 3 (calls w') =
    [HubSpotGetTickets ""; MondayItemsQuery "" "";
     MondayCreateItem "" "" (VStr "Bug 1") {[ "text" := VStr "crash" ]}].
Proof. by vm_compute. Qed.

(** ** Failed requests and thrown errors *)

Section Traced.

Context (env : Env).

(** [m] throws exactly when a request it issues fails, and issues no
    request after it. *)
Definition traced {A} (m : M A) : Prop :=
  ∀ w, ∃ cs,
    calls (m w).2 = calls w ++ cs ∧
    match (m w).1 with
    | Ret _ => all_succeed env (calls w) cs
    | Throw msg => ends_in_failure env (calls w) cs msg
    end.

Lemma all_succeed_app h cs cs' :
  all_succeed env h cs → all_succeed env (h ++ cs) cs' →
  all_succeed env h (cs ++ cs').
Proof.
  revert h. induction cs as [|c cs IH]; intros h Hcs Hcs'; cbn.
  - by rewrite app_nil_r in Hcs'.
  - destruct Hcs as [Hc Hcs]. split; [done|]. apply IH; [done|].
    by rewrite <- app_assoc.
Qed.

Lemma traced_silent {A} (m : M A) :
  (∀ w, calls (m w).2 = calls w ∧ ∃ a, (m w).1 = Ret a) → traced m.
Proof.
  intros Hm w. destruct (Hm w) as [Hcalls [a Ha]]. exists [].
  by rewrite Hcalls, Ha, app_nil_r.
Qed.

Lemma traced_ret {A} (a : A) : traced (ret a).
Proof. apply traced_silent. intros w. eauto. Qed.

Lemma traced_get_config : traced get_config.
Proof. apply traced_silent. intros w. eauto. Qed.

Lemma traced_logSync msg t : traced (logSync env msg t).
Proof. apply traced_silent. intros w. eauto. Qed.

Lemma traced_new_Date : traced (new_Date env).
Proof. apply traced_silent. intros w. eauto. Qed.

Lemma traced_set_config_lastSync t : traced (set_config_lastSync t).
Proof. apply traced_silent. intros w. eauto. Qed.

Lemma traced_bind {A B} (m : M A) (k : A → M B) :
  traced m → (∀ a, traced (k a)) → traced (bind m k).
Proof.
  intros Hm Hk w. unfold bind. destruct (Hm w) as (cs & Hcs & Hout).
  destruct (m w) as [[a|msg] w1]; cbn in Hcs, Hout; [|by exists cs].
  destruct (Hk a w1) as (cs' & Hcs' & Hout'). exists (cs ++ cs').
  rewrite Hcs', Hcs, app_assoc. split; [done|].
  rewrite Hcs in Hout'.
  destruct (k a w1).1 as [b|msg]; [by apply all_succeed_app|].
  destruct Hout' as (cs0 & c & -> & Hcs0 & Hfail).
  exists (cs ++ cs0), c. rewrite !app_assoc in *. split_and!; try done.
  by apply all_succeed_app.
Qed.

(** [try { m } catch (error) { logSync(...); throw error }] *)
Lemma traced_rethrow {A} (m : M A) pfx :
  traced m →
  traced (try_catch m
            (λ msg, logSync env (pfx +:+ msg) error ;;; throw msg)).
Proof.
  intros Hm w. unfold try_catch. destruct (Hm w) as (cs & Hcs & Hout).
  destruct (m w) as [[a|msg] w1]; by exists cs.
Qed.

Lemma traced_for_of {A S} (xs : list A) (body : A → S → M S) s :
  (∀ x s, traced (body x s)) → traced (for_of xs body s).
Proof.
  intros Hbody. revert s. induction xs as [|x xs IH]; intros s; cbn.
  - apply traced_ret.
  - by apply traced_bind.
Qed.

(** One request, then what its caller reads of the reply: [run] is the
    outcome, [failure] what makes the caller throw. *)
Lemma traced_request {A} (m : M A) (c : World → RemoteCall) :
  (∀ w, calls (m w).2 = calls w ++ [c w]) →
  (∀ w msg, (m w).1 = Throw msg ↔ fails_with env (calls w ++ [c w]) msg) →
  traced m.
Proof.
  intros Hcalls Hthrow w. exists [c w]. split; [done|].
  destruct (m w).1 as [a|msg] eqn:Hm.
  - split; [|done]. intros msg Hmsg. apply Hthrow in Hmsg. congruence.
  - exists [], (c w). split_and!; [done..|]. by apply Hthrow.
Qed.

(** A HubSpot write: it throws when the request is rejected. *)
Lemma traced_mutate c :
  ¬ is_fetch c → property_read c = None → traced (mutate env c).
Proof.
  intros Hc Hp. apply (traced_request _ (λ _, c)).
  { intros w. unfold mutate. by destruct (mutation_reply env _). }
  intros w msg. unfold mutate, fails_with, rejected, unreadable_reply.
  change (calls (issue c w)) with (calls w ++ [c]). rewrite last_snoc.
  destruct c; cbn in Hc, Hp; try done; try (by destruct Hc);
    (destruct (mutation_reply env _) as [msg'|data] eqn:Hreply; cbn;
     (split;
      [try done; intros [= <-]; by left
      |intros [H|(? & ? & ? & [=] & _)]; congruence])).
Qed.

(** A Monday write and the read of its result: it throws when the request
    is rejected, and when the reply has no data. *)
Lemma traced_monday_write c p :
  ¬ is_fetch c → property_read c = Some p →
  traced (data <~ mondayQuery env (mutate env c) ;; read data p).
Proof.
  intros Hc Hp. apply (traced_request _ (λ _, c)).
  - intros w. unfold bind, mondayQuery, try_catch, mutate.
    change (calls (issue c w)) with (calls w ++ [c]).
    by destruct (mutation_reply env (calls w ++ [c])) as [msg'|[| |[]]].
  - intros w msg. unfold fails_with, rejected, unreadable_reply.
    rewrite last_snoc.
    unfold bind, mondayQuery, try_catch, mutate.
    change (calls (issue c w)) with (calls w ++ [c]).
    destruct (mutation_reply env (calls w ++ [c])) as [msg'|data] eqn:Hreply;
      cbn.
    + split.
      * intros [= <-]. left. by destruct c.
      * intros [H|H]; [destruct c; cbn in Hc; try done; congruence|].
        destruct c; cbn in Hc; try done;
          destruct H as (? & ? & ? & _); congruence.
    + split.
      * intros Hthrow. right.
        assert (unreadable data p = Some msg) as Hun.
        { destruct data as [| |[]]; cbn in Hthrow |- *; congruence. }
        destruct c; cbn in Hc, Hp; try done; by exists data, p.
      * intros [H|H]; [destruct c; cbn in Hc; try done; congruence|].
        assert (unreadable data p = Some msg) as Hun.
        { destruct c; cbn in Hc, Hp; try done;
            destruct H as (data' & p' & [= <-] & [= <-] & H);
            by injection Hp as <-. }
        destruct data as [| |[]]; cbn in Hun |- *; congruence.
Qed.

Lemma traced_axios_get_tickets : traced (axios_get_tickets env).
Proof.
  apply (traced_request _ get_tickets).
  { intros w. unfold axios_get_tickets. by destruct (tickets_reply env _). }
  intros w msg. unfold axios_get_tickets, fails_with, rejected,
    unreadable_reply.
  rewrite last_snoc.
  change (calls (issue _ w)) with (calls w ++ [get_tickets w]).
  destruct (tickets_reply env (calls w ++ [get_tickets w]))
    as [msg'|results] eqn:Hreply; cbn.
  - split; [intros [= <-]; by left|].
    intros [H|(? & ? & ? & [=] & _)]. congruence.
  - split; [done|]. intros [H|(? & ? & ? & [=] & _)]. congruence.
Qed.

Lemma traced_getMondayItems : traced (getMondayItems env).
Proof.
  apply (traced_request _ items_query).
  - intros w. rewrite getMondayItems_eq.
    destruct (boards_reply env _) as [msg|data]; [done|].
    by destruct (boards_error data).
  - intros w msg. rewrite getMondayItems_eq.
    unfold fails_with, rejected, unreadable_reply. rewrite last_snoc.
    destruct (boards_reply env (calls w ++ [items_query w]))
      as [msg'|data] eqn:Hreply; unfold items_query; cbn.
    + split; [intros [= <-]; by left|].
      intros [H|(? & [=] & _)]. congruence.
    + split.
      * intros Hthrow. right. exists data. split; [done|].
        destruct (boards_error data); cbn in Hthrow; congruence.
      * intros [[=]|(data' & [= <-] & ->)]. done.
Qed.

Ltac trace :=
  repeat match goal with
         | |- traced (ret _) => apply traced_ret
         | |- traced get_config => apply traced_get_config
         | |- traced (logSync _ _ _) => apply traced_logSync
         | |- traced (new_Date _) => apply traced_new_Date
         | |- traced (set_config_lastSync _) =>
             apply traced_set_config_lastSync
         | |- traced (getMondayItems _) => apply traced_getMondayItems
         | |- traced (bind (mondayQuery _ (mutate _ _)) _) =>
             apply traced_monday_write; [by intros []|done]
         | |- traced (mutate _ _) => apply traced_mutate; [by intros []|done]
         | |- traced (axios_get_tickets _) => apply traced_axios_get_tickets
         | |- traced (for_of _ _ _) => apply traced_for_of; intros
         | |- traced (try_catch _ (λ msg, logSync _ _ error ;;; throw msg)) =>
             apply traced_rethrow
         | |- traced (bind _ _) => apply traced_bind; [|intros]
         | |- traced (if ?b then _ else _) => destruct b
         | |- traced (match ?x with Some _ => _ | None => _ end) => destruct x
         end.

Lemma traced_hm_try : traced (hm_try env).
Proof.
  unfold hm_try, hm_snapshots, hm_body, getHubSpotTickets, createMondayItem,
    updateMondayItem.
  trace.
Qed.

Lemma traced_mh_try : traced (mh_try env).
Proof.
  unfold mh_try, mh_snapshots, mh_body, getHubSpotTickets, createHubSpotTicket,
    updateHubSpotTicket.
  trace.
Qed.

(** What a throw of the request of an action means for the history [h]
    that the request ends. *)
Lemma thrown_by_fails a h pfx msg :
  last h = Some (act_call a) → ¬ is_fetch (act_call a) →
  act_read a = property_read (act_call a) →
  thrown_by env a h pfx msg →
  match pfx with
  | Some p => p = act_prefix a ∧ rejected env h msg
  | None => unreadable_reply env h msg
  end.
Proof.
  intros Hl Hc Hr. unfold thrown_by, rejected, unreadable_reply.
  rewrite Hl, Hr. unfold reply_error.
  destruct pfx as [p|].
  - intros [-> Hreply]. split; [done|]. by destruct (act_call a).
  - intros (data & Hreply & Herr).
    destruct (property_read (act_call a)) as [p|] eqn:Hp; [|done].
    destruct (act_call a); cbn in Hc; try done; by exists data, p.
Qed.

End Traced.

Lemma hm_action_call mondayMap c ticket a :
  hm_action mondayMap c ticket = Some a →
  ¬ is_fetch (act_call a) ∧ act_read a = property_read (act_call a).
Proof.
  unfold hm_action. destruct (mondayMap !! _); [case_bool_decide|];
    intros [= <-]; cbn; by split; [intros []|].
Qed.

Lemma mh_action_call hubspotMap c item a :
  mh_action hubspotMap c item = Some a →
  ¬ is_fetch (act_call a) ∧ act_read a = property_read (act_call a).
Proof.
  unfold mh_action. destruct (hubspotMap !! _); [case_bool_decide|];
    intros [= <-]; cbn; by split; [intros []|].
Qed.

(** The newest entry of [syncLog] after a call of [logSync]. *)
Lemma logged_once env msg t w :
  take 1 (syncLog (config (logged env msg t w))) =
    [ {| timestamp := clock env (dates w); message := msg; type := t |} ].
Proof.
  unfold logged. cbn. destruct (syncLog (config w)) as [|e1 l];
    repeat (case_decide; cbn in * ); try done; lia.
Qed.

(** ** Error entries of a failing pass *)

(** The error lines of a pass that fails with [msg], [h] being the requests
    made so far, and the newest entries of its log: two when the last
    request was rejected, the line of the remote helper under one of
    [prefixes] and the line of the pass; the line of the pass alone when
    the reply of the last request could not be read. *)
Definition logs_failure (env : Env) (prefixes : list string)
    (h : list RemoteCall) (w' : World) (ls : list string) (msg : string)
    : Prop :=
  ∃ ls0,
    quiet ls0 ∧
    ((rejected env h msg ∧ errors ls = 2 ∧
      ∃ pfx t1 t2,
        pfx ∈ prefixes ∧
        ls = ls0 ++ [render error (pfx +:+ msg);
                     render error ("Sync failed: " +:+ msg)] ∧
        take 2 (syncLog (config w')) =
          [ {| timestamp := t2; message := "Sync failed: " +:+ msg;
               type := error |};
            {| timestamp := t1; message := pfx +:+ msg; type := error |} ]) ∨
     (unreadable_reply env h msg ∧ errors ls = 1 ∧
      ∃ t,
        ls = ls0 ++ [render error ("Sync failed: " +:+ msg)] ∧
        take 1 (syncLog (config w')) =
          [ {| timestamp := t; message := "Sync failed: " +:+ msg;
               type := error |} ])).

Lemma logs_failure_intro env prefixes h v ls0 pfx msg :
  quiet ls0 →
  match pfx with
  | Some p => p ∈ prefixes ∧ rejected env h msg
  | None => unreadable_reply env h msg
  end →
  logs_failure env prefixes h
    (logged env ("Sync failed: " +:+ msg) error (helper_logged env pfx msg v))
    (ls0 ++ helper_lines pfx msg ++ [render error ("Sync failed: " +:+ msg)])
    msg.
Proof.
  intros Hq Hpfx. exists ls0. split; [done|]. destruct pfx as [p|].
  - destruct Hpfx as [Hp Hrej]. left. split_and!; [done| |].
    + by rewrite errors_app, (errors_quiet _ Hq).
    + exists p, (clock env (dates v)), (clock env (S (dates v))).
      split_and!; [done..|]. unfold helper_logged. apply logged_twice.
  - right. split_and!; [done| |].
    + by rewrite errors_app, (errors_quiet _ Hq).
    + exists (clock env (dates v)). split; [done|]. apply logged_once.
Qed.

(** C7 (as the code has it): the [try] block of a pass throws exactly when
    the last request it has issued is rejected or, being a Monday request,
    is answered without the data its caller reads. A pass without such a
    request logs no error. A pass whose request is rejected (a failed
    fetch, create or update, with message [msg]) logs exactly two errors,
    the last two lines of the pass and the two newest entries of [syncLog]:
    first the line of the remote helper, a fixed prefix naming the operation
    followed by [msg], then "Sync failed: " followed by [msg]. A pass whose
    Monday reply cannot be read logs exactly one, "Sync failed: " followed
    by the message of the [TypeError]. No line is built from the record. *)
Theorem C7_failure_logs_one_or_two_errors (env : Env) (w : World) :
  syncEnabled (config w) = true →
  (∃ cs ls,
     calls (syncHubSpotToMonday env w).2 = calls w ++ cs ∧
     console (syncHubSpotToMonday env w).2 = console w ++ ls ∧
     match (hm_try env w).1 with
     | Ret _ => all_succeed env (calls w) cs ∧ errors ls = 0
     | Throw msg =>
         ends_in_failure env (calls w) cs msg ∧
         logs_failure env
           ["Error fetching HubSpot tickets: "; "Monday.com API error: "]
           (calls w ++ cs) (syncHubSpotToMonday env w).2 ls msg
     end) ∧
  (∃ cs ls,
     calls (syncMondayToHubSpot env w).2 = calls w ++ cs ∧
     console (syncMondayToHubSpot env w).2 = console w ++ ls ∧
     match (mh_try env w).1 with
     | Ret _ => all_succeed env (calls w) cs ∧ errors ls = 0
     | Throw msg =>
         ends_in_failure env (calls w) cs msg ∧
         logs_failure env
           ["Error fetching HubSpot tickets: "; "Monday.com API error: ";
            "Error creating HubSpot ticket: ";
            "Error updating HubSpot ticket: "]
           (calls w ++ cs) (syncMondayToHubSpot env w).2 ls msg
     end).
Proof.
  intros Hon. split.
  - destruct (hm_pass_spec env w Hon) as (cs' & ls & _ & Hfr & Hout).
    destruct (traced_hm_try env w) as (cs & Hcs & Htrace).
    exists cs, (render info hm_start :: ls).
    assert (calls (syncHubSpotToMonday env w).2 = calls (hm_try env w).2)
      as Hcalls.
    { rewrite syncHubSpotToMonday_pass, (pass_enabled _ _ _ _ _ _ Hon).
      rewrite <- hm_try_pass. by destruct (hm_try env w) as [[[]|msg] w']. }
    assert (calls w ++ cs = calls w ++ get_tickets w :: cs') as Heq.
    { rewrite <- Hcs, <- Hcalls. apply (frame_calls _ _ _ _ Hfr). }
    split_and!; [by rewrite Hcalls|apply (frame_console _ _ _ _ Hfr)|].
    rewrite Heq. rewrite hm_try_pass in Htrace |- *.
    destruct Hout as [msg w0 pfx v _ Htry -> _ Hls Hthrown _
                     |snap w0 cs0 msg pre x post a ls0 pfx v _ Htry -> _ _ Ha
                        Hcs' Hls Hq' Hthrown _
                     |snap w0 cs0 _ Htry _ _ Hq]; rewrite Htry in Htrace |- *.
    + split; [done|]. injection Hls as ->.
      apply (logs_failure_intro _ _ _ _ [render info hm_start]);
        [by apply quiet_render|].
      by destruct pfx.
    + split; [done|].
      destruct ls0 as [|l0 ls0]; [by destruct pfx|].
      injection Hls as <- ->.
      apply (logs_failure_intro _ _ _ _ (render info hm_start :: ls0));
        [done|].
      destruct (hm_action_call _ _ _ _ Ha) as [Hc Hr].
      pose proof (thrown_by_fails env a (calls w ++ get_tickets w :: cs')
                    pfx msg) as Hf.
      destruct pfx as [p|].
      * destruct Hf as [-> Hrej]; try done.
        { by rewrite Hcs', !app_assoc, last_snoc. }
        split; [|done]. rewrite (hm_action_prefix _ _ _ _ Ha). in_list.
      * apply Hf; try done.
        by rewrite Hcs', !app_assoc, last_snoc.
    + split; [done|]. by apply errors_quiet.
  - destruct (mh_pass_spec env w Hon) as (cs' & ls & _ & Hfr & Hout).
    destruct (traced_mh_try env w) as (cs & Hcs & Htrace).
    exists cs, (render info mh_start :: ls).
    assert (calls (syncMondayToHubSpot env w).2 = calls (mh_try env w).2)
      as Hcalls.
    { rewrite syncMondayToHubSpot_pass, (pass_enabled _ _ _ _ _ _ Hon).
      rewrite <- mh_try_pass. by destruct (mh_try env w) as [[[]|msg] w']. }
    assert (calls w ++ cs = calls w ++ items_query w :: cs') as Heq.
    { rewrite <- Hcs, <- Hcalls. apply (frame_calls _ _ _ _ Hfr). }
    split_and!; [by rewrite Hcalls|apply (frame_console _ _ _ _ Hfr)|].
    rewrite Heq. rewrite mh_try_pass in Htrace |- *.
    destruct Hout as [msg w0 pfx v _ Htry -> _ Hls Hthrown _
                     |snap w0 cs0 msg pre x post a ls0 pfx v _ Htry -> _ _ Ha
                        Hcs' Hls Hq' Hthrown _
                     |snap w0 cs0 _ Htry _ _ Hq]; rewrite Htry in Htrace |- *.
    + split; [done|]. injection Hls as ->.
      apply (logs_failure_intro _ _ _ _ [render info mh_start]);
        [by apply quiet_render|].
      destruct pfx; [|done]. destruct Hthrown as [Hp Hrej].
      split; [|done]. revert Hp. rewrite !elem_of_cons. tauto.
    + split; [done|].
      destruct ls0 as [|l0 ls0]; [by destruct pfx|].
      injection Hls as <- ->.
      apply (logs_failure_intro _ _ _ _ (render info mh_start :: ls0));
        [done|].
      destruct (mh_action_call _ _ _ _ Ha) as [Hc Hr].
      pose proof (thrown_by_fails env a (calls w ++ items_query w :: cs')
                    pfx msg) as Hf.
      destruct pfx as [p|].
      * destruct Hf as [-> Hrej]; try done.
        { by rewrite Hcs', !app_assoc, last_snoc. }
        split; [|done].
        pose proof (mh_action_prefix _ _ _ _ Ha) as Hp. revert Hp.
        rewrite !elem_of_cons. tauto.
      * apply Hf; try done.
        by rewrite Hcs', !app_assoc, last_snoc.
    + split; [done|]. by apply errors_quiet.
Qed.

Lemma C7_witness :
  let env := Sim.remote [Scenario.bug1] [] Scenario.hubspot_down in
  ∃ cs ls,
    calls (syncHubSpotToMonday env Sim.enabled_world).2 =
      calls Sim.enabled_world ++ cs ∧
    console (syncHubSpotToMonday env Sim.enabled_world).2 =
      console Sim.enabled_world ++ ls ∧
    match (hm_try env Sim.enabled_world).1 with
    | Ret _ => all_succeed env (calls Sim.enabled_world) cs ∧ errors ls = 0
    | Throw msg =>
        ends_in_failure env (calls Sim.enabled_world) cs msg ∧
        logs_failure env
          ["Error fetching HubSpot tickets: "; "Monday.com API error: "]
          (calls Sim.enabled_world ++ cs)
          (syncHubSpotToMonday env Sim.enabled_world).2 ls msg
    end.
Proof.
  intros env.
  apply (proj1 (C7_failure_logs_one_or_two_errors env Sim.enabled_world
                  eq_refl)).
Defined.

(** C7, as stated, fails: HubSpot is unreachable, and the failed fetch
    leaves two error entries in the log, not one; neither names a record. *)
Lemma C7_counterexample :
  let env := Sim.remote [Scenario.bug1] [] Scenario.hubspot_down in
  let w' := (syncHubSpotToMonday env Sim.enabled_world).2 in
  filter (λ e, type e = error) (syncLog (config w')) =
    [ {| timestamp := "T2"; message := "Sync failed: ECONNREFUSED";
         type := error |};
      {| timestamp := "T1";
         message := "Error fetching HubSpot tickets: ECONNREFUSED";
         type := error |} ] ∧
  console w' =
    ["[INFO] Starting HubSpot → Monday.com sync...";
     "[ERROR] Error fetching HubSpot tickets: ECONNREFUSED";
     "[ERROR] Sync failed: ECONNREFUSED"].
Proof. by vm_compute. Qed.

(** The items query answered without data: the one error entry of the
    pass is that of its [catch]. *)
Example items_query_without_data_logs_one_error :
  let env :=
    Sim.without_data
      (λ c, match c with MondayItemsQuery _ _ => true | _ => false end)
      (Sim.remote [Scenario.bug1] [] Sim.never) in
  let w' := (syncHubSpotToMonday env Sim.enabled_world).2 in
  filter (λ e, type e = error) (syncLog (config w')) =
    [ {| timestamp := "T1";
         message :=
           "Sync failed: Cannot read properties of undefined (reading 'boards')";
         type := error |} ] ∧
  calls w' = [HubSpotGetTickets ""; MondayItemsQuery "" ""].
Proof. by vm_compute. Qed.

(** ** The payload of a create *)

Lemma assign_Some k v o k' v' :
  own (assign k v o) !! k' = Some v' → k = k' ∧ v = v' ∨ own o !! k' = Some v'.
Proof.
  unfold assign. destruct (bool_decide (k = "__proto__") && has_prototype o).
  - destruct v; by right.
  - cbn. rewrite lookup_insert. case_decide; [|by right].
    intros [= ->]. by left.
Qed.




Lemma set_if_Some c k v o k' v' :
  own (set_if c k v o) !! k' = Some v' →
  c = true ∧ k = k' ∧ v = v' ∨ own o !! k' = Some v'.
Proof.
  unfold set_if. destruct c; [|by right].
  intros [[-> ->]|H]%assign_Some; auto.
Qed.







(** The requests of a body that runs one action. *)
Lemma run_action_calls env a s w :
  calls (run_action env (Some a) s w).2 = calls w ++ [act_call a].
Proof.
  rewrite run_action_eq.
  destruct (mutation_reply env (calls w ++ [act_call a])) as [msg|data];
    [done|].
  by destruct (reply_error (act_read a) data).
Qed.




(** A description mapped to the column id "__proto__": the content of
    "Bug 2" is not sent, the assignment having set no property. *)
Example column_id_proto_is_not_sent :
  create_columnValues
    {| map_description := "__proto__"; map_status := "status";
       map_priority := "priority"; map_assignee := "person" |}
    (ticketData Scenario.bug2) =
  {[ "status" := VStr "open"; "priority" := VStr "HIGH" ]}.
Proof. by vm_compute. Qed.

(** ** The assignee rule and the assignee column *)

(** [c] with another assignee rule, another column id mapped for the
    assignee, or both. *)
Definition reassign (rule column : option string) (c : Config) : Config :=
  {| hubspotToken := hubspotToken c; mondayToken := mondayToken c;
     mondayBoardId := mondayBoardId c; syncEnabled := syncEnabled c;
     lastSync := lastSync c; syncLog := syncLog c;
     fieldRules :=
       {| rule_title := rule_title (fieldRules c);
          rule_description := rule_description (fieldRules c);
          rule_status := rule_status (fieldRules c);
          rule_priority := rule_priority (fieldRules c);
          rule_assignee := default (rule_assignee (fieldRules c)) rule |};
     fieldMapping :=
       {| map_description := map_description (fieldMapping c);
          map_status := map_status (fieldMapping c);
          map_priority := map_priority (fieldMapping c);
          map_assignee := default (map_assignee (fieldMapping c)) column |} |}.

Definition reassigned (rule column : option string) (w : World) : World :=
  set_config (reassign rule column (config w)) w.

Lemma reassigned_rule a w : reassigned (Some a) None w = with_assignee a w.
Proof. by destruct w as [[? ? ? ? ? ? ? []] ? ? ? ?]. Qed.

Lemma reassigned_column a w :
  reassigned None (Some a) w = with_assignee_column a w.
Proof. by destruct w as [[? ? ? ? ? ? [] ?] ? ? ? ?]. Qed.

Section Inert.

Context (env : Env) (rule column : option string).

(** Running [m] with another assignee rule and another assignee column
    changes nothing but those. *)
Definition commutes {A} (m : M A) : Prop :=
  ∀ w, m (reassigned rule column w) =
       ((m w).1, reassigned rule column (m w).2).

Lemma commutes_ret {A} (x : A) : commutes (ret x).
Proof. done. Qed.

Lemma commutes_throw {A} msg : commutes (@throw A msg).
Proof. done. Qed.

Lemma commutes_reading {A} (x : Maybe A) p : commutes (read x p).
Proof. by destruct x. Qed.

Lemma commutes_bind {A B} (m : M A) (k : A → M B) :
  commutes m → (∀ x, commutes (k x)) → commutes (bind m k).
Proof.
  intros Hm Hk w. unfold bind. rewrite Hm.
  destruct (m w) as [[x|msg] w']; [apply Hk|done].
Qed.

Lemma commutes_try_catch {A} (m : M A) (h : string → M A) :
  commutes m → (∀ msg, commutes (h msg)) → commutes (try_catch m h).
Proof.
  intros Hm Hh w. unfold try_catch. rewrite Hm.
  destruct (m w) as [[x|msg] w']; [done|apply Hh].
Qed.

(** A continuation that reads [config], but neither the assignee rule nor
    the assignee column. *)
Lemma commutes_read {A} (k : Config → M A) :
  (∀ c, k (reassign rule column c) = k c) →
  (∀ c, commutes (k c)) →
  commutes (bind get_config k).
Proof. intros Hk Hc w. unfold bind, get_config. cbn. rewrite Hk. apply Hc. Qed.

Lemma commutes_for_of {A S} (xs : list A) (body : A → S → M S) s :
  (∀ x s, commutes (body x s)) → commutes (for_of xs body s).
Proof.
  intros Hbody. revert s. induction xs as [|x xs IH]; intros s; cbn.
  - apply commutes_ret.
  - by apply commutes_bind.
Qed.

Lemma commutes_logSync msg t : commutes (logSync env msg t).
Proof. done. Qed.

Lemma commutes_new_Date : commutes (new_Date env).
Proof. done. Qed.

Lemma commutes_set_config_lastSync t : commutes (set_config_lastSync t).
Proof. done. Qed.

Lemma commutes_mutate c : commutes (mutate env c).
Proof.
  intros w. unfold mutate, issue, reassigned. cbn.
  by destruct (mutation_reply env _).
Qed.

Lemma commutes_axios_get_tickets : commutes (axios_get_tickets env).
Proof.
  intros w. unfold axios_get_tickets, issue, reassigned. cbn.
  by destruct (tickets_reply env _).
Qed.

Lemma commutes_axios_post_items_query boardId :
  commutes (axios_post_items_query env boardId).
Proof.
  intros w. unfold axios_post_items_query, issue, reassigned. cbn.
  by destruct (boards_reply env _).
Qed.

Ltac commute :=
  repeat match goal with
         | |- commutes (ret _) => apply commutes_ret
         | |- commutes (throw _) => apply commutes_throw
         | |- commutes (read _ _) => apply commutes_reading
         | |- commutes (logSync _ _ _) => apply commutes_logSync
         | |- commutes (new_Date _) => apply commutes_new_Date
         | |- commutes (set_config_lastSync _) =>
             apply commutes_set_config_lastSync
         | |- commutes (mutate _ _) => apply commutes_mutate
         | |- commutes (axios_get_tickets _) => apply commutes_axios_get_tickets
         | |- commutes (axios_post_items_query _ _) =>
             apply commutes_axios_post_items_query
         | |- commutes (for_of _ _ _) => apply commutes_for_of; intros
         | |- commutes (try_catch _ _) => apply commutes_try_catch; [|intros]
         | |- commutes (bind get_config _) =>
             apply commutes_read; [intros; reflexivity|intros]
         | |- commutes (bind _ _) => apply commutes_bind; [|intros]
         | |- commutes (if ?b then _ else _) => destruct b
         | |- commutes (match ?x with Some _ => _ | None => _ end) =>
             destruct x
         end.

Lemma commutes_syncHubSpotToMonday : commutes (syncHubSpotToMonday env).
Proof.
  unfold syncHubSpotToMonday, hm_try, hm_snapshots, hm_body, getHubSpotTickets,
    getMondayItems, createMondayItem, updateMondayItem, mondayQuery.
  commute.
Qed.

Lemma commutes_syncMondayToHubSpot : commutes (syncMondayToHubSpot env).
Proof.
  unfold syncMondayToHubSpot, mh_try, mh_snapshots, mh_body, getHubSpotTickets,
    getMondayItems, createHubSpotTicket, updateHubSpotTicket, mondayQuery.
  commute.
Qed.

Lemma commutes_performFullSync : commutes (performFullSync env).
Proof.
  apply commutes_bind;
    [apply commutes_syncHubSpotToMonday|intros; apply commutes_syncMondayToHubSpot].
Qed.

End Inert.

Lemma Object_keys_add_if_defined data k p o :
  ∀ x, x ∈ Object_keys (add_if_defined data k p o) →
       x = p ∨ x ∈ Object_keys o.
Proof.
  intros x. unfold add_if_defined, Object_keys.
  destruct (obj_get data k); rewrite ?fmap_app, ?elem_of_app; cbn;
    rewrite ?elem_of_cons, ?elem_of_nil; tauto.
Qed.

Lemma update_columnValues_keys m data k :
  is_Some (update_columnValues m data !! k) → k ∈ synced_columns m.
Proof.
  intros [v Hk]. unfold update_columnValues in Hk. unfold synced_columns.
  apply set_if_Some in Hk as [(_ & <- & _)|Hk]; [in_list|].
  apply set_if_Some in Hk as [(_ & <- & _)|Hk]; [in_list|].
  apply set_if_Some in Hk as [(_ & <- & _)|Hk]; [in_list|].
  unfold empty_object in Hk. cbn [own] in Hk. by rewrite lookup_empty in Hk.
Qed.

Lemma create_columnValues_keys m data k :
  is_Some (create_columnValues m data !! k) → k ∈ synced_columns m.
Proof.
  intros [v Hk]. unfold create_columnValues in Hk. unfold synced_columns.
  apply set_if_Some in Hk as [(_ & <- & _)|Hk]; [in_list|].
  apply set_if_Some in Hk as [(_ & <- & _)|Hk]; [in_list|].
  apply set_if_Some in Hk as [(_ & <- & _)|Hk]; [in_list|].
  unfold empty_object in Hk. cbn [own] in Hk. by rewrite lookup_empty in Hk.
Qed.

Lemma hm_action_within_synced_columns mondayMap c ticket act :
  hm_action mondayMap c ticket = Some act →
  within_synced_columns (fieldMapping c) (act_call act).
Proof.
  unfold hm_action. destruct (mondayMap !! _); [case_bool_decide|];
    intros [= <-]; cbn.
  - apply update_columnValues_keys.
  - apply create_columnValues_keys.
Qed.

Lemma mh_action_leaves_assignee hubspotMap c item act :
  mh_action hubspotMap c item = Some act →
  within_synced_columns (fieldMapping c) (act_call act) ∧
  ∀ m, leaves_assignee m (act_call act).
Proof.
  unfold mh_action. destruct (hubspotMap !! _); [case_bool_decide|];
    intros [= <-]; cbn; (split; [done|]); intros _.
  - intros k Hk. unfold patch_properties in Hk.
    repeat (apply Object_keys_add_if_defined in Hk as [->|Hk];
            [unfold hubspot_properties; in_list|]).
    by apply elem_of_nil in Hk.
  - done.
Qed.

(** A Monday payload within the synced columns leaves the assignee column
    when that column is not among them. *)
Lemma within_leaves_assignee m c :
  map_assignee m ∉ synced_columns m →
  within_synced_columns m c →
  (∀ token props, c ≠ HubSpotPostTicket token props) →
  (∀ token ticketId props, c ≠ HubSpotPatchTicket token ticketId props) →
  leaves_assignee m c.
Proof.
  intros Hm Hc Hpost Hpatch. destruct c; cbn in *; try done.
  - by destruct (Hpost _ _ eq_refl).
  - by destruct (Hpatch _ _ _ eq_refl).
  - apply eq_None_not_Some. intros Hk. by apply Hm, Hc.
  - apply eq_None_not_Some. intros Hk. by apply Hm, Hc.
Qed.

(** C10 (as the code has it): neither the assignee rule nor the column id
    mapped for the assignee is ever read: a full sync run with another
    value of that rule, or of that column id, issues the same requests,
    logs the same lines and ends in the same world, that value apart. A
    HubSpot payload has only the properties subject, content,
    hs_pipeline_stage and hs_ticket_priority (never hubspot_owner_id), so
    the Monday → HubSpot pass leaves every assignee. A Monday payload holds
    values under the column ids mapped for description, status and priority
    only; so no request of a full sync carries an assignee, provided the
    column id mapped for the assignee is not one of those three. And
    [updateData] has no key besides subject, content, status and
    priority. *)
Theorem C10_assignee_rule_inert (env : Env) (w : World) :
  (∀ a, performFullSync env (with_assignee a w) =
          ((performFullSync env w).1,
           with_assignee a (performFullSync env w).2)) ∧
  (∀ a, performFullSync env (with_assignee_column a w) =
          ((performFullSync env w).1,
           with_assignee_column a (performFullSync env w).2)) ∧
  (∃ cs, calls (performFullSync env w).2 = calls w ++ cs ∧
         Forall (within_synced_columns (fieldMapping (config w))) cs ∧
         (map_assignee (fieldMapping (config w))
            ∉ synced_columns (fieldMapping (config w)) →
          Forall (leaves_assignee (fieldMapping (config w))) cs)) ∧
  (∃ cs, calls (syncMondayToHubSpot env w).2 = calls w ++ cs ∧
         Forall (leaves_assignee (fieldMapping (config w))) cs) ∧
  (∀ platform r data k,
     k ∈ Object_keys (updateData platform r data) →
     k ∈ ["subject"; "content"; "status"; "priority"]) ∧
  ("hubspot_owner_id" ∉ hubspot_properties).
Proof.
  split_and!.
  - intros a. rewrite <- !reassigned_rule. apply commutes_performFullSync.
  - intros a. rewrite <- !reassigned_column. apply commutes_performFullSync.
  - set (m := fieldMapping (config w)).
    destruct (performFullSync_calls env
                (λ c, within_synced_columns m c ∧
                      (map_assignee m ∉ synced_columns m →
                       leaves_assignee m c)) w)
      as (cs & Hcs & HP & _).
    + by intros [].
    + intros mondayMap cfg ticket a Hset Ha.
      assert (fieldMapping cfg = m) as Hm.
      { unfold settings in Hset. by injection Hset. }
      pose proof (hm_action_within_synced_columns _ _ _ _ Ha) as Hin.
      rewrite Hm in Hin. split; [done|]. intros Hnot.
      apply within_leaves_assignee; [done..| |];
        unfold hm_action in Ha;
        (destruct (mondayMap !! _); [case_bool_decide|]); by simplify_eq.
    + intros hubspotMap cfg item a Hset Ha.
      assert (fieldMapping cfg = m) as Hm.
      { unfold settings in Hset. by injection Hset. }
      destruct (mh_action_leaves_assignee _ _ _ _ Ha) as [Hin Hl].
      rewrite Hm in Hin. by split.
    + exists cs. split; [done|]. split.
      * eapply Forall_impl; [exact HP|]. by intros c [? _].
      * intros Hnot. eapply Forall_impl; [exact HP|]. intros c [_ Hc]. auto.
  - destruct (mh_pass_calls env
                (leaves_assignee (fieldMapping (config w))) w)
      as (cs & Hcs & HP & _); [by intros []| |by exists cs].
    intros items tickets w0 item a _ _ Ha.
    by apply (mh_action_leaves_assignee _ _ _ _ Ha).
  - intros platform r data k. rewrite Object_keys_updateData.
    destruct (pulls (rule_title r) platform),
             (pulls (rule_description r) platform),
             (pulls (rule_status r) platform),
             (pulls (rule_priority r) platform); cbn; intros Hk; in_list.
  - unfold hubspot_properties. intros Hk. in_list.
Qed.

Lemma C10_witness :
  let env := Sim.remote [Scenario.bug1] [Scenario.task] Sim.never in
  ∃ cs, calls (performFullSync env Sim.enabled_world).2 =
          calls Sim.enabled_world ++ cs ∧
        Forall (leaves_assignee defaultMapping) cs.
Proof.
  intros env.
  destruct (proj1 (proj2 (proj2 (C10_assignee_rule_inert env
                                   Sim.enabled_world))))
    as (cs & Hcs & _ & Hleaves).
  exists cs. split; [exact Hcs|]. apply Hleaves.
  intros Hin. cbv [synced_columns] in Hin. cbn in Hin. in_list.
Defined.

(** C10, as stated, fails: the field-mapping form maps the description to
    the column id "person", which is also the column id mapped for the
    assignee, and sync is enabled; the item created for "Bug 1" then gets
    the content of the ticket in its assignee column. *)
Lemma C10_counterexample :
  let env := Sim.remote [Scenario.bug1] [] Sim.never in
  let body := {| description_monday := VStr "person";
                 status_monday := VUndef; priority_monday := VUndef;
                 assignee_monday := VUndef |} in
  let w :=
    (post_enable env
       (post_field_mapping env (λ _, "") body initial_world).2).2 in
  let w' := (syncHubSpotToMonday env w).2 in
  fieldMapping (config w) =
    {| map_description := "person"; map_status := "status";
       map_priority := "priority"; map_assignee := "person" |} ∧
  calls w' =
    [HubSpotGetTickets ""; MondayItemsQuery "" "";
     MondayCreateItem "" "" (VStr "Bug 1") {[ "person" := VStr "crash" ]}] ∧
  ¬ Forall (leaves_assignee (fieldMapping (config w))) (calls w').
Proof.
  intros env body w w'.
  assert (calls w' =
    [HubSpotGetTickets ""; MondayItemsQuery "" "";
     MondayCreateItem "" "" (VStr "Bug 1") {[ "person" := VStr "crash" ]}])
    as Hcalls by by vm_compute.
  split_and!; [by vm_compute|done|]. rewrite Hcalls. intros H.
  apply Forall_cons in H as [_ H]. apply Forall_cons in H as [_ H].
  apply Forall_cons in H as [H _]. by vm_compute in H.
Qed.

(** ** Running a pass twice *)






(** * Further properties *)

(** ** Invariants of the running server *)

Section Invariant.

Context (env : Env) (JSON_stringify : FieldMapping → string).
Context (I : World → Prop).

Hypothesis I_logged : ∀ w msg t, I w → I (logged env msg t w).
Hypothesis I_view : ∀ w w', view w' = view w → I w → I w'.
Hypothesis I_rules :
  ∀ w body, I w → I (set_rules (rules_of_body body) w).2.
Hypothesis I_mapping :
  ∀ w body, I w → I (set_mapping (mapping_of_body body) w).2.

(** [m] keeps the invariant, whether it returns or throws. *)
Definition keeps {A} (m : M A) : Prop := ∀ w, I w → I (m w).2.

Lemma keeps_silent {A} (m : M A) : (∀ w, view (m w).2 = view w) → keeps m.
Proof. intros Hm w Hw. by apply (I_view w). Qed.

Lemma keeps_bind {A B} (m : M A) (k : A → M B) :
  keeps m → (∀ a, keeps (k a)) → keeps (bind m k).
Proof.
  intros Hm Hk w Hw. unfold bind. specialize (Hm w Hw).
  destruct (m w) as [[a|msg] w1]; [by apply Hk|done].
Qed.

Lemma keeps_try_catch {A} (m : M A) (h : string → M A) :
  keeps m → (∀ msg, keeps (h msg)) → keeps (try_catch m h).
Proof.
  intros Hm Hh w Hw. unfold try_catch. specialize (Hm w Hw).
  destruct (m w) as [[a|msg] w1]; [done|by apply Hh].
Qed.

Lemma keeps_for_of {A S} (xs : list A) (body : A → S → M S) s :
  (∀ x s, keeps (body x s)) → keeps (for_of xs body s).
Proof.
  intros Hbody. revert s. induction xs as [|x xs IH]; intros s; cbn.
  - by apply keeps_silent.
  - by apply keeps_bind.
Qed.

Lemma keeps_logSync msg t : keeps (logSync env msg t).
Proof. intros w Hw. by apply I_logged. Qed.

Lemma keeps_reading {A} (x : Maybe A) p : keeps (read x p).
Proof. apply keeps_silent. intros w. by destruct x. Qed.

Lemma keeps_mutate c : keeps (mutate env c).
Proof.
  apply keeps_silent. intros w. unfold mutate.
  by destruct (mutation_reply env _).
Qed.

Lemma keeps_axios_get_tickets : keeps (axios_get_tickets env).
Proof.
  apply keeps_silent. intros w. unfold axios_get_tickets.
  by destruct (tickets_reply env _).
Qed.

Lemma keeps_axios_post_items_query boardId :
  keeps (axios_post_items_query env boardId).
Proof.
  apply keeps_silent. intros w. unfold axios_post_items_query.
  by destruct (boards_reply env _).
Qed.

Ltac keep :=
  repeat match goal with
         | |- keeps (logSync _ _ _) => apply keeps_logSync
         | |- keeps (read _ _) => apply keeps_reading
         | |- keeps (mutate _ _) => apply keeps_mutate
         | |- keeps (axios_get_tickets _) => apply keeps_axios_get_tickets
         | |- keeps (axios_post_items_query _ _) =>
             apply keeps_axios_post_items_query
         | |- keeps (for_of _ _ _) => apply keeps_for_of; intros
         | |- keeps (try_catch _ _) => apply keeps_try_catch; [|intros]
         | |- keeps (bind _ _) => apply keeps_bind; [|intros]
         | |- keeps (if ?b then _ else _) => destruct b
         | |- keeps (match ?x with Some _ => _ | None => _ end) =>
             destruct x
         | |- keeps _ => by apply keeps_silent
         end.

Lemma keeps_syncHubSpotToMonday : keeps (syncHubSpotToMonday env).
Proof.
  unfold syncHubSpotToMonday, hm_try, hm_snapshots, hm_body, getHubSpotTickets,
    getMondayItems, createMondayItem, updateMondayItem, mondayQuery.
  keep.
Qed.

Lemma keeps_syncMondayToHubSpot : keeps (syncMondayToHubSpot env).
Proof.
  unfold syncMondayToHubSpot, mh_try, mh_snapshots, mh_body, getHubSpotTickets,
    getMondayItems, createHubSpotTicket, updateHubSpotTicket, mondayQuery.
  keep.
Qed.

Lemma keeps_performFullSync : keeps (performFullSync env).
Proof.
  apply keeps_bind;
    [apply keeps_syncHubSpotToMonday|intros; apply keeps_syncMondayToHubSpot].
Qed.

Lemma keeps_timer_fires : keeps (timer_fires env).
Proof.
  intros w Hw. unfold timer_fires. destruct (timers w) as [|[] ds]; [done|..].
  - apply keeps_syncHubSpotToMonday. by apply (I_view w).
  - apply keeps_syncMondayToHubSpot. by apply (I_view w).
Qed.

Lemma keeps_handle e : keeps (handle env JSON_stringify e).
Proof.
  destruct e; cbn.
  - unfold post_config. keep.
  - unfold post_rules. apply keeps_bind; [intros w; apply I_rules|intros; keep].
  - unfold post_field_mapping. apply keeps_try_catch; [|intros; keep].
    apply keeps_bind; [intros w; apply I_mapping|intros; keep].
  - unfold post_enable. keep.
  - unfold post_disable. keep.
  - unfold post_sync. apply keeps_bind; [keep|intros; apply keeps_performFullSync].
  - unfold webhook_hubspot. keep.
  - unfold webhook_monday. keep.
  - unfold cron_tick. apply keeps_bind; [keep|intros cfg].
    destruct (syncEnabled cfg); [|keep].
    apply keeps_bind; [keep|intros; apply keeps_performFullSync].
  - apply keeps_timer_fires.
Qed.

Lemma keeps_run es w : I w → I (run env JSON_stringify es w).
Proof.
  unfold run. revert w. induction es as [|e es IH]; intros w Hw; [done|].
  cbn. apply IH. by apply keeps_handle.
Qed.

End Invariant.

(** ** The log *)

Lemma logged_syncLog env msg t w :
  syncLog (config (logged env msg t w)) =
    let log1 := {| timestamp := clock env (dates w); message := msg;
                   type := t |} :: syncLog (config w) in
    if decide (50 < length log1) then removelast log1 else log1.
Proof. done. Qed.

Lemma logged_console env msg t w :
  console (logged env msg t w) = console w ++ [render t msg].
Proof. done. Qed.

Lemma logged_push env msg t w :
  (length (syncLog (config w)) ≤ 50)%nat →
  syncLog (config (logged env msg t w)) =
    take 50 ({| timestamp := clock env (dates w); message := msg; type := t |}
             :: syncLog (config w)).
Proof.
  intros Hlen. rewrite logged_syncLog. cbv zeta. case_decide as H.
  - rewrite removelast_firstn_len. cbn [length Nat.pred] in *.
    by replace (length (syncLog (config w))) with 50 by lia.
  - cbn [length] in H. rewrite take_ge; [done|]. cbn [length]. lia.
Qed.

(** One call of [logSync]: the console gets one more line, no request is
    issued and the settings stay; a log of at most 50 entries becomes the
    new entry followed by the old ones, cut to 50; a longer log (which the
    server never has) is not cut back, it keeps its length. *)
Theorem logSync_pushes_and_truncates (env : Env) (msg : string)
    (t : Severity) (w : World) :
  let entry := {| timestamp := clock env (dates w); message := msg;
                  type := t |} in
  let w' := (logSync env msg t w).2 in
  (logSync env msg t w).1 = Ret () ∧
  console w' = console w ++ ["[" +:+ upper t +:+ "] " +:+ msg] ∧
  calls w' = calls w ∧
  settings (config w') = settings (config w) ∧
  dates w' = S (dates w) ∧
  ((length (syncLog (config w)) ≤ 50)%nat →
   syncLog (config w') = take 50 (entry :: syncLog (config w))) ∧
  ((50 < length (syncLog (config w)))%nat →
   syncLog (config w') = entry :: removelast (syncLog (config w))).
Proof.
  intros entry w'. split_and!; try done.
  - apply logged_push.
  - intros Hlen. subst w'. change (logSync env msg t w).2 with (logged env msg t w).
    rewrite logged_syncLog. cbv zeta. rewrite decide_True by (cbn; lia).
    destruct (syncLog (config w)); [cbn in Hlen; lia|done].
Qed.

Lemma logSync_pushes_and_truncates_witness :
  let env := Sim.remote [] [] Sim.never in
  let full := set_config
                (set_syncLog
                   (replicate 50 {| timestamp := "T"; message := "old";
                                    type := info |})
                   initial_config) initial_world in
  let w' := (logSync env "new" error full).2 in
  head (syncLog (config w')) =
    Some {| timestamp := "T0"; message := "new"; type := error |} ∧
  length (syncLog (config w')) = 50.
Proof.
  intros env full w'.
  destruct (logSync_pushes_and_truncates env "new" error full)
    as (_ & _ & _ & _ & _ & H & _).
  subst w'. rewrite H; [by vm_compute|].
  apply (bool_decide_unpack _). by vm_compute.
Defined.

Lemma log_bounded_logged env msg t w :
  (length (syncLog (config w)) ≤ 50)%nat →
  (length (syncLog (config (logged env msg t w))) ≤ 50)%nat.
Proof.
  intros Hlen. rewrite (logged_push _ _ _ _ Hlen), length_take. lia.
Qed.

Lemma log_mirrors_logged env msg t w :
  log_mirrors_console w → log_mirrors_console (logged env msg t w).
Proof.
  intros [Hc Hlog]. unfold log_mirrors_console. rewrite logged_console.
  split; [rewrite length_app; lia|].
  assert (length (syncLog (config w)) ≤ 50)%nat as Hlen.
  { rewrite <- (length_fmap entry_line), Hlog, length_take. lia. }
  rewrite (logged_push _ _ _ _ Hlen), drop_app_le, reverse_snoc by done.
  rewrite fmap_take. cbn. f_equal. rewrite Hlog, take_take.
  by replace (49 `min` 50) with 49 by lia.
Qed.

(** Whatever events the server handles, in whatever order, a log of at
    most 50 entries never grows beyond 50. *)
Theorem syncLog_never_exceeds_50 (env : Env)
    (JSON_stringify : FieldMapping → string) (es : list Event) (w : World) :
  (length (syncLog (config w)) ≤ 50)%nat →
  (length (syncLog (config (run env JSON_stringify es w))) ≤ 50)%nat.
Proof.
  apply (keeps_run env JSON_stringify
           (λ w, (length (syncLog (config w)) ≤ 50)%nat)).
  - intros. by apply log_bounded_logged.
  - intros v v' [= -> _ _ _]. done.
  - done.
  - done.
Qed.

Lemma syncLog_never_exceeds_50_witness :
  let env := Sim.remote [Scenario.bug1] [] Sim.never in
  (length (syncLog (config
     (run env (λ _, "{}") (PostEnable :: replicate 30 CronTick)
        initial_world))) ≤ 50)%nat.
Proof.
  intros env. apply syncLog_never_exceeds_50. cbn. lia.
Defined.

(** In every state the server reaches from start-up by handling events,
    the log that the dashboard shows is exactly the 50 newest lines that
    [logSync] printed on the console, newest first (the two banner lines of
    the start-up callback are not log entries). *)
Theorem syncLog_mirrors_console (env : Env)
    (JSON_stringify : FieldMapping → string) (PORT : string)
    (es : list Event) :
  let w := run env JSON_stringify es (started env PORT) in
  entry_line <$> syncLog (config w) = take 50 (reverse (drop 2 (console w))).
Proof.
  cbv zeta.
  apply (keeps_run env JSON_stringify log_mirrors_console).
  - intros. by apply log_mirrors_logged.
  - unfold log_mirrors_console. intros v v' [= -> -> _ _]. done.
  - done.
  - done.
  - split; [cbn; lia|done].
Qed.

(** The requests of a pass that completes, in full: the two fetches, in the
    order of the direction, then one request per record of the source
    snapshot, in the order of the snapshot: a create when the index of the
    target snapshot has no entry for its key, else an update when some field
    is pulled, else nothing. No request is repeated and none is left out. *)
Theorem completed_pass_requests (env : Env) (w w0 w1 : World)
    (tickets : list Ticket) (items : list Item) :
  syncEnabled (config w) = true →
  (hm_snapshots env w = (Ret (tickets, items), w0) →
   hm_try env w = (Ret (), w1) →
   syncHubSpotToMonday env w = (Ret (), w1) ∧
   calls w1 =
     calls w
     ++ [HubSpotGetTickets (hubspotToken (config w));
         MondayItemsQuery (mondayToken (config w)) (mondayBoardId (config w))]
     ++ omap (λ ticket,
                act_call <$>
                  hm_action (build_map name items) (config w) ticket)
          tickets) ∧
  (mh_snapshots env w = (Ret (items, tickets), w0) →
   mh_try env w = (Ret (), w1) →
   syncMondayToHubSpot env w = (Ret (), w1) ∧
   calls w1 =
     calls w
     ++ [MondayItemsQuery (mondayToken (config w)) (mondayBoardId (config w));
         HubSpotGetTickets (hubspotToken (config w))]
     ++ omap (λ item,
                act_call <$>
                  mh_action
                    (build_map (λ ticket, subject (properties ticket)) tickets)
                    (config w) item)
          items).
Proof.
  intros Hon. split; intros Hs Htry.
  - split; [by apply sync_enabled_returns|].
    destruct (hm_try_returns env w tickets items w0 w1 Hs Htry) as (-> & _).
    by rewrite (hm_snapshots_calls env w _ _ Hs), <- app_assoc.
  - split; [by apply sync_enabled_returns|].
    destruct (mh_try_returns env w items tickets w0 w1 Hs Htry) as (-> & _).
    by rewrite (mh_snapshots_calls env w _ _ Hs), <- app_assoc.
Qed.

Lemma completed_pass_requests_witness :
  let env := Sim.remote [Scenario.bug1; Scenario.bug2] [Scenario.item_bug2]
               Sim.never in
  calls (hm_try env Sim.enabled_world).2 =
    [HubSpotGetTickets ""; MondayItemsQuery "" "";
     MondayCreateItem "" "" (VStr "Bug 1") {[ "text" := VStr "crash" ]};
     MondayChangeColumns "" "" "8" {[ "text" := VStr "slow" ]}].
Proof.
  intros env.
  destruct (completed_pass_requests env Sim.enabled_world
              (hm_snapshots env Sim.enabled_world).2
              (hm_try env Sim.enabled_world).2
              [Scenario.bug1; Scenario.bug2] [Scenario.item_bug2] eq_refl)
    as [H _].
  destruct H as [_ H]; [by vm_compute|by vm_compute|].
  vm_compute in H |- *. exact H.
Defined.

(** ** What the summary counts *)

Lemma hm_action_created mondayMap c ticket :
  act_created <$> hm_action mondayMap c ticket = Some true ↔
  mondayMap !! subject (properties ticket) = None.
Proof.
  unfold hm_action. destruct (mondayMap !! _); [case_bool_decide|]; by split.
Qed.

Lemma hm_action_updated mondayMap c ticket :
  act_created <$> hm_action mondayMap c ticket = Some false ↔
  is_Some (mondayMap !! subject (properties ticket)) ∧
  Object_keys (updateData "hubspot" (fieldRules c) (ticketData ticket)) ≠ [].
Proof.
  unfold hm_action. destruct (mondayMap !! _) as [existingItem|].
  - case_bool_decide as Hlen; cbn.
    + split; [intros _|done]. split; [by eexists|].
      intros Hnil. rewrite Hnil in Hlen. cbn in Hlen. lia.
    + split; [done|]. intros [_ Hne].
      destruct (Object_keys _); [done|]. cbn in Hlen. lia.
  - split; [done|]. by intros [[? [=]] _].
Qed.

Lemma mh_action_created hubspotMap c item :
  act_created <$> mh_action hubspotMap c item = Some true ↔
  hubspotMap !! name item = None.
Proof.
  unfold mh_action. destruct (hubspotMap !! _); [case_bool_decide|]; by split.
Qed.

Lemma mh_action_updated hubspotMap c item :
  act_created <$> mh_action hubspotMap c item = Some false ↔
  is_Some (hubspotMap !! name item) ∧
  Object_keys (updateData "monday" (fieldRules c)
                 (itemData (fieldMapping c) item)) ≠ [].
Proof.
  unfold mh_action. destruct (hubspotMap !! _) as [existingTicket|].
  - case_bool_decide as Hlen; cbn.
    + split; [intros _|done]. split; [by eexists|].
      intros Hnil. rewrite Hnil in Hlen. cbn in Hlen. lia.
    + split; [done|]. intros [_ Hne].
      destruct (Object_keys _); [done|]. cbn in Hlen. lia.
  - split; [done|]. by intros [[? [=]] _].
Qed.

Lemma filter_disjoint_length {A} (P Q : A → Prop)
    `{!∀ x, Decision (P x)} `{!∀ x, Decision (Q x)} (l : list A) :
  (∀ x, P x → Q x → False) →
  (length (filter P l) + length (filter Q l) ≤ length l)%nat.
Proof.
  intros HPQ. induction l as [|x l IH]; [done|]. rewrite !filter_cons.
  destruct (decide (P x)) as [HP|]; destruct (decide (Q x)) as [HQ|]; cbn;
    [destruct (HPQ x HP HQ)|lia..].
Qed.

(** The summary line of a pass that completes reports the partition of the
    source snapshot: [created] is the number of source records whose key the
    index of the target snapshot lacks, [updated] the number of those it
    holds and for which some field is pulled. A record counts once per
    occurrence in the snapshot, whether or not its key occurs twice. *)
Theorem summary_counts_the_partition (env : Env) (w w0 w1 : World)
    (tickets : list Ticket) (items : list Item) :
  (hm_snapshots env w = (Ret (tickets, items), w0) →
   hm_try env w = (Ret (), w1) →
   let mondayMap := build_map name items in
   let created :=
     length (filter (λ t, mondayMap !! subject (properties t) = None)
               tickets) in
   let updated :=
     length (filter
               (λ t, is_Some (mondayMap !! subject (properties t)) ∧
                     Object_keys (updateData "hubspot" (fieldRules (config w))
                                    (ticketData t)) ≠ [])
               tickets) in
   last (console w1) =
     Some ("[SUCCESS] HubSpot → Monday sync complete: " +:+ pretty created
           +:+ " created, " +:+ pretty updated +:+ " updated") ∧
   (created + updated ≤ length tickets)%nat) ∧
  (mh_snapshots env w = (Ret (items, tickets), w0) →
   mh_try env w = (Ret (), w1) →
   let hubspotMap := build_map (λ t, subject (properties t)) tickets in
   let created :=
     length (filter (λ i, hubspotMap !! name i = None) items) in
   let updated :=
     length (filter
               (λ i, is_Some (hubspotMap !! name i) ∧
                     Object_keys (updateData "monday" (fieldRules (config w))
                                    (itemData (fieldMapping (config w)) i))
                     ≠ [])
               items) in
   last (console w1) =
     Some ("[SUCCESS] Monday → HubSpot sync complete: " +:+ pretty created
           +:+ " created, " +:+ pretty updated +:+ " updated") ∧
   (created + updated ≤ length items)%nat).
Proof.
  split; intros Hs Htry; cbv zeta.
  - destruct (hm_try_returns env w tickets items w0 w1 Hs Htry) as (_ & -> & _).
    unfold tally.
    rewrite (list_filter_iff _ _ tickets
               (λ t, hm_action_created (build_map name items) (config w) t)),
      (list_filter_iff _ _ tickets
         (λ t, hm_action_updated (build_map name items) (config w) t)).
    split; [done|]. apply filter_disjoint_length.
    intros t Hnone [[? Hsome] _]. by rewrite Hnone in Hsome.
  - destruct (mh_try_returns env w items tickets w0 w1 Hs Htry) as (_ & -> & _).
    unfold tally.
    rewrite (list_filter_iff _ _ items
               (λ i, mh_action_created
                       (build_map (λ t, subject (properties t)) tickets)
                       (config w) i)),
      (list_filter_iff _ _ items
         (λ i, mh_action_updated
                 (build_map (λ t, subject (properties t)) tickets)
                 (config w) i)).
    split; [done|]. apply filter_disjoint_length.
    intros i Hnone [[? Hsome] _]. by rewrite Hnone in Hsome.
Qed.

Lemma summary_counts_the_partition_witness :
  let env := Sim.remote [Scenario.bug1; Scenario.bug1; Scenario.bug2]
               [Scenario.item_bug2] Sim.never in
  last (console (hm_try env Sim.enabled_world).2) =
    Some "[SUCCESS] HubSpot → Monday sync complete: 2 created, 1 updated".
Proof.
  intros env.
  destruct (summary_counts_the_partition env Sim.enabled_world
              (hm_snapshots env Sim.enabled_world).2
              (hm_try env Sim.enabled_world).2
              [Scenario.bug1; Scenario.bug1; Scenario.bug2]
              [Scenario.item_bug2])
    as [H _].
  destruct H as [H _]; [by vm_compute|by vm_compute|].
  vm_compute in H |- *. exact H.
Defined.

(** ** Duplicate keys in the source snapshot *)

Lemma created_names_plan mondayMap c tickets :
  created_names (plan (hm_action mondayMap) c tickets) =
    ticket_subject <$> filter (λ t, mondayMap !! ticket_subject t = None) tickets.
Proof.
  unfold plan, created_names, ticket_subject.
  induction tickets as [|t l IH]; [done|].
  rewrite filter_cons. cbn. unfold hm_action at 1.
  destruct (mondayMap !! subject (properties t)) as [existingItem|].
  - rewrite decide_False by done. by case_bool_decide.
  - rewrite decide_True by done. cbn. by rewrite IH.
Qed.

Lemma created_subjects_plan hubspotMap c items :
  created_subjects (plan (mh_action hubspotMap) c items) =
    name <$> filter (λ i, hubspotMap !! name i = None) items.
Proof.
  unfold plan, created_subjects.
  induction items as [|i l IH]; [done|].
  rewrite filter_cons. cbn. unfold mh_action at 1.
  destruct (hubspotMap !! name i) as [existingTicket|].
  - rewrite decide_False by done. by case_bool_decide.
  - rewrite decide_True by done. cbn. by rewrite IH.
Qed.

(** The index is built once, before the loop, and a create does not enter
    it: in a pass that completes, the records created are, in order, the
    source records whose key the target snapshot lacks, one create per
    occurrence. A key that occurs twice in the source snapshot and not in
    the target one is created twice. *)
Theorem one_create_per_unmatched_occurrence (env : Env) (w w0 w1 : World)
    (tickets : list Ticket) (items : list Item) :
  (hm_snapshots env w = (Ret (tickets, items), w0) →
   hm_try env w = (Ret (), w1) →
   ∃ cs,
     calls w1 = calls w ++ cs ∧
     created_names cs =
       ticket_subject <$>
         filter (λ t, build_map name items !! ticket_subject t = None)
           tickets) ∧
  (mh_snapshots env w = (Ret (items, tickets), w0) →
   mh_try env w = (Ret (), w1) →
   ∃ cs,
     calls w1 = calls w ++ cs ∧
     created_subjects cs =
       name <$>
         filter (λ i, build_map ticket_subject tickets !! name i = None)
           items).
Proof.
  split; intros Hs Htry.
  - destruct (hm_try_returns env w tickets items w0 w1 Hs Htry) as (Hc & _).
    rewrite (hm_snapshots_calls env w _ _ Hs), <- app_assoc in Hc.
    eexists. split; [exact Hc|]. cbn. apply created_names_plan.
  - destruct (mh_try_returns env w items tickets w0 w1 Hs Htry) as (Hc & _).
    rewrite (mh_snapshots_calls env w _ _ Hs), <- app_assoc in Hc.
    eexists. split; [exact Hc|]. cbn. apply created_subjects_plan.
Qed.

Lemma one_create_per_unmatched_occurrence_witness :
  let env := Sim.remote [Scenario.bug1; Scenario.bug1; Scenario.bug2]
               [Scenario.item_bug2] Sim.never in
  ∃ cs,
    calls (hm_try env Sim.enabled_world).2 = calls Sim.enabled_world ++ cs ∧
    created_names cs = [VStr "Bug 1"; VStr "Bug 1"].
Proof.
  intros env.
  destruct (one_create_per_unmatched_occurrence env Sim.enabled_world
              (hm_snapshots env Sim.enabled_world).2
              (hm_try env Sim.enabled_world).2
              [Scenario.bug1; Scenario.bug1; Scenario.bug2]
              [Scenario.item_bug2])
    as [H _].
  destruct H as (cs & H1 & H2); [by vm_compute|by vm_compute|].
  exists cs. vm_compute in H1, H2 |- *. by split.
Defined.

(** ** [lastSync] *)

(** [lastSync] is written by a pass that completes, and by nothing else in
    a pass: when the [try] block returns, it is the reading of the clock
    taken after the summary was logged; when the block throws, for a failed
    fetch or a failed write alike, it is what it was. *)
Theorem lastSync_marks_completed_passes (env : Env) (w : World) :
  syncEnabled (config w) = true →
  (let w' := (syncHubSpotToMonday env w).2 in
   match (hm_try env w).1 with
   | Ret _ => ∃ n, dates w' = S n ∧ lastSync (config w') = Some (clock env n)
   | Throw _ => lastSync (config w') = lastSync (config w)
   end) ∧
  (let w' := (syncMondayToHubSpot env w).2 in
   match (mh_try env w).1 with
   | Ret _ => ∃ n, dates w' = S n ∧ lastSync (config w') = Some (clock env n)
   | Throw _ => lastSync (config w') = lastSync (config w)
   end).
Proof.
  intros Hon. split.
  - rewrite syncHubSpotToMonday_pass, hm_try_pass.
    apply (pass_lastSync env (hm_snapshots env) hm_start get_tickets fst _
             hm_act hm_summary (hm_snapshots_spec env)
             (λ snap, hm_body_action env _) (λ snap, hm_action_settings _)
             (λ snap, hm_action_quiet _) w Hon).
  - rewrite syncMondayToHubSpot_pass, mh_try_pass.
    apply (pass_lastSync env (mh_snapshots env) mh_start items_query fst _
             mh_act mh_summary (mh_snapshots_spec env)
             (λ snap, mh_body_action env _) (λ snap, mh_action_settings _)
             (λ snap, mh_action_quiet _) w Hon).
Qed.

Lemma lastSync_marks_completed_passes_witness :
  let ok := Sim.remote [Scenario.bug1] [] Sim.never in
  let ko := Sim.remote [Scenario.bug1] [] Scenario.create_rejected in
  (∃ n, dates (syncHubSpotToMonday ok Sim.enabled_world).2 = S n ∧
        lastSync (config (syncHubSpotToMonday ok Sim.enabled_world).2) =
          Some ("T" +:+ pretty n)) ∧
  lastSync (config (syncHubSpotToMonday ko Sim.enabled_world).2) = None.
Proof.
  intros ok ko. split.
  - destruct (lastSync_marks_completed_passes ok Sim.enabled_world eq_refl)
      as [H _].
    vm_compute in H. destruct H as (n & Hn & H). exists n.
    vm_compute. by split.
  - destruct (lastSync_marks_completed_passes ko Sim.enabled_world eq_refl)
      as [H _].
    vm_compute in H |- *. exact H.
Defined.

(** ** What a pass touches *)

(** A request of the HubSpot → Monday pass: a fetch, or a write to Monday,
    on the board and with the token of [c]. *)
Definition hm_request (c : Config) (r : RemoteCall) : Prop :=
  match r with
  | HubSpotGetTickets _ | MondayItemsQuery _ _ => True
  | MondayCreateItem token boardId _ _
  | MondayChangeColumns token boardId _ _ =>
      token = mondayToken c ∧ boardId = mondayBoardId c
  | HubSpotPostTicket _ _ | HubSpotPatchTicket _ _ _ => False
  end.

(** A request of the Monday → HubSpot pass: a fetch, or a write to HubSpot
    with the token of [c]. *)
Definition mh_request (c : Config) (r : RemoteCall) : Prop :=
  match r with
  | HubSpotGetTickets _ | MondayItemsQuery _ _ => True
  | HubSpotPostTicket token _ | HubSpotPatchTicket token _ _ =>
      token = hubspotToken c
  | MondayCreateItem _ _ _ _ | MondayChangeColumns _ _ _ _ => False
  end.

Lemma hm_request_settings c c' r :
  settings c = settings c' → hm_request c r → hm_request c' r.
Proof.
  unfold settings. intros [= _ H2 H3 _ _ _]. destruct r; cbn; by rewrite ?H2, ?H3.
Qed.

Lemma mh_request_settings c c' r :
  settings c = settings c' → mh_request c r → mh_request c' r.
Proof.
  unfold settings. intros [= H1 _ _ _ _ _]. destruct r; cbn; by rewrite ?H1.
Qed.

Section Touches.

Context (env : Env).

Lemma frame_refl w : frame w w [] [].
Proof. by split; rewrite ?app_nil_r. Qed.

Lemma hm_frame w : ∃ cs ls, frame w (syncHubSpotToMonday env w).2 cs ls.
Proof.
  destruct (syncEnabled (config w)) eqn:Hon.
  - destruct (hm_pass_spec env w Hon) as (cs & ls & _ & Hfr & _). eauto.
  - rewrite syncHubSpotToMonday_pass, pass_disabled by done.
    eexists _, _. apply frame_refl.
Qed.

Lemma mh_frame w : ∃ cs ls, frame w (syncMondayToHubSpot env w).2 cs ls.
Proof.
  destruct (syncEnabled (config w)) eqn:Hon.
  - destruct (mh_pass_spec env w Hon) as (cs & ls & _ & Hfr & _). eauto.
  - rewrite syncMondayToHubSpot_pass, pass_disabled by done.
    eexists _, _. apply frame_refl.
Qed.

Lemma performFullSync_eq w :
  performFullSync env w =
    syncMondayToHubSpot env (syncHubSpotToMonday env w).2.
Proof.
  unfold performFullSync, bind.
  pose proof (proj1 (sync_returns env w)) as Hret.
  by destruct (syncHubSpotToMonday env w) as [[[]|msg] w1].
Qed.

Lemma hm_calls w :
  ∃ cs,
    calls (syncHubSpotToMonday env w).2 = calls w ++ cs ∧
    Forall (hm_request (config w)) cs.
Proof.
  destruct (pass_calls env (hm_snapshots env) hm_start get_tickets fst
              (λ snap, hm_body env (build_map name snap.2)) hm_act hm_summary
              (hm_snapshots_spec env) (λ snap, hm_body_action env _)
              (λ snap, hm_action_settings _) (λ snap, hm_action_quiet _)
              (hm_request (config w)) w) as (cs & Hcs & HP & _).
  - by intros [].
  - intros snap w0 ticket a _ _. unfold hm_act, hm_action.
    destruct (_ !! _); [case_bool_decide|]; by intros [= <-].
  - exists cs. by rewrite <- syncHubSpotToMonday_pass in Hcs.
Qed.

Lemma mh_calls w :
  ∃ cs,
    calls (syncMondayToHubSpot env w).2 = calls w ++ cs ∧
    Forall (mh_request (config w)) cs.
Proof.
  destruct (pass_calls env (mh_snapshots env) mh_start items_query fst
              (λ snap, mh_body env
                 (build_map (λ ticket, subject (properties ticket)) snap.2))
              mh_act mh_summary
              (mh_snapshots_spec env) (λ snap, mh_body_action env _)
              (λ snap, mh_action_settings _) (λ snap, mh_action_quiet _)
              (mh_request (config w)) w) as (cs & Hcs & HP & _).
  - by intros [].
  - intros snap w0 item a _ _. unfold mh_act, mh_action.
    destruct (_ !! _); [case_bool_decide|]; by intros [= <-].
  - exists cs. by rewrite <- syncMondayToHubSpot_pass in Hcs.
Qed.

End Touches.

(** A pass writes to its target platform only, with the credentials of
    [config]: the HubSpot → Monday pass never creates or patches a ticket,
    the Monday → HubSpot pass never creates or changes an item, whether the
    pass completes or fails. A full sync is the first pass followed by the
    second, which runs whatever became of the first: every request of the
    first precedes every request of the second. *)
Theorem pass_writes_to_its_target_only (env : Env) (w : World) :
  (∃ cs,
     calls (syncHubSpotToMonday env w).2 = calls w ++ cs ∧
     Forall (hm_request (config w)) cs) ∧
  (∃ cs,
     calls (syncMondayToHubSpot env w).2 = calls w ++ cs ∧
     Forall (mh_request (config w)) cs) ∧
  (∃ cs1 cs2,
     performFullSync env w =
       syncMondayToHubSpot env (syncHubSpotToMonday env w).2 ∧
     calls (syncHubSpotToMonday env w).2 = calls w ++ cs1 ∧
     calls (performFullSync env w).2 = calls w ++ cs1 ++ cs2 ∧
     Forall (hm_request (config w)) cs1 ∧
     Forall (mh_request (config w)) cs2).
Proof.
  split_and!; [apply hm_calls|apply mh_calls|].
  destruct (hm_calls env w) as (cs1 & Hcs1 & H1).
  destruct (mh_calls env (syncHubSpotToMonday env w).2) as (cs2 & Hcs2 & H2).
  destruct (hm_frame env w) as (? & ? & Hfr).
  exists cs1, cs2. rewrite performFullSync_eq, Hcs2, Hcs1, app_assoc.
  split_and!; try done.
  eapply Forall_impl; [exact H2|]. intros r.
  apply mh_request_settings, Hfr.
Qed.

(** In [config], a pass writes [syncLog] and [lastSync] and nothing else:
    the credentials, the board id, [syncEnabled], the field rules and the
    field mapping are as they were, and so are the pending timers; the
    console and the request history only grow. *)
Theorem pass_leaves_the_settings (env : Env) (w : World) :
  (∃ cs ls, frame w (syncHubSpotToMonday env w).2 cs ls) ∧
  (∃ cs ls, frame w (syncMondayToHubSpot env w).2 cs ls) ∧
  (∃ cs ls, frame w (performFullSync env w).2 cs ls).
Proof.
  split_and!; [apply hm_frame|apply mh_frame|].
  destruct (hm_frame env w) as (cs1 & ls1 & H1).
  destruct (mh_frame env (syncHubSpotToMonday env w).2) as (cs2 & ls2 & H2).
  rewrite performFullSync_eq. eexists _, _. by eapply frame_trans.
Qed.

(** ** Webhooks and timers *)

(** The webhook handler of a direction. *)
Definition webhook (env : Env) (d : Direction) : M unit :=
  match d with
  | HubSpotToMonday => webhook_hubspot env
  | MondayToHubSpot => webhook_monday env
  end.

Lemma webhook_enabled env d w :
  syncEnabled (config w) = true →
  ∃ line,
    webhook env d w =
      (Ret (),
       {| config := config (logged env line info w); calls := calls w;
          console := console w ++ [render info line];
          dates := S (dates w); timers := timers w ++ [d] |}).
Proof.
  intros Hon. destruct d; eexists; cbn;
    unfold webhook_hubspot, webhook_monday, bind, get_config; by rewrite Hon.
Qed.

(** While sync is enabled, every webhook notification queues one pass of
    its direction behind those already pending, and issues no request
    itself: nothing merges, replaces or drops a pending pass, so [k]
    notifications leave [k] more passes pending. *)
Theorem webhooks_queue_one_pass_each (env : Env) (ds : list Direction)
    (w : World) :
  syncEnabled (config w) = true →
  let w' := foldl (λ w d, (webhook env d w).2) w ds in
  timers w' = timers w ++ ds ∧
  calls w' = calls w ∧
  settings (config w') = settings (config w) ∧
  length (console w') = length (console w) + length ds.
Proof.
  revert w. induction ds as [|d ds IH]; intros w Hon; cbn.
  - by rewrite app_nil_r, Nat.add_0_r.
  - destruct (webhook_enabled env d w Hon) as [line ->]. cbn.
    destruct (IH {| config := config (logged env line info w);
                    calls := calls w;
                    console := console w ++ [render info line];
                    dates := S (dates w); timers := timers w ++ [d] |})
      as (-> & -> & -> & ->); [done|]. cbn.
    rewrite <- app_assoc, length_app. cbn. split_and!; try done. lia.
Qed.

Lemma webhooks_queue_one_pass_each_witness :
  let env := Sim.remote [Scenario.bug1] [] Sim.never in
  let ds := [HubSpotToMonday; HubSpotToMonday; MondayToHubSpot] in
  timers (foldl (λ w d, (webhook env d w).2) Sim.enabled_world ds) = ds ∧
  calls (foldl (λ w d, (webhook env d w).2) Sim.enabled_world ds) = [].
Proof.
  intros env ds.
  destruct (webhooks_queue_one_pass_each env ds Sim.enabled_world eq_refl)
    as (H1 & H2 & _).
  by split.
Defined.

(** ** The payload of an update *)

Lemma obj_get_updateData platform r data :
  obj_get (updateData platform r data) "subject" =
    (if pulls (rule_title r) platform then obj_get data "subject" else VUndef) ∧
  obj_get (updateData platform r data) "content" =
    (if pulls (rule_description r) platform then obj_get data "content"
     else VUndef) ∧
  obj_get (updateData platform r data) "status" =
    (if pulls (rule_status r) platform then obj_get data "status"
     else VUndef) ∧
  obj_get (updateData platform r data) "priority" =
    (if pulls (rule_priority r) platform then obj_get data "priority"
     else VUndef).
Proof.
  unfold updateData, put_if.
  by destruct (pulls (rule_title r) platform),
       (pulls (rule_description r) platform),
       (pulls (rule_status r) platform),
       (pulls (rule_priority r) platform).
Qed.

(** The column ids mapped for description, status and priority are three
    different ids, none of them empty or "__proto__". *)
Definition well_mapped (m : FieldMapping) : Prop :=
  NoDup (synced_columns m) ∧
  ("" ∉ synced_columns m) ∧ ("__proto__" ∉ synced_columns m).

Lemma well_mapped_distinct m :
  well_mapped m →
  map_description m ≠ map_status m ∧ map_description m ≠ map_priority m ∧
  map_status m ≠ map_priority m ∧
  nonempty (map_description m) = true ∧ nonempty (map_status m) = true ∧
  nonempty (map_priority m) = true ∧
  map_description m ≠ "__proto__" ∧ map_status m ≠ "__proto__" ∧
  map_priority m ≠ "__proto__".
Proof.
  unfold well_mapped, synced_columns. intros (Hnd & He & Hp).
  apply NoDup_cons in Hnd as [Hd' Hnd]. apply NoDup_cons in Hnd as [Hs' _].
  assert (∀ k x, x ∉ [map_description m; map_status m; map_priority m] →
                 k ∈ [map_description m; map_status m; map_priority m] →
                 k ≠ x) as Hne by (intros k x Hx Hk ->; done).
  unfold nonempty.
  rewrite !bool_decide_eq_false_2 by (apply (Hne _ _ He); in_list).
  split_and!; try done; try (apply (Hne _ _ Hp); in_list).
  - intros E. apply Hd'. rewrite E. in_list.
  - intros E. apply Hd'. rewrite E. in_list.
  - intros E. apply Hs'. rewrite E. in_list.
Qed.

Lemma own_set_if c k v o :
  k ≠ "__proto__" →
  own (set_if c k v o) = if c then <[k := v]> (own o) else own o.
Proof.
  intros Hk. unfold set_if, assign. destruct c; [|done].
  by rewrite (bool_decide_eq_false_2 _ Hk).
Qed.

(** What a payload holds under the three column ids, and that it holds
    nothing else. *)
Definition holds (m : FieldMapping) (columnValues : gmap string JSVal)
    (d s p : option JSVal) : Prop :=
  columnValues !! map_description m = d ∧
  columnValues !! map_status m = s ∧
  columnValues !! map_priority m = p ∧
  ∀ k, k ∉ synced_columns m → columnValues !! k = None.

(** The columns that carry a value, for a guard [sends] on the value. *)
Lemma columnValues_lookup (sends : JSVal → bool) m (d s p : JSVal) :
  well_mapped m →
  holds m
    (own
       (set_if (sends p && nonempty (map_priority m)) (map_priority m) p
          (set_if (sends s && nonempty (map_status m)) (map_status m) s
             (set_if (sends d && nonempty (map_description m))
                (map_description m) d empty_object))))
    (if sends d then Some d else None)
    (if sends s then Some s else None)
    (if sends p then Some p else None).
Proof.
  intros Hm. destruct (well_mapped_distinct m Hm)
    as (Hds & Hdp & Hsp & -> & -> & -> & Hd & Hs & Hp).
  rewrite !andb_true_r, !own_set_if by done. unfold empty_object. cbn [own].
  unfold holds, synced_columns. split_and!.
  - destruct (sends p), (sends s), (sends d);
      by rewrite ?lookup_insert_eq, ?lookup_insert_ne, ?lookup_insert_eq,
           ?lookup_insert_ne, ?lookup_insert_eq, ?lookup_empty by done.
  - destruct (sends p), (sends s), (sends d);
      by rewrite ?lookup_insert_eq, ?lookup_insert_ne, ?lookup_insert_eq,
           ?lookup_insert_ne, ?lookup_insert_eq, ?lookup_empty by done.
  - destruct (sends p), (sends s), (sends d);
      by rewrite ?lookup_insert_eq, ?lookup_insert_ne, ?lookup_insert_eq,
           ?lookup_insert_ne, ?lookup_insert_eq, ?lookup_empty by done.
  - intros k Hk.
    assert (map_description m ≠ k ∧ map_status m ≠ k ∧ map_priority m ≠ k)
      as (? & ? & ?).
    { split_and!; intros <-; apply Hk; in_list. }
    destruct (sends p), (sends s), (sends d);
      by rewrite ?lookup_insert_ne, ?lookup_empty by done.
Qed.

Lemma field_set_nonempty platform r data :
  0 < length (Object_keys (updateData platform r data)) ↔
  field_set platform r ≠ [].
Proof.
  rewrite updateData_pick, Object_keys_pick, length_fmap.
  destruct (field_set platform r); cbn; [split; [lia|done]|].
  split; [done|lia].
Qed.

(** What the loop body of the HubSpot → Monday pass sends for a ticket, and
    how an update differs from a create. For a matched ticket with a field
    to push it requests one change of the matched item: the mapped column of
    description, status or priority is in the payload exactly when the
    field is pulled from HubSpot and the ticket's value is not [undefined];
    a [null] or an empty string is sent, and overwrites the column. For an
    unmatched ticket it requests one create, which holds the value only
    when it is a non-empty string. No other column id is ever in either
    payload. *)
Theorem update_sends_what_create_omits (env : Env)
    (mondayMap : gmap JSVal Item) (ticket : Ticket) (s : nat * nat)
    (w : World) :
  let m := fieldMapping (config w) in
  let r := fieldRules (config w) in
  let p := properties ticket in
  let on_update (rule : string) (v : JSVal) :=
    if pulls rule "hubspot" && defined v then Some v else None in
  let on_create (v : JSVal) := if truthy v then Some v else None in
  well_mapped m →
  (∀ existingItem,
     mondayMap !! subject p = Some existingItem →
     field_set "hubspot" r ≠ [] →
     ∃ columnValues,
       calls (hm_body env mondayMap ticket s w).2 =
         calls w ++ [MondayChangeColumns (mondayToken (config w))
                       (mondayBoardId (config w)) (item_id existingItem)
                       columnValues] ∧
       holds m columnValues
         (on_update (rule_description r) (content p))
         (on_update (rule_status r) (hs_pipeline_stage p))
         (on_update (rule_priority r) (hs_ticket_priority p))) ∧
  (mondayMap !! subject p = None →
   ∃ columnValues,
     calls (hm_body env mondayMap ticket s w).2 =
       calls w ++ [MondayCreateItem (mondayToken (config w))
                     (mondayBoardId (config w)) (subject p) columnValues] ∧
     holds m columnValues
       (on_create (content p)) (on_create (hs_pipeline_stage p))
       (on_create (hs_ticket_priority p))).
Proof.
  intros m r p on_update on_create Hm. split.
  - intros existingItem Hmatch Hfields. unfold p in Hmatch.
    rewrite hm_body_action. unfold hm_action. rewrite Hmatch.
    rewrite bool_decide_eq_true_2 by by apply field_set_nonempty.
    rewrite run_action_calls. cbn [act_call]. eexists. split; [done|].
    fold m r. subst on_update. unfold update_columnValues. cbv zeta.
    destruct (obj_get_updateData "hubspot" r (ticketData ticket))
      as (_ & -> & -> & ->).
    change (obj_get (ticketData ticket) "content") with (content p).
    change (obj_get (ticketData ticket) "status") with (hs_pipeline_stage p).
    change (obj_get (ticketData ticket) "priority")
      with (hs_ticket_priority p).
    pose proof (columnValues_lookup defined m
                  (if pulls (rule_description r) "hubspot" then content p
                   else VUndef)
                  (if pulls (rule_status r) "hubspot" then hs_pipeline_stage p
                   else VUndef)
                  (if pulls (rule_priority r) "hubspot"
                   then hs_ticket_priority p else VUndef) Hm) as Hcols.
    by destruct (pulls (rule_description r) "hubspot"),
         (pulls (rule_status r) "hubspot"),
         (pulls (rule_priority r) "hubspot").
  - intros Hnone. unfold p in Hnone.
    rewrite hm_body_action. unfold hm_action. rewrite Hnone.
    rewrite run_action_calls. cbn [act_call]. eexists. split; [done|].
    apply (columnValues_lookup truthy m (content p) (hs_pipeline_stage p)
             (hs_ticket_priority p) Hm).
Qed.

Lemma update_sends_what_create_omits_witness :
  let env := Sim.remote [] [] Sim.never in
  let bug7 := Sim.ticket "7" "Bug 7" (VStr "") VNull VNull in
  let item7 := Sim.item "70" "Bug 7" [] in
  (∃ columnValues,
     calls (hm_body env {[ VStr "Bug 7" := item7 ]} bug7 (0, 0)
              Sim.enabled_world).2 =
       [MondayChangeColumns "" "" "70" columnValues] ∧
     columnValues !! "text" = Some (VStr "") ∧
     columnValues !! "status" = None) ∧
  (∃ columnValues,
     calls (hm_body env ∅ bug7 (0, 0) Sim.enabled_world).2 =
       [MondayCreateItem "" "" (VStr "Bug 7") columnValues] ∧
     columnValues !! "text" = None).
Proof.
  intros env bug7 item7.
  assert (well_mapped defaultMapping) as Hm.
  { split_and!; [apply (bool_decide_unpack _); by vm_compute|..];
      intros Hin; cbv [synced_columns] in Hin; cbn in Hin; in_list. }
  split.
  - destruct (update_sends_what_create_omits env {[ VStr "Bug 7" := item7 ]}
                bug7 (0, 0) Sim.enabled_world Hm) as [H _].
    destruct (H item7) as (columnValues & Hcalls & Hd & Hs & _);
      [by vm_compute|by vm_compute|].
    exists columnValues. split_and!; [exact Hcalls|exact Hd|exact Hs].
  - destruct (update_sends_what_create_omits env ∅ bug7 (0, 0)
                Sim.enabled_world Hm) as [_ H].
    destruct H as (columnValues & Hcalls & Hd & _); [by vm_compute|].
    exists columnValues. split; [exact Hcalls|exact Hd].
Defined.

Lemma js_or_defined x d : js_or x (VStr d) ≠ VUndef.
Proof. unfold js_or. destruct (truthy x) eqn:Hx; [|done]. by destruct x. Qed.

Lemma add_if_defined_undef data k p o :
  obj_get data k = VUndef → add_if_defined data k p o = o.
Proof. unfold add_if_defined. by intros ->. Qed.

Lemma add_if_defined_def data k p o :
  obj_get data k ≠ VUndef →
  add_if_defined data k p o = o ++ [(p, obj_get data k)].
Proof. unfold add_if_defined. by destruct (obj_get data k). Qed.

Lemma patch_properties_eq m r item :
  name item ≠ VUndef →
  patch_properties (updateData "monday" r (itemData m item)) =
    (if pulls (rule_title r) "monday" then [("subject", name item)] else [])
    ++ (if pulls (rule_description r) "monday"
        then [("content", js_or (column_text item (map_description m))
                            (VStr ""))]
        else [])
    ++ (if pulls (rule_status r) "monday"
        then [("hs_pipeline_stage",
               js_or (column_text item (map_status m)) (VStr "new"))]
        else [])
    ++ (if pulls (rule_priority r) "monday"
        then [("hs_ticket_priority",
               js_or (column_text item (map_priority m)) (VStr "MEDIUM"))]
        else []).
Proof.
  intros Hname. unfold patch_properties.
  destruct (obj_get_updateData "monday" r (itemData m item))
    as (H1 & H2 & H3 & H4).
  cbn in H1, H2, H3, H4.
  assert (∀ (b : bool) (v : JSVal) (p : string) (o : JSObj),
            v ≠ VUndef →
            ∀ (data : JSObj) (k : string),
              obj_get data k = (if b then v else VUndef) →
            add_if_defined data k p o = o ++ (if b then [(p, v)] else []))
    as Hadd.
  { intros [] v p o Hv data k Hk.
    - rewrite add_if_defined_def; by rewrite Hk.
    - by rewrite add_if_defined_undef, app_nil_r. }
  rewrite (Hadd _ _ _ _ (js_or_defined _ _) _ _ H4),
    (Hadd _ _ _ _ (js_or_defined _ _) _ _ H3),
    (Hadd _ _ _ _ (js_or_defined _ _) _ _ H2),
    (Hadd _ _ _ _ Hname _ _ H1).
  by rewrite <- !app_assoc.
Qed.

(** What the loop body of the Monday → HubSpot pass sends for a matched
    item with a field to push: one [PATCH] of the matched ticket, with one
    property per field pulled from Monday, in the order subject, content,
    stage, priority, under HubSpot's property names, and no other property.
    The value of a column that is missing or empty on the item is the
    default ("", "new", "MEDIUM"), so an update with status pulled resets
    the stage of the ticket to "new" when the item has no status text. *)
Theorem patch_sends_pulled_fields_with_defaults (env : Env)
    (hubspotMap : gmap JSVal Ticket) (item : Item) (existingTicket : Ticket)
    (s : nat * nat) (w : World) :
  let m := fieldMapping (config w) in
  let r := fieldRules (config w) in
  hubspotMap !! name item = Some existingTicket →
  field_set "monday" r ≠ [] →
  name item ≠ VUndef →
  calls (mh_body env hubspotMap item s w).2 =
    calls w ++
    [HubSpotPatchTicket (hubspotToken (config w)) (ticket_id existingTicket)
       ((if pulls (rule_title r) "monday" then [("subject", name item)]
         else [])
        ++ (if pulls (rule_description r) "monday"
            then [("content", js_or (column_text item (map_description m))
                                (VStr ""))]
            else [])
        ++ (if pulls (rule_status r) "monday"
            then [("hs_pipeline_stage",
                   js_or (column_text item (map_status m)) (VStr "new"))]
            else [])
        ++ (if pulls (rule_priority r) "monday"
            then [("hs_ticket_priority",
                   js_or (column_text item (map_priority m)) (VStr "MEDIUM"))]
            else []))].
Proof.
  intros m r Hmatch Hfields Hname. rewrite mh_body_action.
  unfold mh_action. rewrite Hmatch.
  rewrite bool_decide_eq_true_2 by by apply field_set_nonempty.
  rewrite run_action_calls. cbn [act_call].
  by rewrite patch_properties_eq.
Qed.

Lemma patch_sends_pulled_fields_with_defaults_witness :
  let env := Sim.remote [] [] Sim.never in
  let chore := Sim.ticket "55" "Chore" (VStr "") (VStr "open") (VStr "LOW") in
  calls (mh_body env {[ VStr "Chore" := chore ]} Scenario.chore (0, 0)
           Sim.enabled_world).2 =
    [HubSpotPatchTicket "" "55"
       [("hs_pipeline_stage", VStr "new");
        ("hs_ticket_priority", VStr "MEDIUM")]].
Proof.
  intros env chore.
  apply (patch_sends_pulled_fields_with_defaults env
           {[ VStr "Chore" := chore ]} Scenario.chore chore (0, 0)
           Sim.enabled_world); by vm_compute.
Defined.

(** ** The settings handlers *)

(** The field of the [POST /rules] body that sets the rule of [f]. *)
Definition body_rule (f : LogicalField) (body : RulesBody) : JSVal :=
  match f with
  | Title => body_title body
  | Description => body_description body
  | Status => body_status body
  | Priority => body_priority body
  end.

(** The credentials and the switch, which the settings forms leave alone. *)
Definition access (c : Config) :=
  (hubspotToken c, mondayToken c, mondayBoardId c, syncEnabled c, lastSync c).

Lemma or_default_spec v d :
  or_default v d = if truthy v then to_str v else d.
Proof. unfold or_default, js_or. by destruct (truthy v). Qed.

Lemma or_default_nonempty v d : d ≠ "" → or_default v d ≠ "".
Proof.
  intros Hd. rewrite or_default_spec. destruct v as [| |s]; cbn; try done.
  by case_bool_decide.
Qed.

(** [POST /rules] and [POST /field-mapping] store what the form sends and
    nothing of what was there: a field that is missing from the body, or
    empty, is reset to its default, whatever the rule or column id was
    before; any other string is stored as it is, without a check. Either
    handler logs one success line, issues no request, starts no pass and
    leaves the credentials, [syncEnabled], [lastSync] and the other of the
    two settings as they were; the [catch] of [POST /field-mapping] is never
    entered. *)
Theorem settings_forms_reset_omitted_fields (env : Env)
    (JSON_stringify : FieldMapping → string) (w : World) :
  (∀ body,
     let w' := (post_rules env body w).2 in
     let r := fieldRules (config w') in
     (post_rules env body w).1 = Ret () ∧
     (∀ f, rule_of f r =
             if truthy (body_rule f body) then to_str (body_rule f body)
             else rule_of f defaultRules) ∧
     rule_assignee r =
       (if truthy (body_assignee body) then to_str (body_assignee body)
        else "both") ∧
     fieldMapping (config w') = fieldMapping (config w) ∧
     access (config w') = access (config w) ∧
     calls w' = calls w ∧ timers w' = timers w ∧
     ∃ line, console w' = console w ++ [render success line]) ∧
  (∀ body,
     let w' := (post_field_mapping env JSON_stringify body w).2 in
     let m := fieldMapping (config w') in
     (post_field_mapping env JSON_stringify body w).1 = Ret () ∧
     map_description m =
       (if truthy (description_monday body)
        then to_str (description_monday body) else "text") ∧
     map_status m =
       (if truthy (status_monday body)
        then to_str (status_monday body) else "status") ∧
     map_priority m =
       (if truthy (priority_monday body)
        then to_str (priority_monday body) else "priority") ∧
     map_assignee m =
       (if truthy (assignee_monday body)
        then to_str (assignee_monday body) else "person") ∧
     fieldRules (config w') = fieldRules (config w) ∧
     access (config w') = access (config w) ∧
     calls w' = calls w ∧ timers w' = timers w ∧
     ∃ line, console w' = console w ++ [render success line]).
Proof.
  split; intros body; cbv zeta.
  - split_and!; try done.
    + intros []; apply or_default_spec.
    + apply or_default_spec.
    + by eexists.
  - split_and!; try done; try apply or_default_spec. by eexists.
Qed.

(** A rule value that is none of "hubspot", "monday" and "both" is accepted
    by [POST /rules], and takes the field out of every update: its key is
    in the [updateData] of neither direction, for any record. *)
Theorem unknown_rule_value_excludes_the_field (env : Env) (body : RulesBody)
    (w : World) (f : LogicalField) (s : string) :
  body_rule f body = VStr s →
  s ∉ [""; "hubspot"; "monday"; "both"] →
  let r := fieldRules (config (post_rules env body w).2) in
  rule_of f r = s ∧
  (∀ data, key_of f ∉ Object_keys (updateData "hubspot" r data)) ∧
  (∀ data, key_of f ∉ Object_keys (updateData "monday" r data)).
Proof.
  intros Hbody Hs r.
  assert (s ≠ "" ∧ s ≠ "hubspot" ∧ s ≠ "monday" ∧ s ≠ "both")
    as (H0 & H1 & H2 & H3).
  { split_and!; intros ->; apply Hs; in_list. }
  assert (rule_of f r = s) as Hr.
  { subst r. destruct f; cbn in Hbody |- *; rewrite or_default_spec, Hbody;
      cbn; by rewrite bool_decide_eq_false_2. }
  split_and!; [done|..]; intros data; rewrite key_in_updateData, Hr;
    unfold pulls; by rewrite !bool_decide_eq_false_2.
Qed.

Lemma unknown_rule_value_excludes_the_field_witness :
  let env := Sim.remote [] [] Sim.never in
  let body := {| body_title := VUndef; body_description := VUndef;
                 body_status := VStr "Both"; body_priority := VUndef;
                 body_assignee := VUndef |} in
  let r := fieldRules (config (post_rules env body initial_world).2) in
  ("status" ∉ Object_keys (updateData "hubspot" r (ticketData Scenario.bug2)))
  ∧ ("status" ∉ Object_keys
                  (updateData "monday" r
                     (itemData defaultMapping Scenario.task))).
Proof.
  intros env body r.
  destruct (unknown_rule_value_excludes_the_field env body initial_world
              Status "Both" eq_refl) as (_ & H1 & H2).
  - apply (bool_decide_unpack _). by vm_compute.
  - split; [apply H1|apply H2].
Defined.

(** In every state the server reaches from start-up by handling events, no
    rule and no mapped column id is the empty string: the start-up values
    are not, and the two forms store a default in place of an empty field.
    So the test of the mapped column id in [createMondayItem] and
    [updateMondayItem] never fails. *)
Theorem settings_are_never_empty (env : Env)
    (JSON_stringify : FieldMapping → string) (PORT : string)
    (es : list Event) :
  let c := config (run env JSON_stringify es (started env PORT)) in
  (rule_title (fieldRules c) ≠ "" ∧ rule_description (fieldRules c) ≠ "" ∧
   rule_status (fieldRules c) ≠ "" ∧ rule_priority (fieldRules c) ≠ "" ∧
   rule_assignee (fieldRules c) ≠ "") ∧
  (nonempty (map_description (fieldMapping c)) = true ∧
   nonempty (map_status (fieldMapping c)) = true ∧
   nonempty (map_priority (fieldMapping c)) = true ∧
   nonempty (map_assignee (fieldMapping c)) = true).
Proof.
  cbv zeta.
  apply (keeps_run env JSON_stringify
           (λ w,
              let c := config w in
              (rule_title (fieldRules c) ≠ "" ∧
               rule_description (fieldRules c) ≠ "" ∧
               rule_status (fieldRules c) ≠ "" ∧
               rule_priority (fieldRules c) ≠ "" ∧
               rule_assignee (fieldRules c) ≠ "") ∧
              (nonempty (map_description (fieldMapping c)) = true ∧
               nonempty (map_status (fieldMapping c)) = true ∧
               nonempty (map_priority (fieldMapping c)) = true ∧
               nonempty (map_assignee (fieldMapping c)) = true))).
  - done.
  - cbv zeta. unfold view. by intros v v' [= _ _ -> ->].
  - intros v body [_ Hm]. split; [|exact Hm]. cbn.
    split_and!; by apply or_default_nonempty.
  - intros v body [Hr _]. split; [exact Hr|]. cbn. unfold nonempty.
    split_and!; apply negb_true_iff, bool_decide_eq_false;
      by apply or_default_nonempty.
  - done.
Qed.

(** ** Field discovery *)

(** [fetchMondayColumns] never throws. A failed request is logged twice,
    by [mondayQuery] and by the function's own [catch]; a reply without
    data makes the read of its boards throw inside the function's [try],
    which is logged once, by that [catch]. In both cases the function
    returns an empty list, not the cached columns, and the cache stays. A
    reply whose data has no board changes nothing and returns the cache as
    it is: the columns discovered earlier, whatever board they were read
    from. A reply with a board replaces the cache by the columns of the
    first board, and returns them. No sync setting is touched. *)
Theorem fetchMondayColumns_outcomes (env : Env)
    (reply : string + Maybe (Maybe (list ColumnsBoard)))
    (cached : list MondayColumn) (w : World) :
  let w' := (fetchMondayColumns env reply cached w).2 in
  settings (config w') = settings (config w) ∧
  calls w' = calls w ∧
  match reply with
  | inl msg =>
      (fetchMondayColumns env reply cached w).1 = Ret ([], cached) ∧
      console w' =
        console w ++ [render error ("Monday.com API error: " +:+ msg);
                      render error ("Error fetching Monday columns: " +:+ msg)]
  | inr (Value (Value (board :: _))) =>
      (fetchMondayColumns env reply cached w).1 =
        Ret (kept_column <$> columns board, kept_column <$> columns board) ∧
      w' = w
  | inr (Value _) =>
      (fetchMondayColumns env reply cached w).1 = Ret (cached, cached) ∧
      w' = w
  | inr data =>
      ∃ msg,
        unreadable data "boards" = Some msg ∧
        (fetchMondayColumns env reply cached w).1 = Ret ([], cached) ∧
        console w' =
          console w ++ [render error ("Error fetching Monday columns: "
                                      +:+ msg)]
  end.
Proof.
  destruct reply as [msg|[| |[| |[|board boards]]]]; cbn; split_and!;
    try done; try (by eexists).
  by rewrite <- app_assoc.
Qed.

(** A reply to the columns query that has neither errors nor data. *)
Example fetchMondayColumns_without_data :
  let env := Sim.remote [] [] Sim.never in
  let cached := [ {| column_id := VStr "status";
                     column_title := VStr "Status";
                     column_type := VStr "status";
                     column_settings := VUndef |} ] in
  (fetchMondayColumns env (inr Undefined) cached Sim.enabled_world).1 =
    Ret ([], cached) ∧
  console (fetchMondayColumns env (inr Undefined) cached Sim.enabled_world).2 =
    ["[ERROR] Error fetching Monday columns: Cannot read properties of undefined (reading 'boards')"].
Proof. by vm_compute. Qed.

(** [fetchHubSpotProperties] never throws. A failed request is logged once;
    the function returns an empty list and the cache stays. A reply
    replaces the cache by its properties, a missing or empty description
    becoming the empty string, and returns them. *)
Theorem fetchHubSpotProperties_outcomes (env : Env)
    (reply : string + list RawProperty)
    (cached : list HubSpotProperty) (w : World) :
  let w' := (fetchHubSpotProperties env reply cached w).2 in
  settings (config w') = settings (config w) ∧
  calls w' = calls w ∧
  match reply with
  | inl msg =>
      (fetchHubSpotProperties env reply cached w).1 = Ret ([], cached) ∧
      console w' =
        console w ++ [render error ("Error fetching HubSpot properties: "
                                    +:+ msg)]
  | inr results =>
      ∃ props,
        (fetchHubSpotProperties env reply cached w).1 = Ret (props, props) ∧
        w' = w ∧
        length props = length results ∧
        Forall (λ prop, ∃ s, prop_description prop = VStr s) props
  end.
Proof.
  destruct reply as [msg|results]; cbn; split_and!; try done.
  eexists. split_and!; try done.
  - by rewrite length_fmap.
  - apply Forall_fmap, Forall_true. intros prop. cbn. unfold js_or.
    destruct (truthy (raw_description prop)) eqn:Ht; [|by eexists].
    destruct (raw_description prop); try done. by eexists.
Qed.

(** ** The index and the matched record *)

Lemma build_map_dom {A} (key : A → JSVal) (xs : list A) :
  dom (build_map key xs) = list_to_set (C := gset JSVal) (key <$> xs).
Proof.
  induction xs as [|x xs IH] using rev_ind; [apply dom_empty_L|].
  rewrite build_map_snoc, dom_insert_L, IH, fmap_app, list_to_set_app_L.
  cbn. rewrite (right_id_L ∅ (∪) {[key x]}). apply (comm_L (∪)).
Qed.

(** The index has an entry for a key exactly when a record of the snapshot
    has that key, so its keys are the distinct keys of the snapshot: two
    records of equal key share one entry, and the index is never larger
    than the snapshot. *)
Theorem index_holds_the_distinct_keys {A : Type} (key : A → JSVal)
    (xs : list A) :
  dom (build_map key xs) = list_to_set (key <$> xs) ∧
  (∀ k, is_Some (build_map key xs !! k) ↔ k ∈ key <$> xs) ∧
  (size (build_map key xs) ≤ length xs)%nat.
Proof.
  split_and!; [apply build_map_dom| |].
  - intros k. by rewrite <- elem_of_dom, build_map_dom, elem_of_list_to_set.
  - induction xs as [|x xs IH] using rev_ind; [done|].
    rewrite build_map_snoc, length_app. cbn.
    destruct (build_map key xs !! key x) eqn:Hk.
    + rewrite map_size_insert_Some by done. lia.
    + rewrite map_size_insert_None by done. lia.
Qed.

(** Of the record a source record is matched with, the loop reads the id
    and nothing else: the values the target record holds are never compared
    with those of the source, so the update is sent, with the same payload,
    whether or not the target already holds these values. *)
Theorem update_reads_only_the_id_of_the_match (env : Env) (c : nat * nat)
    (w : World) :
  (∀ mondayMap ticket item item',
     mondayMap !! subject (properties ticket) = Some item →
     item_id item' = item_id item →
     hm_body env (<[subject (properties ticket) := item']> mondayMap)
       ticket c w =
     hm_body env mondayMap ticket c w) ∧
  (∀ hubspotMap item ticket ticket',
     hubspotMap !! name item = Some ticket →
     ticket_id ticket' = ticket_id ticket →
     mh_body env (<[name item := ticket']> hubspotMap) item c w =
     mh_body env hubspotMap item c w).
Proof.
  split.
  - intros mondayMap ticket item item' Hm Hid.
    rewrite !hm_body_action. unfold hm_action.
    by rewrite lookup_insert_eq, Hm, Hid.
  - intros hubspotMap item ticket ticket' Hm Hid.
    rewrite !mh_body_action. unfold mh_action.
    by rewrite lookup_insert_eq, Hm, Hid.
Qed.

Lemma update_reads_only_the_id_of_the_match_witness :
  let env := Sim.remote [] [] Sim.never in
  let stale := Sim.item "8" "Bug 2" [("text", "old")] in
  let fresh := Sim.item "8" "Bug 2" [("text", "slow")] in
  hm_body env (<[VStr "Bug 2" := fresh]> {[ VStr "Bug 2" := stale ]})
    Scenario.bug2 (0, 0) Sim.enabled_world =
  hm_body env {[ VStr "Bug 2" := stale ]} Scenario.bug2 (0, 0)
    Sim.enabled_world.
Proof.
  intros env stale fresh.
  apply (proj1 (update_reads_only_the_id_of_the_match env (0, 0)
                  Sim.enabled_world)
           {[ VStr "Bug 2" := stale ]} Scenario.bug2 stale fresh);
    reflexivity.
Defined.

(** ** Empty snapshots *)

(** A source snapshot without a record: the reply of HubSpot has no
    [results] or an empty list, or the reply of Monday has no board, a
    board without [items_page], or no item. The pass then fetches both
    snapshots, issues no write, logs its start and a summary of zero, and
    records [lastSync]: it completes, and nothing tells it apart from a
    pass over a source that is really empty. *)
Theorem empty_source_snapshot_completes (env : Env) (w : World) :
  syncEnabled (config w) = true →
  (∀ results boards,
     tickets_reply env (calls w ++ [get_tickets w]) = inr results →
     default [] results = [] →
     boards_reply env (calls w ++ [get_tickets w; items_query w])
       = inr (Value (Value boards)) →
     let w' := (syncHubSpotToMonday env w).2 in
     calls w' = calls w ++ [get_tickets w; items_query w] ∧
     console w' =
       console w
       ++ ["[INFO] Starting HubSpot → Monday.com sync...";
           "[SUCCESS] HubSpot → Monday sync complete: 0 created, 0 updated"] ∧
     lastSync (config w') = Some (clock env (S (S (dates w))))) ∧
  (∀ boards results,
     boards_reply env (calls w ++ [items_query w])
       = inr (Value (Value boards)) →
     default [] (head boards ≫= items_page) = [] →
     tickets_reply env (calls w ++ [items_query w; get_tickets w])
       = inr results →
     let w' := (syncMondayToHubSpot env w).2 in
     calls w' = calls w ++ [items_query w; get_tickets w] ∧
     console w' =
       console w
       ++ ["[INFO] Starting Monday.com → HubSpot sync...";
           "[SUCCESS] Monday → HubSpot sync complete: 0 created, 0 updated"] ∧
     lastSync (config w') = Some (clock env (S (S (dates w))))).
Proof.
  intros Hon. split.
  - intros results boards Ht Hnil Hb w'. subst w'.
    assert (∃ w1, hm_try env w = (Ret (), w1) ∧
              calls w1 = calls w ++ [get_tickets w; items_query w] ∧
              console w1 =
                console w ++ [render info hm_start;
                              render success (hm_summary (0, 0))] ∧
              lastSync (config w1) = Some (clock env (S (S (dates w)))))
      as (w1 & Htry & H).
    { eexists. split.
      - unfold hm_try, bind at 1. rewrite hm_snapshots_eq. cbv zeta.
        rewrite Ht, Hb, Hnil. cbn. reflexivity.
      - unfold logged, issue. cbn. by rewrite <- !app_assoc. }
    by rewrite (proj1 (sync_enabled_returns env w w1 Hon) Htry).
  - intros boards results Hb Hnil Ht w'. subst w'.
    assert (∃ w1, mh_try env w = (Ret (), w1) ∧
              calls w1 = calls w ++ [items_query w; get_tickets w] ∧
              console w1 =
                console w ++ [render info mh_start;
                              render success (mh_summary (0, 0))] ∧
              lastSync (config w1) = Some (clock env (S (S (dates w)))))
      as (w1 & Htry & H).
    { eexists. split.
      - unfold mh_try, bind at 1. rewrite mh_snapshots_eq. cbv zeta.
        rewrite Hb, Ht. unfold items_of. rewrite Hnil. cbn. reflexivity.
      - unfold logged, issue. cbn. by rewrite <- !app_assoc. }
    by rewrite (proj2 (sync_enabled_returns env w w1 Hon) Htry).
Qed.

Lemma empty_source_snapshot_completes_witness :
  let env := {| tickets_reply h := inr None;
                boards_reply h := inr (Value (Value []));
                mutation_reply h := inr (Value ());
                clock n := "T" +:+ pretty n |} in
  calls (syncHubSpotToMonday env Sim.enabled_world).2 =
    [HubSpotGetTickets ""; MondayItemsQuery "" ""] ∧
  calls (syncMondayToHubSpot env Sim.enabled_world).2 =
    [MondayItemsQuery "" ""; HubSpotGetTickets ""].
Proof.
  intros env.
  destruct (empty_source_snapshot_completes env Sim.enabled_world eq_refl)
    as [H1 H2].
  destruct (H1 None [] eq_refl eq_refl eq_refl) as (-> & _).
  by destruct (H2 [] None eq_refl eq_refl eq_refl) as (-> & _).
Defined.

(** ** The credentials *)

(** [POST /config] stores the three values as they come: it sends no
    request to either platform to try them, logs one line, and leaves
    [syncEnabled], the rules, the mapping and the pending timers alone. The
    next pass reads them from [config]: its first fetch carries the new
    token, and every write the new token and board id. *)
Theorem credentials_are_stored_and_used_unchecked (env : Env)
    (body : ConfigBody) (w : World) :
  let w1 := (post_config env body w).2 in
  ((post_config env body w).1 = Ret () ∧
   calls w1 = calls w ∧
   console w1 = console w ++ ["[INFO] Configuration updated"] ∧
   timers w1 = timers w ∧
   syncEnabled (config w1) = syncEnabled (config w) ∧
   fieldRules (config w1) = fieldRules (config w) ∧
   fieldMapping (config w1) = fieldMapping (config w)) ∧
  (syncEnabled (config w) = true →
   (∃ cs,
      calls (syncHubSpotToMonday env w1).2 =
        calls w ++ HubSpotGetTickets (body_hubspotToken body) :: cs ∧
      Forall (hm_request (set_credentials body (config w))) cs) ∧
   (∃ cs,
      calls (syncMondayToHubSpot env w1).2 =
        calls w
        ++ MondayItemsQuery (body_mondayToken body) (body_mondayBoardId body)
           :: cs ∧
      Forall (mh_request (set_credentials body (config w))) cs)).
Proof.
  intros w1. split; [done|]. intros Hon.
  assert (syncEnabled (config w1) = true) as Hon1 by done.
  split.
  - destruct (hm_pass_spec env w1 Hon1) as (cs & ls & _ & Hfr & _).
    destruct (hm_calls env w1) as (cs' & Hcs' & HP).
    pose proof (frame_calls _ _ _ _ Hfr) as Hcs. rewrite Hcs in Hcs'.
    apply app_inv_head in Hcs'. subst cs'. apply Forall_cons in HP as [_ HP].
    exists cs. split; [exact Hcs|].
    eapply Forall_impl; [exact HP|]. intros r. by apply hm_request_settings.
  - destruct (mh_pass_spec env w1 Hon1) as (cs & ls & _ & Hfr & _).
    destruct (mh_calls env w1) as (cs' & Hcs' & HP).
    pose proof (frame_calls _ _ _ _ Hfr) as Hcs. rewrite Hcs in Hcs'.
    apply app_inv_head in Hcs'. subst cs'. apply Forall_cons in HP as [_ HP].
    exists cs. split; [exact Hcs|].
    eapply Forall_impl; [exact HP|]. intros r. by apply mh_request_settings.
Qed.

Lemma credentials_are_stored_and_used_unchecked_witness :
  let env := Sim.remote [Scenario.bug1] [] Sim.never in
  let body := {| body_hubspotToken := "not a token"; body_mondayToken := "";
                 body_mondayBoardId := "no board" |} in
  ∃ cs,
    calls (syncHubSpotToMonday env
             (post_config env body Sim.enabled_world).2).2 =
      calls Sim.enabled_world ++ HubSpotGetTickets "not a token" :: cs.
Proof.
  intros env body.
  destruct (credentials_are_stored_and_used_unchecked env body
              Sim.enabled_world) as (_ & H).
  destruct (H eq_refl) as ((cs & Hcs & _) & _). by exists cs.
Defined.

(** ** Every write is justified by the two snapshots *)

(** A write of the HubSpot → Monday pass, given its snapshots: the item
    created is named after a ticket of the source snapshot, and no item of
    the target snapshot has that name; the item changed is one of the
    target snapshot, named as a ticket of the source snapshot is. *)
Definition hm_justified (tickets : list Ticket) (items : list Item)
    (c : RemoteCall) : Prop :=
  match c with
  | MondayCreateItem _ _ itemName _ =>
      itemName ∈ ticket_subject <$> tickets ∧ itemName ∉ name <$> items
  | MondayChangeColumns _ _ itemId _ =>
      ∃ ticket item,
        ticket ∈ tickets ∧ item ∈ items ∧
        name item = ticket_subject ticket ∧ item_id item = itemId
  | _ => True
  end.

(** The same for the Monday → HubSpot pass. *)
Definition mh_justified (items : list Item) (tickets : list Ticket)
    (c : RemoteCall) : Prop :=
  match c with
  | HubSpotPostTicket _ props =>
      obj_get props "subject" ∈ name <$> items ∧
      obj_get props "subject" ∉ ticket_subject <$> tickets
  | HubSpotPatchTicket _ ticketId _ =>
      ∃ item ticket,
        item ∈ items ∧ ticket ∈ tickets ∧
        ticket_subject ticket = name item ∧ ticket_id ticket = ticketId
  | _ => True
  end.

(** Whether a pass completes or is ended by a failed write, each write it
    has issued is justified by the snapshots it took: it has created no
    record whose key the target snapshot holds, and has updated only
    records of the target snapshot, each for a source record of the same
    key. So a pass that is run again after a failure does not create anew
    what the target already shows. *)
Theorem writes_are_justified_by_the_snapshots (env : Env) (w w0 : World)
    (tickets : list Ticket) (items : list Item) :
  (hm_snapshots env w = (Ret (tickets, items), w0) →
   ∃ cs,
     calls (syncHubSpotToMonday env w).2 = calls w ++ cs ∧
     Forall (hm_justified tickets items) cs) ∧
  (mh_snapshots env w = (Ret (items, tickets), w0) →
   ∃ cs,
     calls (syncMondayToHubSpot env w).2 = calls w ++ cs ∧
     Forall (mh_justified items tickets) cs).
Proof.
  split; intros Hs.
  - destruct (pass_calls env (hm_snapshots env) hm_start get_tickets fst
                (λ snap, hm_body env (build_map name snap.2)) hm_act hm_summary
                (hm_snapshots_spec env) (λ snap, hm_body_action env _)
                (λ snap, hm_action_settings _) (λ snap, hm_action_quiet _)
                (hm_justified tickets items) w) as (cs & Hcs & HP & _).
    + by intros [].
    + intros snap v ticket a Hsnap Hin Ha. rewrite Hs in Hsnap.
      injection Hsnap as <- _. cbn in Hin. unfold hm_act, hm_action in Ha.
      cbn [snd] in Ha.
      destruct (build_map name items !! subject (properties ticket))
        as [item|] eqn:Hm.
      * apply build_map_Some_elem in Hm as [Hitem Hname].
        case_bool_decide; [|done]. injection Ha as <-. cbn.
        by exists ticket, item.
      * injection Ha as <-. cbn. split.
        -- apply list_elem_of_fmap. by exists ticket.
        -- intros Hname. apply list_elem_of_fmap in Hname as (item & Hk & Hitem).
           destruct (build_map_is_Some name items _ item Hitem (eq_sym Hk))
             as [? Hsome].
           by rewrite Hm in Hsome.
    + exists cs. by rewrite <- syncHubSpotToMonday_pass in Hcs.
  - destruct (pass_calls env (mh_snapshots env) mh_start items_query fst
                (λ snap, mh_body env
                   (build_map (λ ticket, subject (properties ticket)) snap.2))
                mh_act mh_summary
                (mh_snapshots_spec env) (λ snap, mh_body_action env _)
                (λ snap, mh_action_settings _) (λ snap, mh_action_quiet _)
                (mh_justified items tickets) w) as (cs & Hcs & HP & _).
    + by intros [].
    + intros snap v item a Hsnap Hin Ha. rewrite Hs in Hsnap.
      injection Hsnap as <- _. cbn in Hin. unfold mh_act, mh_action in Ha.
      cbn [snd] in Ha.
      destruct (build_map (λ ticket, subject (properties ticket)) tickets
                  !! name item) as [ticket|] eqn:Hm.
      * apply build_map_Some_elem in Hm as [Hticket Hname].
        case_bool_decide; [|done]. injection Ha as <-. cbn.
        by exists item, ticket.
      * injection Ha as <-. cbn. split.
        -- apply list_elem_of_fmap. by exists item.
        -- intros Hname.
           apply list_elem_of_fmap in Hname as (ticket & Hk & Hticket).
           destruct (build_map_is_Some
                       (λ ticket, subject (properties ticket)) tickets _
                       ticket Hticket (eq_sym Hk)) as [? Hsome].
           by rewrite Hm in Hsome.
    + exists cs. by rewrite <- syncMondayToHubSpot_pass in Hcs.
Qed.

Lemma writes_are_justified_by_the_snapshots_witness :
  let env := Sim.remote [Scenario.bug2; Scenario.bug1] [Scenario.item_bug2]
               Scenario.bug1_rejected in
  ∃ cs,
    calls (syncHubSpotToMonday env Sim.enabled_world).2 =
      calls Sim.enabled_world ++ cs ∧
    Forall (hm_justified [Scenario.bug2; Scenario.bug1] [Scenario.item_bug2])
      cs.
Proof.
  intros env.
  apply (proj1 (writes_are_justified_by_the_snapshots env Sim.enabled_world
                  (hm_snapshots env Sim.enabled_world).2
                  [Scenario.bug2; Scenario.bug1] [Scenario.item_bug2])).
  by vm_compute.
Defined.
